(** * Sound-Canvas-Pro: the paint-driven oscillator engine (Core/PaintEngine.cpp)

    A shallow embedding of [PaintEngine] and of the properties its design
    document states about it.

    Conventions of the embedding.
    - A C++ [float] is a real number ([R]); rounding, NaN and infinities are
      not represented.  [FLT_MAX] is the real value of the largest float.
      A division follows the source where the divisor is not zero; where
      the source would divide by zero (a canvas of no height or width, a
      sample rate, [INFLUENCE_RADIUS] or [REGION_SIZE] of zero) it yields
      NaN or an infinity, which the reals do not have: statements about
      such a quotient carry the hypothesis that the divisor is not zero.
    - A C++ [int] or [juce::int64] is an integer ([Z]); the only bit
      manipulation, in [getRegionKey], is written with [Z.shiftl] and [Z.lor],
      which agree with two's complement on the 32-bit inputs.  A cast of a
      float to [int] and an increment of an [int] follow the source while
      the value fits 32 bits; statements that depend on the value carry
      that bound.
    - A [std::vector] is a [list]; [push_back] appends at the end, [back] and
      [pop_back] read and drop the last element.
    - Atomics are plain fields: every function below is one thread's step.
    - [juce::Time::getMillisecondCounterHiRes()] is an argument [now] of the
      function that reads it.
    - [PaintEngine.h] is not among the sources.  Its constants, default
      member values and inline helpers are the fields of [Header]; the few
      helpers whose behaviour matters are modelled from the design document
      and say so. *)

From Stdlib Require Import ZArith List Bool Reals Lra Lia FinFun Permutation.
Import ListNotations.

(** ** Framework functions (JUCE, <cmath>) *)

Module Juce.

(** [juce::jlimit (lower, upper, value)]. *)
Definition jlimit (lowerLimit upperLimit valueToConstrain : R) : R :=
  if Rlt_dec valueToConstrain lowerLimit then lowerLimit
  else if Rlt_dec upperLimit valueToConstrain then upperLimit
  else valueToConstrain.

(** [juce::MathConstants<float>::twoPi]. *)
Definition twoPi : R := (2 * PI)%R.

(** [std::floor], as an integer. *)
Definition floorZ (r : R) : Z := Int_part r.

(** [std::floor]. *)
Definition floor (r : R) : R := IZR (floorZ r).

(** [std::numeric_limits<float>::max()]. *)
Definition FLT_MAX : R := ((2 - / 2 ^ 23) * 2 ^ 127)%R.

(** [juce::Colour], as its packed ARGB value. *)
Definition Colour : Type := Z.

Definition transparentBlack : Colour := 0%Z.
Definition white : Colour := 4294967295%Z.

(** [juce::Rectangle<float>]: position and size. *)
Record Rectangle : Type := mkRectangle {
  rectX : R;
  rectY : R;
  rectWidth : R;
  rectHeight : R }.

(** [juce::uint32] arithmetic. *)
Definition wrap32 (z : Z) : Z := (z mod 2 ^ 32)%Z.

End Juce.

(** ** Plain data *)

Record Point : Type := mkPoint { x : R; y : R }.

Module AudioParams.
Record t : Type := mk {
  frequency : R;
  amplitude : R;
  pan : R;
  time : R }.
End AudioParams.

Record StrokePoint : Type := mkStrokePoint {
  position : Point;
  pressure : R;
  color : Juce.Colour }.

Record Stroke : Type := mkStroke {
  strokeId : Z;
  points : list StrokePoint;
  isFinalized : bool;
  bounds : Juce.Rectangle }.

Record CanvasRegion : Type := mkCanvasRegion {
  regionX : Z;
  regionY : Z;
  strokes : list Stroke }.

(** ** Strokes and regions *)

Section Strokes.
Local Open Scope R_scope.

(** [Stroke::Stroke (id)]; a new stroke is not finalized. *)
Definition Stroke_new (id : Z) : Stroke :=
  mkStroke id [] false (Juce.mkRectangle 0 0 0 0).

(** [Stroke::updateBounds]. *)
Definition Stroke_updateBounds (s : Stroke) : Stroke :=
  match points s with
  | [] =>
      mkStroke (strokeId s) (points s) (isFinalized s)
        (Juce.mkRectangle 0 0 0 0)
  | first :: _ =>
      let minX :=
        fold_left (fun acc p => Rmin acc (x (position p))) (points s)
          (x (position first)) in
      let maxX :=
        fold_left (fun acc p => Rmax acc (x (position p))) (points s)
          (x (position first)) in
      let minY :=
        fold_left (fun acc p => Rmin acc (y (position p))) (points s)
          (y (position first)) in
      let maxY :=
        fold_left (fun acc p => Rmax acc (y (position p))) (points s)
          (y (position first)) in
      mkStroke (strokeId s) (points s) (isFinalized s)
        (Juce.mkRectangle minX minY (maxX - minX) (maxY - minY))
  end.

(** [Stroke::addPoint]. *)
Definition Stroke_addPoint (point : StrokePoint) (s : Stroke) : Stroke :=
  Stroke_updateBounds
    (mkStroke (strokeId s) (points s ++ [point]) (isFinalized s) (bounds s)).

(** [Stroke::finalize]. *)
Definition Stroke_finalize (s : Stroke) : Stroke :=
  Stroke_updateBounds (mkStroke (strokeId s) (points s) true (bounds s)).

(** [Stroke::hasActiveOscillators]. *)
Definition Stroke_hasActiveOscillators (s : Stroke) : bool :=
  negb (match points s with [] => true | _ => false end)
  && negb (isFinalized s).

(** [CanvasRegion::CanvasRegion (regionX, regionY)]. *)
Definition CanvasRegion_new (regionX_ regionY_ : Z) : CanvasRegion :=
  mkCanvasRegion regionX_ regionY_ [].

(** [CanvasRegion::addStroke], for a stroke that is not null. *)
Definition CanvasRegion_addStroke (stroke : Stroke) (r : CanvasRegion)
  : CanvasRegion :=
  mkCanvasRegion (regionX r) (regionY r) (strokes r ++ [stroke]).

(** [CanvasRegion::removeStroke]. *)
Definition CanvasRegion_removeStroke (id : Z) (r : CanvasRegion)
  : CanvasRegion :=
  mkCanvasRegion (regionX r) (regionY r)
    (filter (fun stroke => negb (strokeId stroke =? id)%Z) (strokes r)).

(** Modelled from the spec: [CanvasRegion::isEmpty] is inline in the missing
    header.  A region is "removed when it holds zero strokes". *)
Definition CanvasRegion_isEmpty (r : CanvasRegion) : bool :=
  match strokes r with [] => true | _ => false end.

End Strokes.

(** ** A slot of the oscillator array *)

Module Oscillator.

Record t : Type := mk {
  frequency : R;
  amplitude : R;
  targetAmplitude : R;
  pan : R;
  targetPan : R;
  phase : R;
  phaseIncrement : R }.

Local Open Scope R_scope.

(** [Oscillator::setParameters]. *)
Definition setParameters (params : AudioParams.t) (o : t) : t :=
  mk (AudioParams.frequency params)
     (amplitude o)
     (Juce.jlimit 0 1 (AudioParams.amplitude params))
     (pan o)
     (Juce.jlimit 0 1 (AudioParams.pan params))
     (phase o)
     (phaseIncrement o).

(** [Oscillator::updatePhase]. *)
Definition updatePhase (sampleRate : R) (o : t) : t :=
  let phaseIncrement' := frequency o / sampleRate in
  let phase' := phase o + phaseIncrement' in
  let wrapped := if Rge_dec phase' 1 then phase' - Juce.floor phase' else phase' in
  mk (frequency o) (amplitude o) (targetAmplitude o) (pan o) (targetPan o)
     wrapped phaseIncrement'.

(** [Oscillator::getSample]. *)
Definition getSample (o : t) : R :=
  sin (phase o * Juce.twoPi) * amplitude o.

(** [Oscillator::smoothParameters]. *)
Definition smoothParameters (smoothingFactor : R) (o : t) : t :=
  mk (frequency o)
     (amplitude o + (targetAmplitude o - amplitude o) * (smoothingFactor * 2))
     (targetAmplitude o)
     (pan o + (targetPan o - pan o) * (smoothingFactor * 1))
     (targetPan o)
     (phase o)
     (phaseIncrement o).

(** Modelled from the spec: [Oscillator::reset] is declared in PaintEngine.h,
    which is missing.  "Lifecycle: reset to defaults on release/reuse": the
    slot takes the value of a default-constructed oscillator. *)
Definition reset (defaults : t) (o : t) : t := defaults.

End Oscillator.

(** ** Per-voice envelope and bookkeeping *)

Inductive EnvelopePhase : Type := Attack | Sustain | Release | Inactive.

Definition EnvelopePhase_eqb (a b : EnvelopePhase) : bool :=
  match a, b with
  | Attack, Attack | Sustain, Sustain | Release, Release | Inactive, Inactive => true
  | _, _ => false
  end.

Module EnhancedOscillatorState.

Record t : Type := mk {
  envelopePhase : EnvelopePhase;
  envelopeValue : R;
  targetFrequency : R;
  targetAmplitude : R;
  targetPan : R;
  lastUsedTime : R;
  inUse : bool }.

(** Modelled from the spec: the default-constructed state; its initialisers
    are in the missing PaintEngine.h.  The lifecycle starts at Inactive and
    "initially all oscillators are free"; the numeric fields start at zero. *)
Definition initial : t := mk Inactive 0 0 0 0 0 false.

(** Modelled from the spec: [isActive] is declared in the missing header.
    "defined as: envelope phase is Attack/Sustain/Release, i.e. not
    Inactive". *)
Definition isActive (s : t) : bool :=
  negb (EnvelopePhase_eqb (envelopePhase s) Inactive).

(** Modelled from the spec: [activate] is declared in the missing header.
    "marks inUse=true, starts the envelope at Attack". *)
Definition activate (s : t) : t :=
  mk Attack (envelopeValue s) (targetFrequency s) (targetAmplitude s)
     (targetPan s) (lastUsedTime s) true.

(** Modelled from the spec: [release] is declared in the missing header.
    "transitions envelope to Release". *)
Definition release (s : t) : t :=
  mk Release (envelopeValue s) (targetFrequency s) (targetAmplitude s)
     (targetPan s) (lastUsedTime s) (inUse s).

(** Modelled from the spec: [updateEnvelope] is declared in the missing
    header.  "Advance the slot's envelope value by one sample step": the
    phase and the value move as [envelopeStep] says, nothing else changes.
    The step function itself (rates, thresholds) is a parameter. *)
Definition updateEnvelope
  (envelopeStep : R -> EnvelopePhase -> R -> EnvelopePhase * R)
  (sampleRate : R) (s : t) : t :=
  let pv := envelopeStep sampleRate (envelopePhase s) (envelopeValue s) in
  mk (fst pv) (snd pv) (targetFrequency s) (targetAmplitude s)
     (targetPan s) (lastUsedTime s) (inUse s).

Definition withTargets (f a p : R) (s : t) : t :=
  mk (envelopePhase s) (envelopeValue s) f a p (lastUsedTime s) (inUse s).

Definition withLastUsedTime (now : R) (s : t) : t :=
  mk (envelopePhase s) (envelopeValue s) (targetFrequency s)
     (targetAmplitude s) (targetPan s) now (inUse s).

Definition withInUse (b : bool) (s : t) : t :=
  mk (envelopePhase s) (envelopeValue s) (targetFrequency s)
     (targetAmplitude s) (targetPan s) (lastUsedTime s) b.

End EnhancedOscillatorState.

(** ** What PaintEngine.cpp takes from PaintEngine.h and from the framework *)

Record Header : Type := mkHeader {
  (** pool capacity *)
  MAX_OSCILLATORS : nat;
  (** radius of the Gaussian falloff of [calculateInfluence] *)
  INFLUENCE_RADIUS : R;
  (** [CanvasRegion::REGION_SIZE] *)
  REGION_SIZE : R;
  (** [Oscillator{}] *)
  defaultOscillator : Oscillator.t;
  (** default argument of [Oscillator::smoothParameters] *)
  defaultSmoothingFactor : R;
  (** one sample of the envelope, see [EnhancedOscillatorState.updateEnvelope] *)
  envelopeStep : R -> EnvelopePhase -> R -> EnvelopePhase * R;
  (** [Oscillator::isActive] *)
  oscillatorIsActive : Oscillator.t -> bool;
  (** member initialisers of the engine's flags *)
  initialUseLogFrequencyScale : bool;
  initialUsePanning : bool;
  initialIsActive : bool;
  initialSampleRate : R;
  initialSamplesPerBlock : Z;
  initialMasterGain : R;
  initialNextStrokeId : Z;
  (** default argument of [beginStroke] *)
  defaultStrokeColour : Juce.Colour;
  (** [juce::Colour::getHue] *)
  getHue : Juce.Colour -> R }.

(** ** Lists as vectors *)

Section Vectors.
Context {A : Type}.

(** [v[i] = f (v[i])]; nothing happens out of range (the callers guard). *)
Fixpoint updateAt (i : nat) (f : A -> A) (v : list A) : list A :=
  match v, i with
  | [], _ => []
  | a :: v', O => f a :: v'
  | a :: v', S i' => a :: updateAt i' f v'
  end.

End Vectors.

(** ** [juce::SmoothedValue<float>] with linear ramps *)

Module SmoothedValue.

Record t : Type := mk {
  currentValue : R;
  target : R;
  step : R;
  countdown : Z;
  stepsToTarget : Z }.

Local Open Scope R_scope.

Definition isSmoothing (s : t) : bool := (0 <? countdown s)%Z.

Definition setCurrentAndTargetValue (newValue : R) (s : t) : t :=
  mk newValue newValue (step s) 0 (stepsToTarget s).

(** [reset (sampleRate, rampLengthInSeconds)]. *)
Definition reset (sampleRate rampLengthInSeconds : R) (s : t) : t :=
  let numSteps := Juce.floorZ (rampLengthInSeconds * sampleRate) in
  setCurrentAndTargetValue (target s)
    (mk (currentValue s) (target s) (step s) (countdown s) numSteps).

Definition setTargetValue (newValue : R) (s : t) : t :=
  if Req_dec_T newValue (target s) then s
  else if (stepsToTarget s <=? 0)%Z then setCurrentAndTargetValue newValue s
  else mk (currentValue s) newValue
          ((newValue - currentValue s) / IZR (stepsToTarget s))
          (stepsToTarget s) (stepsToTarget s).

(** [getNextValue]: the value returned and the object afterwards. *)
Definition getNextValue (s : t) : R * t :=
  if negb (isSmoothing s) then (target s, s)
  else
    let countdown' := (countdown s - 1)%Z in
    let current' :=
      if (0 <? countdown')%Z then currentValue s + step s else target s in
    (current', mk current' (target s) (step s) countdown' (stepsToTarget s)).

End SmoothedValue.

(** ** The engine object *)

Record PaintEngine : Type := mkPaintEngine {
  sampleRate : R;
  samplesPerBlock : Z;
  masterGain : SmoothedValue.t;
  oscillatorPools : list Oscillator.t * list Oscillator.t;
  frontBufferIndex : Z;
  backBufferIndex : Z;
  bufferSwapPending : bool;
  oscillatorStates : list EnhancedOscillatorState.t;
  freeOscillatorIndices : list Z;
  activeOscillators : Z;
  isActive : bool;
  usePanning : bool;
  useLogFrequencyScale : bool;
  currentStroke : option Stroke;
  nextStrokeId : Z;
  canvasRegions : list (Z * CanvasRegion);
  minFrequency : R;
  maxFrequency : R;
  canvasLeft : R;
  canvasRight : R;
  canvasBottom : R;
  canvasTop : R;
  blockCounter : Z }.

(** Assignments to one member. *)

Definition set_masterGain (v : SmoothedValue.t) (e : PaintEngine) : PaintEngine :=
  mkPaintEngine (sampleRate e) (samplesPerBlock e) v (oscillatorPools e)
    (frontBufferIndex e) (backBufferIndex e) (bufferSwapPending e)
    (oscillatorStates e) (freeOscillatorIndices e) (activeOscillators e)
    (isActive e) (usePanning e) (useLogFrequencyScale e) (currentStroke e)
    (nextStrokeId e) (canvasRegions e) (minFrequency e) (maxFrequency e) (canvasLeft e)
    (canvasRight e) (canvasBottom e) (canvasTop e) (blockCounter e).

Definition set_oscillatorPools (v : list Oscillator.t * list Oscillator.t) (e : PaintEngine) : PaintEngine :=
  mkPaintEngine (sampleRate e) (samplesPerBlock e) (masterGain e) v
    (frontBufferIndex e) (backBufferIndex e) (bufferSwapPending e)
    (oscillatorStates e) (freeOscillatorIndices e) (activeOscillators e)
    (isActive e) (usePanning e) (useLogFrequencyScale e) (currentStroke e)
    (nextStrokeId e) (canvasRegions e) (minFrequency e) (maxFrequency e) (canvasLeft e)
    (canvasRight e) (canvasBottom e) (canvasTop e) (blockCounter e).

Definition set_bufferSwapPending (v : bool) (e : PaintEngine) : PaintEngine :=
  mkPaintEngine (sampleRate e) (samplesPerBlock e) (masterGain e)
    (oscillatorPools e) (frontBufferIndex e) (backBufferIndex e) v
    (oscillatorStates e) (freeOscillatorIndices e) (activeOscillators e)
    (isActive e) (usePanning e) (useLogFrequencyScale e) (currentStroke e)
    (nextStrokeId e) (canvasRegions e) (minFrequency e) (maxFrequency e) (canvasLeft e)
    (canvasRight e) (canvasBottom e) (canvasTop e) (blockCounter e).

Definition set_oscillatorStates (v : list EnhancedOscillatorState.t) (e : PaintEngine) : PaintEngine :=
  mkPaintEngine (sampleRate e) (samplesPerBlock e) (masterGain e)
    (oscillatorPools e) (frontBufferIndex e) (backBufferIndex e)
    (bufferSwapPending e) v (freeOscillatorIndices e) (activeOscillators e)
    (isActive e) (usePanning e) (useLogFrequencyScale e) (currentStroke e)
    (nextStrokeId e) (canvasRegions e) (minFrequency e) (maxFrequency e) (canvasLeft e)
    (canvasRight e) (canvasBottom e) (canvasTop e) (blockCounter e).

Definition set_freeOscillatorIndices (v : list Z) (e : PaintEngine) : PaintEngine :=
  mkPaintEngine (sampleRate e) (samplesPerBlock e) (masterGain e)
    (oscillatorPools e) (frontBufferIndex e) (backBufferIndex e)
    (bufferSwapPending e) (oscillatorStates e) v (activeOscillators e)
    (isActive e) (usePanning e) (useLogFrequencyScale e) (currentStroke e)
    (nextStrokeId e) (canvasRegions e) (minFrequency e) (maxFrequency e) (canvasLeft e)
    (canvasRight e) (canvasBottom e) (canvasTop e) (blockCounter e).

Definition set_activeOscillators (v : Z) (e : PaintEngine) : PaintEngine :=
  mkPaintEngine (sampleRate e) (samplesPerBlock e) (masterGain e)
    (oscillatorPools e) (frontBufferIndex e) (backBufferIndex e)
    (bufferSwapPending e) (oscillatorStates e) (freeOscillatorIndices e) v
    (isActive e) (usePanning e) (useLogFrequencyScale e) (currentStroke e)
    (nextStrokeId e) (canvasRegions e) (minFrequency e) (maxFrequency e) (canvasLeft e)
    (canvasRight e) (canvasBottom e) (canvasTop e) (blockCounter e).

Definition set_currentStroke (v : option Stroke) (e : PaintEngine) : PaintEngine :=
  mkPaintEngine (sampleRate e) (samplesPerBlock e) (masterGain e)
    (oscillatorPools e) (frontBufferIndex e) (backBufferIndex e)
    (bufferSwapPending e) (oscillatorStates e) (freeOscillatorIndices e)
    (activeOscillators e) (isActive e) (usePanning e) (useLogFrequencyScale e)
    v (nextStrokeId e) (canvasRegions e) (minFrequency e) (maxFrequency e)
    (canvasLeft e)
    (canvasRight e) (canvasBottom e) (canvasTop e) (blockCounter e).

Definition set_canvasRegions (v : list (Z * CanvasRegion)) (e : PaintEngine) : PaintEngine :=
  mkPaintEngine (sampleRate e) (samplesPerBlock e) (masterGain e)
    (oscillatorPools e) (frontBufferIndex e) (backBufferIndex e)
    (bufferSwapPending e) (oscillatorStates e) (freeOscillatorIndices e)
    (activeOscillators e) (isActive e) (usePanning e) (useLogFrequencyScale e)
    (currentStroke e) (nextStrokeId e) v (minFrequency e) (maxFrequency e)
    (canvasLeft e)
    (canvasRight e) (canvasBottom e) (canvasTop e) (blockCounter e).

Definition set_blockCounter (v : Z) (e : PaintEngine) : PaintEngine :=
  mkPaintEngine (sampleRate e) (samplesPerBlock e) (masterGain e)
    (oscillatorPools e) (frontBufferIndex e) (backBufferIndex e)
    (bufferSwapPending e) (oscillatorStates e) (freeOscillatorIndices e)
    (activeOscillators e) (isActive e) (usePanning e) (useLogFrequencyScale e)
    (currentStroke e) (nextStrokeId e) (canvasRegions e) (minFrequency e) (maxFrequency e)
    (canvasLeft e) (canvasRight e) (canvasBottom e) (canvasTop e) v.

Definition set_nextStrokeId (v : Z) (e : PaintEngine) : PaintEngine :=
  mkPaintEngine (sampleRate e) (samplesPerBlock e) (masterGain e)
    (oscillatorPools e) (frontBufferIndex e) (backBufferIndex e)
    (bufferSwapPending e) (oscillatorStates e) (freeOscillatorIndices e)
    (activeOscillators e) (isActive e) (usePanning e) (useLogFrequencyScale e)
    (currentStroke e) v (canvasRegions e) (minFrequency e) (maxFrequency e)
    (canvasLeft e) (canvasRight e) (canvasBottom e) (canvasTop e)
    (blockCounter e).

Definition set_prepared (sr : R) (spb : Z) (e : PaintEngine) : PaintEngine :=
  mkPaintEngine sr spb (masterGain e) (oscillatorPools e)
    (frontBufferIndex e) (backBufferIndex e) (bufferSwapPending e)
    (oscillatorStates e) (freeOscillatorIndices e) (activeOscillators e)
    (isActive e) (usePanning e) (useLogFrequencyScale e) (currentStroke e)
    (nextStrokeId e) (canvasRegions e) (minFrequency e) (maxFrequency e) (canvasLeft e)
    (canvasRight e) (canvasBottom e) (canvasTop e) (blockCounter e).

Definition set_bufferIndices (front back : Z) (e : PaintEngine) : PaintEngine :=
  mkPaintEngine (sampleRate e) (samplesPerBlock e) (masterGain e)
    (oscillatorPools e) front back (bufferSwapPending e)
    (oscillatorStates e) (freeOscillatorIndices e) (activeOscillators e)
    (isActive e) (usePanning e) (useLogFrequencyScale e) (currentStroke e)
    (nextStrokeId e) (canvasRegions e) (minFrequency e) (maxFrequency e) (canvasLeft e)
    (canvasRight e) (canvasBottom e) (canvasTop e) (blockCounter e).

Definition set_frequencies (lo hi : R) (e : PaintEngine) : PaintEngine :=
  mkPaintEngine (sampleRate e) (samplesPerBlock e) (masterGain e)
    (oscillatorPools e) (frontBufferIndex e) (backBufferIndex e)
    (bufferSwapPending e) (oscillatorStates e) (freeOscillatorIndices e)
    (activeOscillators e) (isActive e) (usePanning e)
    (useLogFrequencyScale e) (currentStroke e) (nextStrokeId e) (canvasRegions e) lo hi
    (canvasLeft e) (canvasRight e) (canvasBottom e) (canvasTop e)
    (blockCounter e).

Definition set_canvas (l r b t : R) (e : PaintEngine) : PaintEngine :=
  mkPaintEngine (sampleRate e) (samplesPerBlock e) (masterGain e)
    (oscillatorPools e) (frontBufferIndex e) (backBufferIndex e)
    (bufferSwapPending e) (oscillatorStates e) (freeOscillatorIndices e)
    (activeOscillators e) (isActive e) (usePanning e)
    (useLogFrequencyScale e) (currentStroke e) (nextStrokeId e) (canvasRegions e)
    (minFrequency e) (maxFrequency e) l r b t (blockCounter e).

(** The two pools, [oscillatorPools[0]] and [oscillatorPools[1]]. *)
Definition getPool (i : Z) (e : PaintEngine) : list Oscillator.t :=
  if (i =? 0)%Z then fst (oscillatorPools e) else snd (oscillatorPools e).

Definition setPool (i : Z) (v : list Oscillator.t) (e : PaintEngine) : PaintEngine :=
  set_oscillatorPools
    (if (i =? 0)%Z then (v, snd (oscillatorPools e))
     else (fst (oscillatorPools e), v)) e.

(** Modelled from the spec: [getFrontBuffer] and [getBackBuffer] are inline
    in the missing header.  "An atomic front index and back index identify
    which is currently read by the render thread." *)
Definition getFrontBuffer (e : PaintEngine) : list Oscillator.t :=
  getPool (frontBufferIndex e) e.

Definition getBackBuffer (e : PaintEngine) : list Oscillator.t :=
  getPool (backBufferIndex e) e.

(** ** Functions that do not depend on the header *)

Section Mapping.
Local Open Scope R_scope.

(** [PaintEngine::setCanvasRegion]. *)
Definition setCanvasRegion (leftX rightX bottomY topY : R) (e : PaintEngine)
  : PaintEngine :=
  set_canvas leftX rightX bottomY topY e.

(** [PaintEngine::setMasterGain]. *)
Definition setMasterGain (gain : R) (e : PaintEngine) : PaintEngine :=
  set_masterGain
    (SmoothedValue.setTargetValue (Juce.jlimit 0 2 gain) (masterGain e)) e.

(** [PaintEngine::setFrequencyRange]. *)
Definition setFrequencyRange (minHz maxHz : R) (e : PaintEngine) : PaintEngine :=
  let minFrequency' := Juce.jlimit 1 20000 minHz in
  let maxFrequency' := Juce.jlimit (minFrequency' + 1) 22000 maxHz in
  set_frequencies minFrequency' maxFrequency' e.

(** [PaintEngine::canvasYToFrequency].  It follows the source on a canvas
    whose bottom and top differ; on a canvas of no height the source
    divides by zero. *)
Definition canvasYToFrequency (e : PaintEngine) (y : R) : R :=
  let normalizedY := (y - canvasBottom e) / (canvasTop e - canvasBottom e) in
  let clampedY := Juce.jlimit 0 1 normalizedY in
  if useLogFrequencyScale e then
    let logMin := ln (minFrequency e) in
    let logMax := ln (maxFrequency e) in
    exp (logMin + clampedY * (logMax - logMin))
  else
    minFrequency e + clampedY * (maxFrequency e - minFrequency e).

(** [PaintEngine::frequencyToCanvasY]. *)
Definition frequencyToCanvasY (e : PaintEngine) (frequency : R) : R :=
  let clampedFreq := Juce.jlimit (minFrequency e) (maxFrequency e) frequency in
  let normalizedY :=
    if useLogFrequencyScale e then
      let logMin := ln (minFrequency e) in
      let logMax := ln (maxFrequency e) in
      let logFreq := ln clampedFreq in
      (logFreq - logMin) / (logMax - logMin)
    else
      (clampedFreq - minFrequency e) / (maxFrequency e - minFrequency e) in
  canvasBottom e + normalizedY * (canvasTop e - canvasBottom e).

(** [PaintEngine::canvasXToTime].  It follows the source on a canvas whose
    left and right edges differ; on a canvas of no width the source divides
    by zero. *)
Definition canvasXToTime (e : PaintEngine) (x : R) : R :=
  let normalizedX := (x - canvasLeft e) / (canvasRight e - canvasLeft e) in
  Juce.jlimit 0 1 normalizedX.

(** [PaintEngine::timeToCanvasX]. *)
Definition timeToCanvasX (e : PaintEngine) (time : R) : R :=
  let clampedTime := Juce.jlimit 0 1 time in
  canvasLeft e + clampedTime * (canvasRight e - canvasLeft e).

(** [PaintEngine::calculateDistance].  The oscillator read from the front
    buffer is not used by the source's body. *)
Definition calculateDistance (e : PaintEngine) (oscillatorIndex : Z)
  (position : Point) : R :=
  let oscY :=
    frequencyToCanvasY e
      (EnhancedOscillatorState.targetFrequency
         (nth (Z.to_nat oscillatorIndex) (oscillatorStates e)
              EnhancedOscillatorState.initial)) in
  let dx := x position in
  let dy := y position - oscY in
  sqrt (dx * dx + dy * dy).

End Mapping.

(** [PaintEngine::getRegionKey]: both casts widen a 32-bit [int] to
    [juce::int64] with its sign; the shift cannot overflow 64 bits. *)
Definition getRegionKey (regionX regionY : Z) : Z :=
  Z.lor (Z.shiftl regionX 32) regionY.

(** [canvasRegions.find (key)]. *)
Definition findRegion (key : Z) (regions : list (Z * CanvasRegion))
  : option CanvasRegion :=
  match find (fun kv => (fst kv =? key)%Z) regions with
  | Some kv => Some (snd kv)
  | None => None
  end.

(** The entry of [canvasRegions] that a region pointer designates is named
    by its key; [region->addStroke (stroke)] through such a pointer. *)
Fixpoint addStrokeAt (key : Z) (stroke : Stroke)
  (regions : list (Z * CanvasRegion)) : list (Z * CanvasRegion) :=
  match regions with
  | [] => []
  | (k, r) :: rest =>
      if (k =? key)%Z then (k, CanvasRegion_addStroke stroke r) :: rest
      else (k, r) :: addStrokeAt key stroke rest
  end.

(** [PaintEngine::cullInactiveRegions]. *)
Definition cullInactiveRegions (e : PaintEngine) : PaintEngine :=
  set_canvasRegions
    (filter (fun kv => negb (CanvasRegion_isEmpty (snd kv))) (canvasRegions e))
    e.

(** [PaintEngine::swapBuffersIfPending]. *)
Definition swapBuffersIfPending (e : PaintEngine) : PaintEngine :=
  if bufferSwapPending e then
    let currentFront := frontBufferIndex e in
    let currentBack := backBufferIndex e in
    set_bufferSwapPending false (set_bufferIndices currentBack currentFront e)
  else e.

(** [PaintEngine::requestBufferSwap]: a compare-and-exchange of the flag
    from false to true; both outcomes leave it true. *)
Definition requestBufferSwap (e : PaintEngine) : PaintEngine :=
  if bufferSwapPending e then e else set_bufferSwapPending true e.

(** [PaintEngine::updateCanvasOscillators]: it hands the front buffer to
    [Stroke::updateOscillators], whose body ignores its arguments. *)
Definition updateCanvasOscillators (e : PaintEngine) : PaintEngine := e.

(** ** The engine, over the declarations of the header *)

Section Engine.

Variable hdr : Header.

Local Open Scope Z_scope.

(** The constructor [PaintEngine::PaintEngine].  The spatial grid (a type of
    the missing header that no property below reads) is left out. *)
Definition PaintEngine_new : PaintEngine :=
  let pool := repeat (defaultOscillator hdr) (MAX_OSCILLATORS hdr) in
  let members :=
    mkPaintEngine (initialSampleRate hdr) (initialSamplesPerBlock hdr)
      (SmoothedValue.mk (initialMasterGain hdr) (initialMasterGain hdr) 0 0 0)
      (pool, pool) 0 1 false
      (repeat EnhancedOscillatorState.initial (MAX_OSCILLATORS hdr))
      (map Z.of_nat (seq 0 (MAX_OSCILLATORS hdr)))
      0 (initialIsActive hdr) (initialUsePanning hdr)
      (initialUseLogFrequencyScale hdr) None (initialNextStrokeId hdr) []
      0 0 0 0 0 0 0 in
  setCanvasRegion (-100) 100 (-50) 50 (setFrequencyRange 20 20000 members).

(** [PaintEngine::prepareToPlay]. *)
Definition prepareToPlay (sr : R) (samplesPerBlock_ : Z) (e : PaintEngine)
  : PaintEngine :=
  let e1 := set_prepared sr samplesPerBlock_ e in
  let e2 :=
    set_masterGain
      (SmoothedValue.setCurrentAndTargetValue (7 / 10)%R
         (SmoothedValue.reset sr (1 / 100)%R (masterGain e1))) e1 in
  let e3 :=
    set_oscillatorPools
      (map (fun _ => defaultOscillator hdr) (fst (oscillatorPools e2)),
       map (fun _ => defaultOscillator hdr) (snd (oscillatorPools e2))) e2 in
  set_activeOscillators 0 e3.

(** [PaintEngine::releaseResources]. *)
Definition releaseResources (e : PaintEngine) : PaintEngine :=
  let e1 := set_canvasRegions [] (set_currentStroke None e) in
  let e2 :=
    set_oscillatorPools
      (map (fun _ => defaultOscillator hdr) (fst (oscillatorPools e1)),
       map (fun _ => defaultOscillator hdr) (snd (oscillatorPools e1))) e1 in
  set_activeOscillators 0 e2.

(** [PaintEngine::clearCanvas]. *)
Definition clearCanvas (e : PaintEngine) : PaintEngine :=
  let backBuffer := getBackBuffer e in
  let e1 := set_canvasRegions [] (set_currentStroke None e) in
  let e2 :=
    setPool (backBufferIndex e)
      (map (Oscillator.reset (defaultOscillator hdr)) backBuffer) e1 in
  let e3 := set_activeOscillators 0 e2 in
  requestBufferSwap e3.

(** [PaintEngine::getOrCreateRegion]: the key of the map entry that the
    returned pointer designates, and the engine afterwards.  The two
    [static_cast<int>] are the identity on cell numbers that fit 32 bits
    (see [cellFitsInt]); beyond them the source's cast is undefined. *)
Definition getOrCreateRegion (canvasX canvasY : R) (e : PaintEngine)
  : Z * PaintEngine :=
  let regionX := Juce.floorZ (canvasX / REGION_SIZE hdr) in
  let regionY := Juce.floorZ (canvasY / REGION_SIZE hdr) in
  let key := getRegionKey regionX regionY in
  match findRegion key (canvasRegions e) with
  | Some _ => (key, e)
  | None =>
      let newRegion := CanvasRegion_new regionX regionY in
      (key, set_canvasRegions ((key, newRegion) :: canvasRegions e) e)
  end.

(** [PaintEngine::endStroke]: the stroke goes to the region of its first
    point. *)
Definition endStroke (e : PaintEngine) : PaintEngine :=
  match currentStroke e with
  | None => e
  | Some stroke =>
      let finalized := Stroke_finalize stroke in
      match points finalized with
      | [] => set_currentStroke None e
      | point :: _ =>
          let (region, e1) :=
            getOrCreateRegion (x (position point)) (y (position point)) e in
          set_currentStroke None
            (set_canvasRegions
               (addStrokeAt region finalized (canvasRegions e1)) e1)
      end
  end.

(** [PaintEngine::beginStroke]. *)
Definition beginStroke (position_ : Point) (pressure_ : R)
  (color_ : Juce.Colour) (e : PaintEngine) : PaintEngine :=
  let e1 := match currentStroke e with Some _ => endStroke e | None => e end in
  let stroke :=
    Stroke_addPoint (mkStrokePoint position_ pressure_ color_)
      (Stroke_new (nextStrokeId e1)) in
  set_currentStroke (Some stroke)
    (set_nextStrokeId (Juce.wrap32 (nextStrokeId e1 + 1)) e1).

(** [PaintEngine::strokePointToAudioParams]. *)
Definition strokePointToAudioParams (e : PaintEngine) (point : StrokePoint)
  : AudioParams.t :=
  AudioParams.mk
    (canvasYToFrequency e (y (position point)))
    (pressure point)
    (if (color point =? Juce.transparentBlack) then (1 / 2)%R
     else getHue hdr (color point))
    (canvasXToTime e (x (position point))).

(** [PaintEngine::shouldAllocateNewOscillator]. *)
Definition shouldAllocateNewOscillator (e : PaintEngine) (newPoint : StrokePoint)
  : bool :=
  ((if Rgt_dec (pressure newPoint) (1 / 10) then true else false)
   && negb (match freeOscillatorIndices e with [] => true | _ => false end))
  || (if Rgt_dec (pressure newPoint) (1 / 2) then true else false).

(** The loop of [findBestOscillatorForReplacement] from slot [i] on; the
    vector [oscillatorStates] has [MAX_OSCILLATORS] entries, so running over
    its entries is running [i] up to [MAX_OSCILLATORS]. *)
Fixpoint findBestLoop (states : list EnhancedOscillatorState.t) (i : Z)
  (oldestIndex : Z) (oldestTime : R) : Z :=
  match states with
  | [] => oldestIndex
  | state :: rest =>
      if EnvelopePhase_eqb (EnhancedOscillatorState.envelopePhase state) Release
         || EnvelopePhase_eqb (EnhancedOscillatorState.envelopePhase state) Inactive
      then i
      else if Rlt_dec (EnhancedOscillatorState.lastUsedTime state) oldestTime
      then findBestLoop rest (i + 1) i (EnhancedOscillatorState.lastUsedTime state)
      else findBestLoop rest (i + 1) oldestIndex oldestTime
  end.

(** [PaintEngine::findBestOscillatorForReplacement]. *)
Definition findBestOscillatorForReplacement (e : PaintEngine) : Z :=
  findBestLoop (oscillatorStates e) 0 (-1) Juce.FLT_MAX.

(** [PaintEngine::allocateOscillator]: the index returned and the engine
    afterwards. *)
Definition allocateOscillator (e : PaintEngine) : Z * PaintEngine :=
  match freeOscillatorIndices e with
  | [] => (findBestOscillatorForReplacement e, e)
  | _ :: _ =>
      let index := last (freeOscillatorIndices e) 0 in
      (index, set_freeOscillatorIndices (removelast (freeOscillatorIndices e)) e)
  end.

Definition indexInRange (index : Z) : bool :=
  negb ((index <? 0) || (index >=? Z.of_nat (MAX_OSCILLATORS hdr))).

(** [PaintEngine::activateOscillator]. *)
Definition activateOscillator (index : Z) (params : AudioParams.t) (now : R)
  (e : PaintEngine) : PaintEngine :=
  if negb (indexInRange index) then e
  else
    let e1 :=
      set_oscillatorStates
        (updateAt (Z.to_nat index)
           (fun state =>
              EnhancedOscillatorState.withLastUsedTime now
                (EnhancedOscillatorState.withTargets
                   (AudioParams.frequency params)
                   (AudioParams.amplitude params)
                   (AudioParams.pan params)
                   (EnhancedOscillatorState.activate state)))
           (oscillatorStates e)) e in
    setPool (backBufferIndex e1)
      (updateAt (Z.to_nat index) (Oscillator.setParameters params)
         (getBackBuffer e1)) e1.

(** [PaintEngine::releaseOscillator]. *)
Definition releaseOscillator (index : Z) (e : PaintEngine) : PaintEngine :=
  if negb (indexInRange index) then e
  else
    set_oscillatorStates
      (updateAt (Z.to_nat index) EnhancedOscillatorState.release
         (oscillatorStates e)) e.

(** [PaintEngine::calculateInfluence]. *)
Definition calculateInfluence (distance pressure : R) : R :=
  let normalizedDistance := (distance / INFLUENCE_RADIUS hdr)%R in
  let influence :=
    (pressure * exp (- normalizedDistance * normalizedDistance))%R in
  Juce.jlimit 0 1 influence.

(** The three blended targets of [updateOscillatorWithInfluence]. *)
Definition blendTargets (influence : R) (params : AudioParams.t)
  (state : EnhancedOscillatorState.t) : EnhancedOscillatorState.t :=
  EnhancedOscillatorState.withTargets
    (Juce.jlimit 20 20000
       (EnhancedOscillatorState.targetFrequency state * (1 - influence)
        + AudioParams.frequency params * influence)%R)
    (Juce.jlimit 0 1
       (EnhancedOscillatorState.targetAmplitude state * (1 - influence)
        + AudioParams.amplitude params * influence)%R)
    (Juce.jlimit 0 1
       (EnhancedOscillatorState.targetPan state * (1 - influence)
        + AudioParams.pan params * influence)%R)
    state.

(** [PaintEngine::updateOscillatorWithInfluence]. *)
Definition updateOscillatorWithInfluence (oscillatorIndex : Z)
  (newPoint : StrokePoint) (params : AudioParams.t) (now : R)
  (e : PaintEngine) : PaintEngine :=
  if negb (indexInRange oscillatorIndex) then e
  else
    let state :=
      nth (Z.to_nat oscillatorIndex) (oscillatorStates e)
          EnhancedOscillatorState.initial in
    if negb (EnhancedOscillatorState.isActive state) then e
    else
      let distance := calculateDistance e oscillatorIndex (position newPoint) in
      let influence := calculateInfluence distance (pressure newPoint) in
      if Rlt_dec influence (1 / 100) then e
      else
        let state' := blendTargets influence params state in
        let blendedParams :=
          AudioParams.mk (EnhancedOscillatorState.targetFrequency state')
            (EnhancedOscillatorState.targetAmplitude state')
            (EnhancedOscillatorState.targetPan state') 0 in
        let e1 :=
          setPool (backBufferIndex e)
            (updateAt (Z.to_nat oscillatorIndex)
               (Oscillator.setParameters blendedParams) (getBackBuffer e)) e in
        set_oscillatorStates
          (updateAt (Z.to_nat oscillatorIndex)
             (fun _ => EnhancedOscillatorState.withLastUsedTime now state')
             (oscillatorStates e1)) e1.

(** The allocating branch of [updateOscillatorsIncremental]: the only place
    where [allocateOscillator] and [activateOscillator] are called. *)
Definition allocateAndActivate (params : AudioParams.t) (now : R)
  (e : PaintEngine) : PaintEngine :=
  let (oscillatorIndex, e1) := allocateOscillator e in
  if oscillatorIndex >=? 0 then activateOscillator oscillatorIndex params now e1
  else e1.

(** [PaintEngine::updateOscillatorsIncremental].  [nearbyOscillators] is the
    answer of [spatialGrid.getNearbyOscillators], a query of the missing
    header; the registration of the new slot in the grid is left out. *)
Definition updateOscillatorsIncremental (newPoint : StrokePoint)
  (nearbyOscillators : list Z) (now : R) (e : PaintEngine) : PaintEngine :=
  let params := strokePointToAudioParams e newPoint in
  if (match nearbyOscillators with [] => true | _ => false end)
     || shouldAllocateNewOscillator e newPoint
  then allocateAndActivate params now e
  else
    fold_left
      (fun acc oscIndex =>
         updateOscillatorWithInfluence oscIndex newPoint params now acc)
      nearbyOscillators e.

(** [PaintEngine::updateStroke]; [nearbyOscillators] as in
    [updateOscillatorsIncremental]. *)
Definition updateStroke (position_ : Point) (pressure_ : R)
  (nearbyOscillators : list Z) (now : R) (e : PaintEngine) : PaintEngine :=
  match currentStroke e with
  | None => beginStroke position_ pressure_ (defaultStrokeColour hdr) e
  | Some stroke =>
      let point := mkStrokePoint position_ pressure_ Juce.white in
      let e1 := set_currentStroke (Some (Stroke_addPoint point stroke)) e in
      updateOscillatorsIncremental point nearbyOscillators now e1
  end.

(** *** The render loop *)

(** The locals of one pass of the sample loop of [processBlock]. *)
Record MixBus : Type := mkMixBus {
  leftSample : R;
  rightSample : R;
  activeOscCount : Z }.

(** The body of the slot loop of [processBlock] for slot [i]: the slot's
    state and oscillator, the mix buses and the free list afterwards.
    [stereo] is [rightChannel != nullptr]. *)
Definition processSlot (sr now : R) (panning stereo : bool) (i : Z)
  (oscState : EnhancedOscillatorState.t) (osc : Oscillator.t)
  (mix : MixBus) (free : list Z)
  : EnhancedOscillatorState.t * Oscillator.t * MixBus * list Z :=
  if EnhancedOscillatorState.isActive oscState then
    let oscState1 :=
      EnhancedOscillatorState.updateEnvelope (envelopeStep hdr) sr oscState in
    let osc1 := Oscillator.smoothParameters (defaultSmoothingFactor hdr) osc in
    let oscSample := Oscillator.getSample osc1 in
    let envelopedSample :=
      (oscSample * EnhancedOscillatorState.envelopeValue oscState1)%R in
    let mix1 :=
      if panning && stereo then
        let panValue := (1 / 2)%R in
        mkMixBus (leftSample mix + envelopedSample * (1 - panValue))%R
                 (rightSample mix + envelopedSample * panValue)%R
                 (activeOscCount mix)
      else
        mkMixBus (leftSample mix + envelopedSample)%R (rightSample mix)
                 (activeOscCount mix) in
    let osc2 := Oscillator.updatePhase sr osc1 in
    (EnhancedOscillatorState.withLastUsedTime now oscState1, osc2,
     mkMixBus (leftSample mix1) (rightSample mix1) (activeOscCount mix1 + 1),
     free)
  else if EnvelopePhase_eqb (EnhancedOscillatorState.envelopePhase oscState)
            Inactive
          && EnhancedOscillatorState.inUse oscState
  then (EnhancedOscillatorState.withInUse false oscState, osc, mix, free ++ [i])
  else (oscState, osc, mix, free).

(** The slot loop, from slot [i] on, over the states and the front buffer
    (both have [MAX_OSCILLATORS] entries). *)
Fixpoint slotLoop (sr now : R) (panning stereo : bool) (i : Z)
  (states : list EnhancedOscillatorState.t) (pool : list Oscillator.t)
  (mix : MixBus) (free : list Z)
  : list EnhancedOscillatorState.t * list Oscillator.t * MixBus * list Z :=
  match states, pool with
  | oscState :: states', osc :: pool' =>
      let '(oscState1, osc1, mix1, free1) :=
        processSlot sr now panning stereo i oscState osc mix free in
      let '(states1, pool1, mix2, free2) :=
        slotLoop sr now panning stereo (i + 1) states' pool' mix1 free1 in
      (oscState1 :: states1, osc1 :: pool1, mix2, free2)
  | _, _ => (states, pool, mix, free)
  end.

(** One pass of the sample loop of [processBlock]: the engine afterwards and
    the frame written to the buffer (the right value is that of channel 1
    when there is one). *)
Definition samplePass (stereo : bool) (sample : Z) (now : R) (e : PaintEngine)
  : PaintEngine * (R * R) :=
  let '(states1, pool1, mix, free1) :=
    slotLoop (sampleRate e) now (usePanning e) stereo 0
      (oscillatorStates e) (getFrontBuffer e) (mkMixBus 0 0 0)
      (freeOscillatorIndices e) in
  let (currentGain, gain1) := SmoothedValue.getNextValue (masterGain e) in
  let left := (leftSample mix * currentGain)%R in
  let right :=
    if stereo then
      if usePanning e then (rightSample mix * currentGain)%R else left
    else 0%R in
  let e1 :=
    set_masterGain gain1
      (set_freeOscillatorIndices free1
         (set_oscillatorStates states1
            (setPool (frontBufferIndex e) pool1 e))) in
  let e2 :=
    if sample =? 0 then set_activeOscillators (activeOscCount mix) e1 else e1 in
  (e2, (left, right)).

(** The sample loop: [remaining] passes from sample number [sample] on;
    [clock k] is the time read during pass [k]. *)
Fixpoint sampleLoop (stereo : bool) (clock : Z -> R) (remaining : nat)
  (sample : Z) (e : PaintEngine) : PaintEngine * list (R * R) :=
  match remaining with
  | O => (e, [])
  | S remaining' =>
      let (e1, frame) := samplePass stereo sample (clock sample) e in
      let (e2, frames) := sampleLoop stereo clock remaining' (sample + 1) e1 in
      (e2, frame :: frames)
  end.

(** The compaction loop of [optimizeOscillatorPool] on the back buffer. *)
Fixpoint compactLoop (remaining : nat) (i compactIndex : Z)
  (backBuffer : list Oscillator.t) : list Oscillator.t :=
  match remaining with
  | O => backBuffer
  | S remaining' =>
      let osc := nth (Z.to_nat i) backBuffer (defaultOscillator hdr) in
      if oscillatorIsActive hdr osc then
        let backBuffer1 :=
          if negb (compactIndex =? i) then
            updateAt (Z.to_nat i) (Oscillator.reset (defaultOscillator hdr))
              (updateAt (Z.to_nat compactIndex) (fun _ => osc) backBuffer)
          else backBuffer in
        compactLoop remaining' (i + 1) (compactIndex + 1) backBuffer1
      else compactLoop remaining' (i + 1) compactIndex backBuffer
  end.

(** [PaintEngine::optimizeOscillatorPool]. *)
Definition optimizeOscillatorPool (e : PaintEngine) : PaintEngine :=
  requestBufferSwap
    (setPool (backBufferIndex e)
       (compactLoop (MAX_OSCILLATORS hdr) 0 0 (getBackBuffer e)) e).

(** [PaintEngine::processBlock] on a buffer of [numSamples] frames; the
    load measurement, which reads the wall clock, is left out.  The
    counter of blocks is a [static int] local to the function, one for the
    process: [blockCounter e] is its value when the call begins, and the
    increment is that of the source while the value is below [INT_MAX]. *)
Definition processBlock (numSamples : nat) (stereo : bool) (clock : Z -> R)
  (e : PaintEngine) : PaintEngine * list (R * R) :=
  if negb (isActive e) then (e, repeat (0%R, 0%R) numSamples)
  else
    let e1 := swapBuffersIfPending e in
    let e2 := updateCanvasOscillators e1 in
    let (e3, frames) := sampleLoop stereo clock numSamples 0 e2 in
    let e4 := set_blockCounter (blockCounter e3 + 1) e3 in
    let e5 :=
      if Z.rem (blockCounter e4) 100 =? 0 then optimizeOscillatorPool e4
      else e4 in
    (e5, frames).

(** *** Runs of the engine *)

(** The four pool operations, each on its own. *)
Inductive PoolOperation : Type :=
| Allocate
| Activate (index : Z) (params : AudioParams.t) (now : R)
| ReleaseSlot (index : Z)
| ReclaimPass (stereo : bool) (sample : Z) (now : R).

Definition applyPoolOperation (op : PoolOperation) (e : PaintEngine)
  : PaintEngine :=
  match op with
  | Allocate => snd (allocateOscillator e)
  | Activate index params now => activateOscillator index params now e
  | ReleaseSlot index => releaseOscillator index e
  | ReclaimPass stereo sample now => fst (samplePass stereo sample now e)
  end.

Definition runPoolOperations (ops : list PoolOperation) (e : PaintEngine)
  : PaintEngine :=
  fold_left (fun acc op => applyPoolOperation op acc) ops e.

(** The calls the engine receives from its two threads. *)
Inductive Call : Type :=
| BeginStroke (position_ : Point) (pressure_ : R) (color_ : Juce.Colour)
| UpdateStroke (position_ : Point) (pressure_ : R)
    (nearbyOscillators : list Z) (now : R)
| EndStroke
| CullInactiveRegions
| Gesture (newPoint : StrokePoint) (nearbyOscillators : list Z) (now : R)
| AllocateAndActivate (params : AudioParams.t) (now : R)
| Influence (index : Z) (newPoint : StrokePoint) (params : AudioParams.t) (now : R)
| ReleaseOscillator (index : Z)
| SamplePass (stereo : bool) (sample : Z) (now : R)
| ProcessBlock (numSamples : nat) (stereo : bool) (clock : Z -> R)
| PrepareToPlay (sr : R) (samplesPerBlock_ : Z)
| ReleaseResources
| ClearCanvas
| SetFrequencyRange (minHz maxHz : R)
| SetCanvasRegion (leftX rightX bottomY topY : R)
| SetMasterGain (gain : R).

Definition applyCall (c : Call) (e : PaintEngine) : PaintEngine :=
  match c with
  | BeginStroke position_ pressure_ color_ =>
      beginStroke position_ pressure_ color_ e
  | UpdateStroke position_ pressure_ nearby now =>
      updateStroke position_ pressure_ nearby now e
  | EndStroke => endStroke e
  | CullInactiveRegions => cullInactiveRegions e
  | Gesture newPoint nearby now =>
      updateOscillatorsIncremental newPoint nearby now e
  | AllocateAndActivate params now => allocateAndActivate params now e
  | Influence index newPoint params now =>
      updateOscillatorWithInfluence index newPoint params now e
  | ReleaseOscillator index => releaseOscillator index e
  | SamplePass stereo sample now => fst (samplePass stereo sample now e)
  | ProcessBlock numSamples stereo clock =>
      fst (processBlock numSamples stereo clock e)
  | PrepareToPlay sr samplesPerBlock_ => prepareToPlay sr samplesPerBlock_ e
  | ReleaseResources => releaseResources e
  | ClearCanvas => clearCanvas e
  | SetFrequencyRange minHz maxHz => setFrequencyRange minHz maxHz e
  | SetCanvasRegion leftX rightX bottomY topY =>
      setCanvasRegion leftX rightX bottomY topY e
  | SetMasterGain gain => setMasterGain gain e
  end.

Definition run (calls : list Call) (e : PaintEngine) : PaintEngine :=
  fold_left (fun acc c => applyCall c acc) calls e.

(** States the engine can be in: the constructor followed by calls. *)
Definition reachable (e : PaintEngine) : Prop :=
  exists calls, e = run calls PaintEngine_new.

(** *** Predicates on the pool *)

Definition onFreeList (i : Z) (e : PaintEngine) : bool :=
  existsb (Z.eqb i) (freeOscillatorIndices e).

Definition stateAt (i : Z) (e : PaintEngine) : EnhancedOscillatorState.t :=
  nth (Z.to_nat i) (oscillatorStates e) EnhancedOscillatorState.initial.

Definition slotInUse (i : Z) (e : PaintEngine) : bool :=
  EnhancedOscillatorState.inUse (stateAt i e).

(** Every index is on exactly one side. *)
Definition partitioned (e : PaintEngine) : Prop :=
  forall i, 0 <= i < Z.of_nat (MAX_OSCILLATORS hdr) ->
    xorb (onFreeList i e) (slotInUse i e) = true.

(** The shape of the pool that the code relies on: the vectors have
    [MAX_OSCILLATORS] entries, the free list holds slot numbers, and every
    time stamp is a reading of the millisecond counter, a finite float. *)
Definition poolWellFormed (e : PaintEngine) : Prop :=
  length (oscillatorStates e) = MAX_OSCILLATORS hdr
  /\ Forall (fun i => 0 <= i < Z.of_nat (MAX_OSCILLATORS hdr))
       (freeOscillatorIndices e)
  /\ Forall (fun s => (EnhancedOscillatorState.lastUsedTime s < Juce.FLT_MAX)%R)
       (oscillatorStates e).

Definition releasing (s : EnhancedOscillatorState.t) : bool :=
  EnvelopePhase_eqb (EnhancedOscillatorState.envelopePhase s) Release
  || EnvelopePhase_eqb (EnhancedOscillatorState.envelopePhase s) Inactive.

(** Every reading of the millisecond counter that a call takes is a finite
    float. *)
Definition finiteStamps (c : Call) : Prop :=
  match c with
  | UpdateStroke _ _ _ now | Gesture _ _ now | AllocateAndActivate _ now
  | Influence _ _ _ now | SamplePass _ _ now => (now < Juce.FLT_MAX)%R
  | ProcessBlock _ _ clock => forall k, (clock k < Juce.FLT_MAX)%R
  | _ => True
  end.

(** The front and back roles are held by the two different pools. *)
Definition buffersDistinct (e : PaintEngine) : Prop :=
  (frontBufferIndex e = 0 /\ backBufferIndex e = 1)
  \/ (frontBufferIndex e = 1 /\ backBufferIndex e = 0).

End Engine.

(** ** The design document's wording, for comparison with the code *)

Section Worded.
Local Open Scope R_scope.

(** The pan law as documented: the slot's own pan value weighs the two
    buses. *)
Definition documentedPanMix (envelopedSample pan : R) (mix : MixBus) : MixBus :=
  mkMixBus (leftSample mix + envelopedSample * (1 - pan))
           (rightSample mix + envelopedSample * pan)
           (activeOscCount mix).

(** The distance as documented: from the point to the slot's estimated
    position, whose Y is the inverse image of its target frequency and whose
    X is the left edge of the canvas. *)
Definition documentedDistance (e : PaintEngine) (oscillatorIndex : Z)
  (position : Point) : R :=
  let oscY :=
    frequencyToCanvasY e
      (EnhancedOscillatorState.targetFrequency (stateAt oscillatorIndex e)) in
  let dx := x position - canvasLeft e in
  let dy := y position - oscY in
  sqrt (dx * dx + dy * dy).

(** The audible range the document promises for every assigned frequency. *)
Definition documentedFrequencyRange (f : R) : Prop := 20 <= f <= 20000.


End Worded.

(** ** A concrete header, for running the engine *)

Section Studio.
Local Open Scope R_scope.

(** Modelled from the spec: an envelope step in the shape of section 4.3;
    the real one is in the missing header.  The value rises by
    [attackRate / sampleRate] until it reaches 1 (Sustain) and falls by
    [releaseRate / sampleRate] until it is below the reclaim threshold 1e-3
    (Inactive); Sustain and Inactive hold. *)
Definition linearEnvelope (attackRate releaseRate : R) (sampleRate : R)
  (phase : EnvelopePhase) (value : R) : EnvelopePhase * R :=
  match phase with
  | Attack =>
      let value' := value + attackRate / sampleRate in
      if Rlt_dec value' 1 then (Attack, value') else (Sustain, 1)
  | Sustain => (Sustain, value)
  | Release =>
      let value' := value - releaseRate / sampleRate in
      if Rlt_dec value' (1 / 1000) then (Inactive, 0) else (Release, value')
  | Inactive => (Inactive, value)
  end.

(** Two slots at a sample rate of 4 Hz; attack and release take a quarter
    of a second, that is, one sample. *)
Definition studioHeader : Header :=
  mkHeader 2 10 10 (Oscillator.mk 440 0 0 (1 / 2) (1 / 2) 0 0) (1 / 10)
    (linearEnvelope 4 4)
    (fun o => if Rgt_dec (Oscillator.amplitude o) (1 / 1000) then true else false)
    true true true 4 2 (7 / 10) 1 Juce.white (fun _ => 0).

Definition studioParams : AudioParams.t := AudioParams.mk 440 1 0 0.

(** The studio engine with both slots taken: slot 1 at time 2, then slot 0
    at time 1. *)
Definition studioFullPool : PaintEngine :=
  run studioHeader
    [AllocateAndActivate studioParams 2; AllocateAndActivate studioParams 1]
    (PaintEngine_new studioHeader).

(** The studio engine after one voice was allocated, activated (slot 1) and
    released. *)
Definition studioReleasedVoice : PaintEngine :=
  run studioHeader [AllocateAndActivate studioParams 0; ReleaseOscillator 1]
    (PaintEngine_new studioHeader).

End Studio.

(** ** The bookkeeping of one pass, slot by slot *)

Section PassBookkeeping.

Variable hdr : Header.

Local Open Scope Z_scope.

(** A slot that has finished its release and still holds its index. *)
Definition reclaimable (s : EnhancedOscillatorState.t) : bool :=
  negb (EnhancedOscillatorState.isActive s)
  && (EnvelopePhase_eqb (EnhancedOscillatorState.envelopePhase s) Inactive
      && EnhancedOscillatorState.inUse s).

(** What [processSlot] leaves in the slot's state. *)
Definition stateAfterPass (sr now : R) (s : EnhancedOscillatorState.t)
  : EnhancedOscillatorState.t :=
  if EnhancedOscillatorState.isActive s then
    EnhancedOscillatorState.withLastUsedTime now
      (EnhancedOscillatorState.updateEnvelope (envelopeStep hdr) sr s)
  else if reclaimable s then EnhancedOscillatorState.withInUse false s
  else s.

(** The indices pushed during one pass over slots [i], [i+1], ... *)
Fixpoint reclaimedFrom (i : Z) (states : list EnhancedOscillatorState.t)
  : list Z :=
  match states with
  | [] => []
  | s :: rest =>
      (if reclaimable s then [i] else []) ++ reclaimedFrom (i + 1) rest
  end.

(** Every time stamp of the pool is a finite float. *)
Definition stampsFinite (e : PaintEngine) : Prop :=
  Forall
    (fun s => (EnhancedOscillatorState.lastUsedTime s < Juce.FLT_MAX)%R)
    (oscillatorStates e).

(** What the engine's bookkeeping guarantees between calls. *)
Definition engineInvariant (e : PaintEngine) : Prop :=
  length (oscillatorStates e) = MAX_OSCILLATORS hdr
  /\ length (fst (oscillatorPools e)) = MAX_OSCILLATORS hdr
  /\ length (snd (oscillatorPools e)) = MAX_OSCILLATORS hdr
  /\ buffersDistinct e
  /\ NoDup (freeOscillatorIndices e)
  /\ (forall k, In k (freeOscillatorIndices e) ->
        0 <= k < Z.of_nat (MAX_OSCILLATORS hdr))
  /\ (forall j, (j < MAX_OSCILLATORS hdr)%nat ->
        (In (Z.of_nat j) (freeOscillatorIndices e) <->
         EnhancedOscillatorState.inUse
           (nth j (oscillatorStates e) EnhancedOscillatorState.initial) = false)).

End PassBookkeeping.

(** ** Measures of the canvas *)

Section CanvasMeasures.

(** The strokes the canvas holds, region by region. *)
Definition storedStrokes (e : PaintEngine) : list Stroke :=
  flat_map (fun kv => strokes (snd kv)) (canvasRegions e).

(** The keys of [canvasRegions]. *)
Definition regionKeys (e : PaintEngine) : list Z :=
  map fst (canvasRegions e).

(** What the stroke calls keep true of the canvas: [canvasRegions] is a
    map, every region is filed under the key of its cell and holds a
    stroke, the strokes on the canvas are finalized and have a point, and
    the stroke in progress has a point and is not finalized. *)
Definition canvasInvariant (e : PaintEngine) : Prop :=
  NoDup (regionKeys e)
  /\ Forall
       (fun kv =>
          fst kv = getRegionKey (regionX (snd kv)) (regionY (snd kv))
          /\ strokes (snd kv) <> [])
       (canvasRegions e)
  /\ Forall (fun s => isFinalized s = true /\ points s <> [])
       (storedStrokes e)
  /\ (forall s, currentStroke e = Some s ->
        isFinalized s = false /\ points s <> []).

(** A point lies in a rectangle, edges included. *)
Definition encloses (r : Juce.Rectangle) (p : Point) : Prop :=
  (Juce.rectX r <= x p <= Juce.rectX r + Juce.rectWidth r)%R
  /\ (Juce.rectY r <= y p <= Juce.rectY r + Juce.rectHeight r)%R.

(** The members that the pool and the render loop leave alone: the
    canvas, the stroke in progress and the settings of the mapping. *)
Definition paintSettings (e : PaintEngine) :=
  (canvasRegions e, currentStroke e, nextStrokeId e,
   (minFrequency e, maxFrequency e),
   (canvasLeft e, canvasRight e, canvasBottom e, canvasTop e),
   (usePanning e, useLogFrequencyScale e, isActive e)).

(** The calls of one painted gesture: the pen goes down, moves through
    [moves] (position, pressure, the grid's answer and the time read) and
    is lifted. *)
Definition strokeGesture (start : Point) (pressure_ : R)
  (color_ : Juce.Colour) (moves : list (Point * R * list Z * R))
  : list Call :=
  BeginStroke start pressure_ color_
  :: map (fun '(p, pr, nearby, now) => UpdateStroke p pr nearby now) moves
  ++ [EndStroke].

(** The points that the gesture hands to the stroke; [updateStroke] paints
    in white. *)
Definition gesturePoints (start : Point) (pressure_ : R)
  (color_ : Juce.Colour) (moves : list (Point * R * list Z * R))
  : list StrokePoint :=
  mkStrokePoint start pressure_ color_
  :: map (fun '(p, pr, _, _) => mkStrokePoint p pr Juce.white) moves.

(** The frequency range of the mapping. *)
Definition frequencyRange (e : PaintEngine) : R * R :=
  (minFrequency e, maxFrequency e).

(** The range that [setFrequencyRange] leaves: at least one hertz wide,
    inside [1, 22000]. *)
Definition frequencyRangeSound (e : PaintEngine) : Prop :=
  (1 <= minFrequency e <= 20000)%R
  /\ (minFrequency e + 1 <= maxFrequency e <= 22000)%R.

(** An oscillator whose amplitude and pan, current and target, are in
    [0, 1]. *)
Definition withinUnit (o : Oscillator.t) : Prop :=
  (0 <= Oscillator.amplitude o <= 1)%R
  /\ (0 <= Oscillator.targetAmplitude o <= 1)%R
  /\ (0 <= Oscillator.pan o <= 1)%R
  /\ (0 <= Oscillator.targetPan o <= 1)%R.

Definition poolsWithinUnit (e : PaintEngine) : Prop :=
  Forall withinUnit (fst (oscillatorPools e))
  /\ Forall withinUnit (snd (oscillatorPools e)).

(** What the render thread reads of the two buffers: the roles, the swap
    flag and the oscillators of the front buffer. *)
Definition renderSide (e : PaintEngine) :=
  (frontBufferIndex e, backBufferIndex e, bufferSwapPending e,
   getFrontBuffer e).

(** The roles of the buffers, the swap flag and the block counter. *)
Definition renderControl (e : PaintEngine) :=
  (frontBufferIndex e, backBufferIndex e, bufferSwapPending e,
   blockCounter e).

End CanvasMeasures.

(** ** A voice painted before the canvas is cleared *)

Section StudioClear.






End StudioClear.

(** ** Where the arithmetic of the source is defined *)

Section Domain.
Local Open Scope R_scope.

(** The edges of the canvas. *)
Definition canvasEdges (e : PaintEngine) : R * R * R * R :=
  (canvasLeft e, canvasRight e, canvasBottom e, canvasTop e).

(** A canvas with a width and a height: the divisors of [canvasXToTime]
    and [canvasYToFrequency] are not zero. *)
Definition properCanvas (e : PaintEngine) : Prop :=
  canvasLeft e <> canvasRight e /\ canvasBottom e <> canvasTop e.

(** A call whose arguments keep the divisions of the engine defined:
    [setCanvasRegion] is given a canvas with a width and a height and
    [prepareToPlay] a positive sample rate. *)
Definition wellPosedCall (c : Call) : Prop :=
  match c with
  | SetCanvasRegion leftX rightX bottomY topY =>
      leftX <> rightX /\ bottomY <> topY
  | PrepareToPlay sr _ => 0 < sr
  | _ => True
  end.

(** A header whose constants are not zero where the source divides by
    them. *)
Definition wellPosedHeader (hdr : Header) : Prop :=
  INFLUENCE_RADIUS hdr <> 0 /\ REGION_SIZE hdr <> 0
  /\ 0 < initialSampleRate hdr.

(** The cell of a canvas point along one axis is a number that
    [static_cast<int>] keeps. *)
Definition cellFitsInt (hdr : Header) (coordinate : R) : Prop :=
  REGION_SIZE hdr <> 0
  /\ (- 2 ^ 31 <= Juce.floorZ (coordinate / REGION_SIZE hdr) < 2 ^ 31)%Z.

(** The counter of blocks can be incremented without overflow. *)
Definition counterBelowIntMax (e : PaintEngine) : Prop :=
  (- 2 ^ 31 <= blockCounter e < 2 ^ 31 - 1)%Z.

End Domain.

(** ** The paint brush of the processor (Core/PluginProcessor.cpp) *)

Section PaintBrush.
Local Open Scope R_scope.

(** The commands that the paint brush hands to [pushCommandToQueue]:
    [Command (ForgeCommandID::SetPitch, slot, semitones)] and the like. *)
Inductive ForgeCommand : Type :=
| SetPitch (slot : Z) (semitones : R)
| SetVolume (slot : Z) (volume : R)
| StartPlayback (slot : Z)
| StopPlayback (slot : Z).

(** [juce::jlimit] on [int]. *)
Definition jlimitZ (lowerLimit upperLimit valueToConstrain : Z) : Z :=
  if (valueToConstrain <? lowerLimit)%Z then lowerLimit
  else if (upperLimit <? valueToConstrain)%Z then upperLimit
  else valueToConstrain.

(** [std::log2]. *)
Definition log2 (r : R) : R := ln r / ln 2.

(** [ARTEFACTAudioProcessor::setActivePaintBrush]: the new value of
    [activePaintBrushSlot]. *)
Definition setActivePaintBrush (slotIndex : Z) : Z := jlimitZ 0 7 slotIndex.

(** [ARTEFACTAudioProcessor::triggerPaintBrush]: the commands pushed, in
    order; [hasSample] is [voice.hasSample ()] of the active voice. *)
Definition triggerPaintBrush (paintEngine : PaintEngine)
  (activePaintBrushSlot : Z) (hasSample : bool) (canvasY pressure_ : R)
  : list ForgeCommand :=
  let frequency := canvasYToFrequency paintEngine canvasY in
  let semitones := 12 * log2 (frequency / 440) in
  if hasSample then
    let volume := Juce.jlimit 0 1 pressure_ in
    [SetPitch activePaintBrushSlot semitones;
     SetVolume activePaintBrushSlot volume;
     StartPlayback activePaintBrushSlot]
  else [].

(** [ARTEFACTAudioProcessor::stopPaintBrush]. *)
Definition stopPaintBrush (activePaintBrushSlot : Z) : list ForgeCommand :=
  [StopPlayback activePaintBrushSlot].

End PaintBrush.

(** * Properties *)

(** ** Region keys *)

Section RegionKeys.
Local Open Scope Z_scope.

(** With a negative row number the sign extension of [regionY] fills the
    upper half of the key: the column is lost. *)
Lemma getRegionKey_negative_row (regionX regionY : Z) :
  - 2 ^ 32 <= regionY < 0 -> getRegionKey regionX regionY = regionY.
Proof.
  intros Hy. unfold getRegionKey.
  apply Z.bits_inj'. intros n Hn.
  rewrite Z.lor_spec.
  destruct (Z.ltb_spec n 32) as [Hlt | Hge].
  - rewrite Z.shiftl_spec_low by assumption. reflexivity.
  - rewrite (Z.bits_above_log2_neg regionY n).
    + apply orb_true_r.
    + lia.
    + destruct (Z.eq_dec regionY (-1)) as [-> | Hne].
      * simpl. lia.
      * apply Z.lt_le_trans with 32; [| assumption].
        apply Z.log2_lt_pow2; lia.
Qed.

(** On rows that are not negative the key does keep both numbers. *)
Lemma getRegionKey_nonnegative_row (regionX regionY : Z) :
  0 <= regionY < 2 ^ 32 ->
  getRegionKey regionX regionY = regionX * 2 ^ 32 + regionY.
Proof.
  intros Hy. unfold getRegionKey.
  rewrite Z.shiftl_mul_pow2 by lia.
  assert (Hland : Z.land (regionX * 2 ^ 32) regionY = 0).
  { apply Z.bits_inj'. intros n Hn.
    rewrite Z.land_spec, Z.bits_0.
    destruct (Z.ltb_spec n 32) as [Hlt | Hge].
    - rewrite Z.mul_pow2_bits_low by assumption. reflexivity.
    - rewrite (Z.bits_above_log2 regionY n); [apply andb_false_r | lia |].
      destruct (Z.eq_dec regionY 0) as [-> | Hne]; [simpl; lia |].
      apply Z.lt_le_trans with 32; [| assumption].
      apply Z.log2_lt_pow2; lia. }
  rewrite <- Z.lxor_lor by exact Hland.
  symmetry. apply Z.add_nocarry_lxor. exact Hland.
Qed.

End RegionKeys.

(** ** Clamping and the canvas mapping *)

Section MappingFacts.
Local Open Scope R_scope.

Lemma jlimit_bounds (lo hi v : R) :
  lo <= hi -> lo <= Juce.jlimit lo hi v <= hi.
Proof.
  intros Hle. unfold Juce.jlimit.
  destruct (Rlt_dec v lo); [lra |].
  destruct (Rlt_dec hi v); lra.
Qed.

Lemma jlimit_inside (lo hi v : R) :
  lo <= v <= hi -> Juce.jlimit lo hi v = v.
Proof.
  intros Hin. unfold Juce.jlimit.
  destruct (Rlt_dec v lo); [lra |].
  destruct (Rlt_dec hi v); lra.
Qed.

Lemma exp_le (a b : R) : a <= b -> exp a <= exp b.
Proof.
  intros [Hlt | ->]; [left; apply exp_increasing; exact Hlt | right; reflexivity].
Qed.

Lemma FLT_MAX_large : 4 < Juce.FLT_MAX.
Proof.
  unfold Juce.FLT_MAX.
  assert (H23 : 1 <= 2 ^ 23) by (apply pow_R1_Rle; lra).
  assert (H127 : 4 <= 2 ^ 127).
  { change 127%nat with (2 + 125)%nat. rewrite pow_add.
    assert (1 <= 2 ^ 125) by (apply pow_R1_Rle; lra). simpl. nra. }
  assert (Hinv : / 2 ^ 23 <= 1).
  { rewrite <- Rinv_1. apply Rinv_le_contravar; lra. }
  nra.
Qed.

(** [setFrequencyRange] leaves a range inside [1, 22000], one hertz wide at
    least. *)
Lemma setFrequencyRange_bounds (minHz maxHz : R) (e : PaintEngine) :
  let e' := setFrequencyRange minHz maxHz e in
  1 <= minFrequency e' <= 20000
  /\ minFrequency e' + 1 <= maxFrequency e' <= 22000.
Proof.
  cbn.
  pose proof (jlimit_bounds 1 20000 minHz ltac:(lra)) as Hmin.
  pose proof (jlimit_bounds (Juce.jlimit 1 20000 minHz + 1) 22000 maxHz
                ltac:(lra)) as Hmax.
  lra.
Qed.

(** The frequency of a canvas row lies in the configured range. *)
Lemma canvasYToFrequency_in_range (e : PaintEngine) (y : R) :
  0 < minFrequency e <= maxFrequency e ->
  minFrequency e <= canvasYToFrequency e y <= maxFrequency e.
Proof.
  intros [Hpos Hle]. unfold canvasYToFrequency.
  set (t := Juce.jlimit 0 1 _).
  assert (Ht : 0 <= t <= 1) by (apply jlimit_bounds; lra).
  destruct (useLogFrequencyScale e).
  - assert (Hln : ln (minFrequency e) <= ln (maxFrequency e)).
    { destruct Hle as [Hlt | Heq]; [left; apply ln_increasing; assumption |].
      rewrite Heq. lra. }
    rewrite <- (exp_ln (minFrequency e)) at 1 by assumption.
    rewrite <- (exp_ln (maxFrequency e)) at 3 by lra.
    split; apply exp_le; nra.
  - nra.
Qed.

(** Mapping a row to its frequency and back, for a proper frequency range
    and a canvas of positive height. *)
Lemma canvas_round_trip (e : PaintEngine) (y : R) :
  0 < minFrequency e < maxFrequency e ->
  canvasBottom e < canvasTop e ->
  canvasBottom e <= y <= canvasTop e ->
  frequencyToCanvasY e (canvasYToFrequency e y) = y.
Proof.
  intros [Hpos Hlt] Hcanvas Hy.
  pose proof (canvasYToFrequency_in_range e y ltac:(lra)) as Hrange.
  unfold frequencyToCanvasY.
  rewrite (jlimit_inside _ _ _ Hrange).
  unfold canvasYToFrequency in *.
  assert (Hnorm : 0 <= (y - canvasBottom e) / (canvasTop e - canvasBottom e) <= 1).
  { split.
    - apply Rmult_le_pos; [lra |]. left. apply Rinv_0_lt_compat. lra.
    - apply Rmult_le_reg_r with (canvasTop e - canvasBottom e); [lra |].
      unfold Rdiv. rewrite Rmult_assoc, Rinv_l by lra. lra. }
  rewrite (jlimit_inside _ _ _ Hnorm) in *.
  destruct (useLogFrequencyScale e).
  - rewrite ln_exp.
    assert (Hln : ln (minFrequency e) < ln (maxFrequency e))
      by (apply ln_increasing; assumption).
    field. split; lra.
  - field. split; lra.
Qed.

End MappingFacts.

(** ** Vectors *)

Section VectorFacts.
Context {A : Type}.

Lemma updateAt_length (i : nat) (f : A -> A) (v : list A) :
  length (updateAt i f v) = length v.
Proof.
  revert i. induction v as [| a v IH]; intros [| i]; simpl; auto.
Qed.

Lemma nth_updateAt_same (i : nat) (f : A -> A) (v : list A) (d : A) :
  (i < length v)%nat -> nth i (updateAt i f v) d = f (nth i v d).
Proof.
  revert i. induction v as [| a v IH]; intros [| i] Hi; simpl in *;
    try lia; auto.
  apply IH. lia.
Qed.

Lemma nth_updateAt_other (i j : nat) (f : A -> A) (v : list A) (d : A) :
  i <> j -> nth j (updateAt i f v) d = nth j v d.
Proof.
  revert i j. induction v as [| a v IH]; intros [| i] [| j] Hne; simpl;
    try reflexivity; try congruence.
  apply IH. congruence.
Qed.

Lemma updateAt_out_of_range (i : nat) (f : A -> A) (v : list A) :
  (length v <= i)%nat -> updateAt i f v = v.
Proof.
  revert i. induction v as [| a v IH]; intros [| i] Hi; simpl in *;
    try reflexivity; try lia.
  f_equal. apply IH. lia.
Qed.

Lemma last_snoc (v : list A) (a d : A) : last (v ++ [a]) d = a.
Proof. apply last_last. Qed.

Lemma removelast_snoc (v : list A) (a : A) : removelast (v ++ [a]) = v.
Proof. apply removelast_last. Qed.

End VectorFacts.

(** ** One pass of the sample loop *)

Section PassFacts.

Variable hdr : Header.

Local Open Scope Z_scope.

Local Abbreviation State := EnhancedOscillatorState.t.
Local Abbreviation initialState := EnhancedOscillatorState.initial.

Lemma inactive_phase (s : State) :
  EnhancedOscillatorState.isActive s = false <->
  EnhancedOscillatorState.envelopePhase s = Inactive.
Proof.
  unfold EnhancedOscillatorState.isActive.
  destruct (EnhancedOscillatorState.envelopePhase s); simpl;
    split; congruence.
Qed.

Lemma reclaimable_spec (s : State) :
  reclaimable s = true <->
  EnhancedOscillatorState.envelopePhase s = Inactive
  /\ EnhancedOscillatorState.inUse s = true.
Proof.
  unfold reclaimable, EnhancedOscillatorState.isActive.
  destruct (EnhancedOscillatorState.envelopePhase s),
           (EnhancedOscillatorState.inUse s); simpl; split;
    try congruence; try tauto; intros [? ?]; congruence.
Qed.

Lemma stateAfterPass_inUse (sr now : R) (s : State) :
  EnhancedOscillatorState.inUse (stateAfterPass hdr sr now s)
  = EnhancedOscillatorState.inUse s && negb (reclaimable s).
Proof.
  unfold stateAfterPass, reclaimable.
  destruct (EnhancedOscillatorState.isActive s); simpl.
  - rewrite andb_true_r. reflexivity.
  - destruct (EnvelopePhase_eqb _ _ && EnhancedOscillatorState.inUse s) eqn:E;
      simpl.
    + rewrite andb_false_r. reflexivity.
    + rewrite andb_true_r. reflexivity.
Qed.

Lemma processSlot_bookkeeping (sr now : R) (panning stereo : bool) (i : Z)
  (s : State) (o : Oscillator.t) (mix : MixBus) (free : list Z) :
  fst (fst (fst (processSlot hdr sr now panning stereo i s o mix free)))
  = stateAfterPass hdr sr now s
  /\ snd (processSlot hdr sr now panning stereo i s o mix free)
     = free ++ (if reclaimable s then [i] else []).
Proof.
  unfold processSlot, stateAfterPass, reclaimable.
  destruct (EnhancedOscillatorState.isActive s); simpl.
  - rewrite app_nil_r. split; reflexivity.
  - destruct (EnvelopePhase_eqb _ _ && EnhancedOscillatorState.inUse s);
      simpl; [| rewrite app_nil_r]; split; reflexivity.
Qed.

Lemma slotLoop_bookkeeping (sr now : R) (panning stereo : bool)
  (states : list State) :
  forall (pool : list Oscillator.t) (i : Z) (mix : MixBus) (free : list Z),
    (length states <= length pool)%nat ->
    let r := slotLoop hdr sr now panning stereo i states pool mix free in
    fst (fst (fst r)) = map (stateAfterPass hdr sr now) states
    /\ snd r = free ++ reclaimedFrom i states
    /\ length (snd (fst (fst r))) = length pool.
Proof.
  induction states as [| s states IH]; intros pool i mix free Hlen.
  - simpl. rewrite app_nil_r. destruct pool; auto.
  - destruct pool as [| o pool]; [simpl in Hlen; lia |].
    simpl in Hlen. cbn [slotLoop reclaimedFrom map].
    pose proof (processSlot_bookkeeping sr now panning stereo i s o mix free)
      as [Hs Hf].
    destruct (processSlot hdr sr now panning stereo i s o mix free)
      as [[[s1 o1] mix1] free1].
    simpl in Hs, Hf.
    specialize (IH pool (i + 1) mix1 free1 ltac:(lia)).
    destruct (slotLoop hdr sr now panning stereo (i + 1) states pool mix1 free1)
      as [[[states1 pool1] mix2] free2].
    simpl in IH. destruct IH as (IHs & IHf & IHl).
    simpl. subst. rewrite <- app_assoc. repeat split; auto.
Qed.

Lemma reclaimedFrom_In (states : list State) :
  forall (i k : Z),
    In k (reclaimedFrom i states) <->
    exists j, (j < length states)%nat /\ k = i + Z.of_nat j
              /\ reclaimable (nth j states initialState) = true.
Proof.
  induction states as [| s states IH]; intros i k; simpl.
  - split; [tauto | intros (j & Hj & _); lia].
  - rewrite in_app_iff, IH. split.
    + intros [Hhead | (j & Hj & Hk & Hr)].
      * destruct (reclaimable s) eqn:E; simpl in Hhead; [| tauto].
        destruct Hhead as [<- | []]. exists 0%nat.
        repeat split; [lia | lia | exact E].
      * exists (S j). repeat split; [lia | lia | exact Hr].
    + intros ([| j] & Hj & Hk & Hr).
      * left. rewrite Hr. left. lia.
      * right. exists j. repeat split; [lia | lia | exact Hr].
Qed.

Lemma reclaimedFrom_NoDup (states : list State) :
  forall i, NoDup (reclaimedFrom i states).
Proof.
  induction states as [| s states IH]; intros i; simpl; [constructor |].
  destruct (reclaimable s); simpl; [| apply IH].
  constructor; [| apply IH].
  rewrite reclaimedFrom_In. intros (j & _ & Hk & _). lia.
Qed.

End PassFacts.

(** ** The invariant of the bookkeeping *)

Section InvariantFacts.

Variable hdr : Header.

Local Open Scope Z_scope.

Local Abbreviation State := EnhancedOscillatorState.t.
Local Abbreviation initialState := EnhancedOscillatorState.initial.
Local Abbreviation N := (MAX_OSCILLATORS hdr).

(** The invariant reads the states, the free list, the buffer roles and
    the sizes of the pools only. *)
Lemma engineInvariant_frame (e e' : PaintEngine) :
  oscillatorStates e' = oscillatorStates e ->
  freeOscillatorIndices e' = freeOscillatorIndices e ->
  length (fst (oscillatorPools e')) = length (fst (oscillatorPools e)) ->
  length (snd (oscillatorPools e')) = length (snd (oscillatorPools e)) ->
  frontBufferIndex e' = frontBufferIndex e ->
  backBufferIndex e' = backBufferIndex e ->
  engineInvariant hdr e -> engineInvariant hdr e'.
Proof.
  unfold engineInvariant, buffersDistinct.
  intros -> -> -> -> -> ->. tauto.
Qed.

Lemma setPool_lengths (i : Z) (v : list Oscillator.t) (e : PaintEngine) :
  length v = length (getPool i e) ->
  length (fst (oscillatorPools (setPool i v e)))
  = length (fst (oscillatorPools e))
  /\ length (snd (oscillatorPools (setPool i v e)))
     = length (snd (oscillatorPools e)).
Proof.
  unfold setPool, getPool. destruct (i =? 0); simpl; intros ->; auto.
Qed.

Lemma engineInvariant_new : engineInvariant hdr (PaintEngine_new hdr).
Proof.
  unfold engineInvariant. cbn.
  rewrite !repeat_length.
  repeat split; auto.
  - left. split; reflexivity.
  - apply Injective_map_NoDup; [| apply seq_NoDup].
    intros a b. apply Nat2Z.inj.
  - apply in_map_iff in H as (j & <- & Hj). apply in_seq in Hj. lia.
  - apply in_map_iff in H as (j & <- & Hj). apply in_seq in Hj. lia.
  - intros _. rewrite nth_repeat. reflexivity.
  - intros _. apply in_map. apply in_seq. lia.
Qed.

Lemma engineInvariant_all_in_use (e : PaintEngine) :
  engineInvariant hdr e -> freeOscillatorIndices e = [] ->
  forall j, (j < N)%nat ->
    EnhancedOscillatorState.inUse (nth j (oscillatorStates e) initialState)
    = true.
Proof.
  intros (_ & _ & _ & _ & _ & _ & Hiff) Hfree j Hj.
  destruct (EnhancedOscillatorState.inUse _) eqn:E; [reflexivity |].
  apply (Hiff j Hj) in E. rewrite Hfree in E. destruct E.
Qed.

(** A call that keeps every [inUse] flag and the free list keeps the
    invariant. *)
Lemma engineInvariant_same_inUse (e e' : PaintEngine) :
  length (oscillatorStates e') = length (oscillatorStates e) ->
  (forall j, (j < N)%nat ->
     EnhancedOscillatorState.inUse (nth j (oscillatorStates e') initialState)
     = EnhancedOscillatorState.inUse (nth j (oscillatorStates e) initialState)) ->
  freeOscillatorIndices e' = freeOscillatorIndices e ->
  length (fst (oscillatorPools e')) = length (fst (oscillatorPools e)) ->
  length (snd (oscillatorPools e')) = length (snd (oscillatorPools e)) ->
  frontBufferIndex e' = frontBufferIndex e ->
  backBufferIndex e' = backBufferIndex e ->
  engineInvariant hdr e -> engineInvariant hdr e'.
Proof.
  unfold engineInvariant, buffersDistinct.
  intros -> Hin -> -> -> -> -> (Hlen & Hp1 & Hp2 & Hbuf & Hnd & Hrange & Hiff).
  repeat split; auto.
  all: try (apply Hrange; assumption).
  - rewrite Hin by assumption. apply Hiff; assumption.
  - rewrite Hin by assumption. apply Hiff; assumption.
Qed.

Lemma updateAt_same_inUse (index : nat) (f : State -> State)
  (states : list State) :
  (forall s, EnhancedOscillatorState.inUse (f s)
             = EnhancedOscillatorState.inUse s) ->
  forall j,
    EnhancedOscillatorState.inUse (nth j (updateAt index f states) initialState)
    = EnhancedOscillatorState.inUse (nth j states initialState).
Proof.
  intros Hf j.
  destruct (Nat.eq_dec index j) as [-> | Hne].
  - destruct (Nat.lt_ge_cases j (length states)) as [Hlt | Hge].
    + rewrite nth_updateAt_same by assumption. apply Hf.
    + rewrite updateAt_out_of_range by assumption. reflexivity.
  - rewrite nth_updateAt_other by assumption. reflexivity.
Qed.

End InvariantFacts.

(** ** Every call keeps the invariant *)

Section CallFacts.

Variable hdr : Header.

Local Open Scope Z_scope.

Local Abbreviation State := EnhancedOscillatorState.t.
Local Abbreviation initialState := EnhancedOscillatorState.initial.
Local Abbreviation N := (MAX_OSCILLATORS hdr).

Lemma setPool_states (i : Z) (v : list Oscillator.t) (e : PaintEngine) :
  oscillatorStates (setPool i v e) = oscillatorStates e.
Proof. unfold setPool. destruct (i =? 0); reflexivity. Qed.

Lemma setPool_free (i : Z) (v : list Oscillator.t) (e : PaintEngine) :
  freeOscillatorIndices (setPool i v e) = freeOscillatorIndices e.
Proof. unfold setPool. destruct (i =? 0); reflexivity. Qed.

Lemma getPool_length (i : Z) (e : PaintEngine) :
  engineInvariant hdr e -> length (getPool i e) = N.
Proof.
  intros (_ & Hp1 & Hp2 & _). unfold getPool. destruct (i =? 0); assumption.
Qed.

Lemma engineInvariant_prepareToPlay (sr : R) (spb : Z) (e : PaintEngine) :
  engineInvariant hdr e -> engineInvariant hdr (prepareToPlay hdr sr spb e).
Proof.
  apply engineInvariant_frame; cbn; rewrite ?length_map; reflexivity.
Qed.

Lemma engineInvariant_releaseResources (e : PaintEngine) :
  engineInvariant hdr e -> engineInvariant hdr (releaseResources hdr e).
Proof.
  apply engineInvariant_frame; cbn; rewrite ?length_map; reflexivity.
Qed.

Lemma engineInvariant_requestBufferSwap (e : PaintEngine) :
  engineInvariant hdr e -> engineInvariant hdr (requestBufferSwap e).
Proof.
  unfold requestBufferSwap. destruct (bufferSwapPending e); [auto |].
  apply engineInvariant_frame; reflexivity.
Qed.

Lemma engineInvariant_setPool (i : Z) (v : list Oscillator.t) (e : PaintEngine) :
  length v = length (getPool i e) ->
  engineInvariant hdr e -> engineInvariant hdr (setPool i v e).
Proof.
  intros Hlen.
  destruct (setPool_lengths i v e Hlen) as [H1 H2].
  apply engineInvariant_frame; auto.
Qed.

Lemma engineInvariant_clearCanvas (e : PaintEngine) :
  engineInvariant hdr e -> engineInvariant hdr (clearCanvas hdr e).
Proof.
  intros Hinv. unfold clearCanvas.
  apply engineInvariant_requestBufferSwap.
  apply (engineInvariant_frame hdr
           (setPool (backBufferIndex e)
              (map (Oscillator.reset (defaultOscillator hdr)) (getBackBuffer e))
              e)); try reflexivity.
  apply engineInvariant_setPool; [| assumption].
  rewrite length_map. reflexivity.
Qed.

Lemma engineInvariant_setFrequencyRange (minHz maxHz : R) (e : PaintEngine) :
  engineInvariant hdr e -> engineInvariant hdr (setFrequencyRange minHz maxHz e).
Proof. apply engineInvariant_frame; reflexivity. Qed.

Lemma engineInvariant_setCanvasRegion (l r b t : R) (e : PaintEngine) :
  engineInvariant hdr e -> engineInvariant hdr (setCanvasRegion l r b t e).
Proof. apply engineInvariant_frame; reflexivity. Qed.

Lemma engineInvariant_setMasterGain (gain : R) (e : PaintEngine) :
  engineInvariant hdr e -> engineInvariant hdr (setMasterGain gain e).
Proof. apply engineInvariant_frame; reflexivity. Qed.

Lemma engineInvariant_swapBuffersIfPending (e : PaintEngine) :
  engineInvariant hdr e -> engineInvariant hdr (swapBuffersIfPending e).
Proof.
  unfold swapBuffersIfPending. destruct (bufferSwapPending e); [| auto].
  unfold engineInvariant, buffersDistinct. cbn. tauto.
Qed.

Lemma engineInvariant_releaseOscillator (index : Z) (e : PaintEngine) :
  engineInvariant hdr e -> engineInvariant hdr (releaseOscillator hdr index e).
Proof.
  unfold releaseOscillator. destruct (negb (indexInRange hdr index)); [auto |].
  apply engineInvariant_same_inUse; cbn; try reflexivity.
  - apply updateAt_length.
  - intros j _. apply updateAt_same_inUse. reflexivity.
Qed.

Lemma engineInvariant_updateOscillatorWithInfluence (index : Z)
  (newPoint : StrokePoint) (params : AudioParams.t) (now : R)
  (e : PaintEngine) :
  engineInvariant hdr e ->
  engineInvariant hdr
    (updateOscillatorWithInfluence hdr index newPoint params now e).
Proof.
  intros Hinv. unfold updateOscillatorWithInfluence.
  destruct (negb (indexInRange hdr index)); [assumption |].
  destruct (negb (EnhancedOscillatorState.isActive _)); [assumption |].
  destruct (Rlt_dec _ _); [assumption |].
  match goal with
  | |- engineInvariant _ (set_oscillatorStates _ ?e1) =>
      assert (H1 : engineInvariant hdr e1)
  end.
  { apply engineInvariant_setPool; [| assumption].
    rewrite updateAt_length. reflexivity. }
  revert H1. apply engineInvariant_same_inUse; try reflexivity;
    cbn [oscillatorStates set_oscillatorStates]; rewrite setPool_states.
  - apply updateAt_length.
  - intros j Hj.
    destruct (Nat.eq_dec (Z.to_nat index) j) as [<- | Hne].
    + destruct Hinv as (Hlen & _).
      rewrite nth_updateAt_same by lia. reflexivity.
    + rewrite nth_updateAt_other by assumption. reflexivity.
Qed.

(** Switching slot [index] to in-use while it leaves the free list. *)
Lemma engineInvariant_activated (e e' : PaintEngine) (index : Z)
  (f : State -> State) :
  engineInvariant hdr e ->
  (forall s, EnhancedOscillatorState.inUse (f s) = true) ->
  0 <= index < Z.of_nat N ->
  oscillatorStates e' = updateAt (Z.to_nat index) f (oscillatorStates e) ->
  NoDup (freeOscillatorIndices e') ->
  (forall k, In k (freeOscillatorIndices e') <->
             In k (freeOscillatorIndices e) /\ k <> index) ->
  length (fst (oscillatorPools e')) = length (fst (oscillatorPools e)) ->
  length (snd (oscillatorPools e')) = length (snd (oscillatorPools e)) ->
  frontBufferIndex e' = frontBufferIndex e ->
  backBufferIndex e' = backBufferIndex e ->
  engineInvariant hdr e'.
Proof.
  intros (Hlen & Hp1 & Hp2 & Hbuf & Hnd & Hrange & Hiff)
         Hf Hidx Hstates Hnd' Hfree Hl1 Hl2 Hfront Hback.
  unfold engineInvariant, buffersDistinct in *.
  rewrite Hstates, updateAt_length, Hl1, Hl2, Hfront, Hback.
  refine (conj _ (conj _ (conj _ (conj _ (conj _ (conj _ _)))))); auto.
  - intros k Hk. apply Hrange, Hfree, Hk.
  - intros j Hj. split; intros H0.
    + destruct (Nat.eq_dec (Z.to_nat index) j) as [<- | Hne].
      * apply Hfree in H0. destruct H0 as [_ Hk]. lia.
      * rewrite nth_updateAt_other by assumption.
        apply Hiff; [assumption |]. apply Hfree. assumption.
    + destruct (Nat.eq_dec (Z.to_nat index) j) as [<- | Hne].
      * rewrite nth_updateAt_same in H0 by lia. rewrite Hf in H0. discriminate.
      * rewrite nth_updateAt_other in H0 by assumption.
        apply Hfree. split; [apply Hiff; assumption | lia].
Qed.

Lemma activateOscillator_states (index : Z) (params : AudioParams.t) (now : R)
  (e : PaintEngine) :
  indexInRange hdr index = true ->
  oscillatorStates (activateOscillator hdr index params now e)
  = updateAt (Z.to_nat index)
      (fun state =>
         EnhancedOscillatorState.withLastUsedTime now
           (EnhancedOscillatorState.withTargets
              (AudioParams.frequency params) (AudioParams.amplitude params)
              (AudioParams.pan params)
              (EnhancedOscillatorState.activate state)))
      (oscillatorStates e).
Proof.
  intros Hr. unfold activateOscillator. rewrite Hr. cbn [negb].
  rewrite setPool_states. reflexivity.
Qed.

Lemma indexInRange_spec (index : Z) :
  indexInRange hdr index = true <-> 0 <= index < Z.of_nat N.
Proof.
  unfold indexInRange.
  destruct (Z.ltb_spec index 0), (Z.geb_spec index (Z.of_nat N)); simpl;
    split; intros; try discriminate; try reflexivity; lia.
Qed.

(** [activateOscillator] on an engine [e] whose free list is that of [e0]
    without [index]. *)
Lemma engineInvariant_activateOscillator (e0 e : PaintEngine) (index : Z)
  (params : AudioParams.t) (now : R) :
  engineInvariant hdr e0 ->
  indexInRange hdr index = true ->
  oscillatorStates e = oscillatorStates e0 ->
  NoDup (freeOscillatorIndices e) ->
  (forall k, In k (freeOscillatorIndices e) <->
             In k (freeOscillatorIndices e0) /\ k <> index) ->
  length (fst (oscillatorPools e)) = length (fst (oscillatorPools e0)) ->
  length (snd (oscillatorPools e)) = length (snd (oscillatorPools e0)) ->
  frontBufferIndex e = frontBufferIndex e0 ->
  backBufferIndex e = backBufferIndex e0 ->
  engineInvariant hdr (activateOscillator hdr index params now e).
Proof.
  intros Hinv Hr Hstates Hnd Hfree Hl1 Hl2 Hfront Hback.
  pose proof (activateOscillator_states index params now e Hr) as Hs.
  rewrite Hstates in Hs.
  apply indexInRange_spec in Hr.
  assert (Hr' : indexInRange hdr index = true) by (apply indexInRange_spec; lia).
  assert (Hlens :
    length (fst (oscillatorPools (activateOscillator hdr index params now e)))
    = length (fst (oscillatorPools e))
    /\ length (snd (oscillatorPools (activateOscillator hdr index params now e)))
       = length (snd (oscillatorPools e))).
  { unfold activateOscillator. rewrite Hr'. cbn [negb].
    match goal with
    | |- context [setPool ?i ?v ?e1] =>
        destruct (setPool_lengths i v e1) as [A B]
    end.
    - rewrite updateAt_length. reflexivity.
    - split; [exact A | exact B]. }
  destruct Hlens as [Hlen1 Hlen2].
  eapply (engineInvariant_activated e0); eauto.
  - reflexivity.
  - unfold activateOscillator. rewrite Hr'. cbn [negb].
    rewrite setPool_free. exact Hnd.
  - unfold activateOscillator. rewrite Hr'. cbn [negb].
    rewrite setPool_free. exact Hfree.
  - congruence.
  - congruence.
  - unfold activateOscillator, setPool. rewrite Hr'. cbn [negb].
    exact Hfront.
  - unfold activateOscillator, setPool. rewrite Hr'. cbn [negb].
    exact Hback.
Qed.

Lemma engineInvariant_allocateAndActivate (params : AudioParams.t) (now : R)
  (e : PaintEngine) :
  engineInvariant hdr e ->
  engineInvariant hdr (allocateAndActivate hdr params now e).
Proof.
  intros Hinv. unfold allocateAndActivate, allocateOscillator.
  destruct (freeOscillatorIndices e) as [| a l] eqn:Hfree.
  - destruct (_ >=? 0); [| assumption].
    destruct (indexInRange hdr (findBestOscillatorForReplacement e)) eqn:Hr.
    + apply (engineInvariant_activateOscillator e); auto.
      * apply Hinv.
      * intros k. rewrite Hfree. simpl. tauto.
    + unfold activateOscillator. rewrite Hr. assumption.
  - destruct (exists_last (l := a :: l) ltac:(discriminate)) as (l' & b & Heq).
    rewrite Heq, last_snoc, removelast_snoc.
    pose proof Hinv as (Hlen & Hp1 & Hp2 & Hbuf & Hnd & Hrange & Hiff).
    rewrite Hfree, Heq in Hnd, Hrange.
    assert (Hb : ~ In b l').
    { apply NoDup_remove_2 in Hnd. rewrite app_nil_r in Hnd. exact Hnd. }
    assert (Hbr : 0 <= b < Z.of_nat N)
      by (apply Hrange, in_or_app; right; left; reflexivity).
    replace (b >=? 0) with true by (symmetry; apply Z.geb_le; lia).
    apply (engineInvariant_activateOscillator e); try reflexivity.
    + exact Hinv.
    + apply indexInRange_spec. exact Hbr.
    + apply NoDup_app_remove_r in Hnd. exact Hnd.
    + intros k. cbn [freeOscillatorIndices set_freeOscillatorIndices].
      rewrite Hfree, Heq, in_app_iff. simpl. split.
      * intros Hk. split; [left; assumption | congruence].
      * intros [[Hk | [Hk | []]] Hne]; [assumption | congruence].
Qed.

(** What one pass does to the bookkeeping. *)
Lemma samplePass_effect (stereo : bool) (sample : Z) (now : R)
  (e : PaintEngine) :
  engineInvariant hdr e ->
  let e' := fst (samplePass hdr stereo sample now e) in
  oscillatorStates e'
  = map (stateAfterPass hdr (sampleRate e) now) (oscillatorStates e)
  /\ freeOscillatorIndices e'
     = freeOscillatorIndices e ++ reclaimedFrom 0 (oscillatorStates e)
  /\ length (fst (oscillatorPools e')) = N
  /\ length (snd (oscillatorPools e')) = N
  /\ frontBufferIndex e' = frontBufferIndex e
  /\ backBufferIndex e' = backBufferIndex e
  /\ sampleRate e' = sampleRate e.
Proof.
  intros Hinv. unfold samplePass.
  pose proof (getPool_length (frontBufferIndex e) e Hinv) as Hfront.
  pose proof Hinv as (Hlen & Hp1 & Hp2 & _).
  pose proof (slotLoop_bookkeeping hdr (sampleRate e) now (usePanning e) stereo
                (oscillatorStates e) (getFrontBuffer e) 0 (mkMixBus 0 0 0)
                (freeOscillatorIndices e)) as Hloop.
  unfold getFrontBuffer in *.
  specialize (Hloop ltac:(lia)). cbv zeta in Hloop.
  destruct (slotLoop hdr (sampleRate e) now (usePanning e) stereo 0
              (oscillatorStates e) (getPool (frontBufferIndex e) e)
              (mkMixBus 0 0 0) (freeOscillatorIndices e))
    as [[[states1 pool1] mix] free1].
  cbn [fst snd] in Hloop. destruct Hloop as (Hs & Hf & Hl).
  destruct (SmoothedValue.getNextValue (masterGain e)) as [currentGain gain1].
  destruct (setPool_lengths (frontBufferIndex e) pool1 e Hl) as [A B].
  assert (Hsame : forall e1 : PaintEngine,
            (if sample =? 0 then set_activeOscillators (activeOscCount mix) e1
             else e1)
            = set_activeOscillators
                (if sample =? 0 then activeOscCount mix else activeOscillators e1)
                e1).
  { intros e1. destruct (sample =? 0); [reflexivity |]. destruct e1; reflexivity. }
  rewrite Hsame. cbn [fst].
  cbn [oscillatorStates freeOscillatorIndices oscillatorPools frontBufferIndex
       backBufferIndex sampleRate set_activeOscillators set_masterGain
       set_freeOscillatorIndices set_oscillatorStates].
  rewrite A, B. unfold setPool.
  repeat split; auto.
Qed.

Lemma engineInvariant_samplePass (stereo : bool) (sample : Z) (now : R)
  (e : PaintEngine) :
  engineInvariant hdr e ->
  engineInvariant hdr (fst (samplePass hdr stereo sample now e)).
Proof.
  intros Hinv.
  destruct (samplePass_effect stereo sample now e Hinv)
    as (Hs & Hf & Hl1 & Hl2 & Hfront & Hback & _).
  destruct Hinv as (Hlen & Hp1 & Hp2 & Hbuf & Hnd & Hrange & Hiff).
  unfold engineInvariant, buffersDistinct.
  rewrite Hs, Hf, Hl1, Hl2, Hfront, Hback, length_map.
  refine (conj _ (conj _ (conj _ (conj _ (conj _ (conj _ _)))))); auto.
  - apply NoDup_app; [assumption | apply reclaimedFrom_NoDup |].
    intros k Hk Hk'. apply reclaimedFrom_In in Hk' as (j & Hj & -> & Hrec).
    apply reclaimable_spec in Hrec as [_ Hin].
    rewrite Z.add_0_l in Hk. apply Hiff in Hk; [congruence | lia].
  - intros k Hk. apply in_app_or in Hk as [Hk | Hk]; [auto |].
    apply reclaimedFrom_In in Hk as (j & Hj & -> & _). lia.
  - intros j Hj.
    rewrite (nth_indep _ initialState
               (stateAfterPass hdr (sampleRate e) now initialState))
      by (rewrite length_map; lia).
    rewrite map_nth, stateAfterPass_inUse, in_app_iff, reclaimedFrom_In.
    specialize (Hiff j Hj).
    destruct (EnhancedOscillatorState.inUse
                (nth j (oscillatorStates e) initialState)) eqn:Hin;
      destruct (reclaimable (nth j (oscillatorStates e) initialState)) eqn:Hrec;
      simpl; split; intros H0; try reflexivity; try discriminate.
    + right. exists j. split; [lia | split; [lia | assumption]].
    + destruct H0 as [H0 | (j' & Hj' & Heq & Hrec')].
      * apply Hiff in H0. discriminate.
      * assert (j' = j) by lia. subst j'. congruence.
    + left. apply Hiff. reflexivity.
    + left. apply Hiff. reflexivity.
Qed.

Lemma engineInvariant_sampleLoop (stereo : bool) (clock : Z -> R)
  (remaining : nat) :
  forall (sample : Z) (e : PaintEngine),
    engineInvariant hdr e ->
    engineInvariant hdr (fst (sampleLoop hdr stereo clock remaining sample e)).
Proof.
  induction remaining as [| remaining IH]; intros sample e Hinv; simpl;
    [assumption |].
  pose proof (engineInvariant_samplePass stereo sample (clock sample) e Hinv)
    as H1.
  destruct (samplePass hdr stereo sample (clock sample) e) as [e1 frame].
  specialize (IH (sample + 1) e1 H1).
  destruct (sampleLoop hdr stereo clock remaining (sample + 1) e1) as [e2 frames].
  exact IH.
Qed.

Lemma compactLoop_length (remaining : nat) :
  forall (i compactIndex : Z) (backBuffer : list Oscillator.t),
    length (compactLoop hdr remaining i compactIndex backBuffer)
    = length backBuffer.
Proof.
  induction remaining as [| remaining IH]; intros i c buf; simpl;
    [reflexivity |].
  destruct (oscillatorIsActive hdr _); [| apply IH].
  rewrite IH. destruct (negb (c =? i)); [| reflexivity].
  rewrite !updateAt_length. reflexivity.
Qed.

Lemma engineInvariant_optimizeOscillatorPool (e : PaintEngine) :
  engineInvariant hdr e -> engineInvariant hdr (optimizeOscillatorPool hdr e).
Proof.
  intros Hinv. unfold optimizeOscillatorPool.
  apply engineInvariant_requestBufferSwap, engineInvariant_setPool;
    [| assumption].
  apply compactLoop_length.
Qed.

Lemma engineInvariant_processBlock (numSamples : nat) (stereo : bool)
  (clock : Z -> R) (e : PaintEngine) :
  engineInvariant hdr e ->
  engineInvariant hdr (fst (processBlock hdr numSamples stereo clock e)).
Proof.
  intros Hinv. unfold processBlock.
  destruct (negb (isActive e)); [assumption |].
  unfold updateCanvasOscillators.
  pose proof (engineInvariant_sampleLoop stereo clock numSamples 0 _
                (engineInvariant_swapBuffersIfPending e Hinv)) as H1.
  destruct (sampleLoop hdr stereo clock numSamples 0 (swapBuffersIfPending e))
    as [e3 frames].
  cbn [fst] in *.
  assert (H4 : engineInvariant hdr (set_blockCounter (blockCounter e3 + 1) e3))
    by (revert H1; apply engineInvariant_frame; reflexivity).
  destruct (Z.rem _ 100 =? 0); [| assumption].
  apply engineInvariant_optimizeOscillatorPool. assumption.
Qed.

Lemma engineInvariant_updateOscillatorsIncremental (newPoint : StrokePoint)
  (nearby : list Z) (now : R) (e : PaintEngine) :
  engineInvariant hdr e ->
  engineInvariant hdr (updateOscillatorsIncremental hdr newPoint nearby now e).
Proof.
  intros Hinv. unfold updateOscillatorsIncremental.
  destruct (_ || _).
  - apply engineInvariant_allocateAndActivate. assumption.
  - generalize (strokePointToAudioParams hdr e newPoint). intros params.
    revert e Hinv. induction nearby as [| i nearby IH]; intros e Hinv; simpl;
      [assumption |].
    apply IH, engineInvariant_updateOscillatorWithInfluence. assumption.
Qed.

Lemma engineInvariant_endStroke (e : PaintEngine) :
  engineInvariant hdr e -> engineInvariant hdr (endStroke hdr e).
Proof.
  intros Hinv. unfold endStroke.
  destruct (currentStroke e) as [stroke |]; [| assumption].
  destruct (points (Stroke_finalize stroke)) as [| point rest].
  - revert Hinv. apply engineInvariant_frame; reflexivity.
  - unfold getOrCreateRegion.
    destruct (findRegion _ _); revert Hinv; apply engineInvariant_frame;
      reflexivity.
Qed.

Lemma engineInvariant_beginStroke (position_ : Point) (pressure_ : R)
  (color_ : Juce.Colour) (e : PaintEngine) :
  engineInvariant hdr e ->
  engineInvariant hdr (beginStroke hdr position_ pressure_ color_ e).
Proof.
  intros Hinv. unfold beginStroke.
  match goal with
  | |- engineInvariant _
         (set_currentStroke _ (set_nextStrokeId _ ?e1)) =>
      assert (H1 : engineInvariant hdr e1)
  end.
  { destruct (currentStroke e); [apply engineInvariant_endStroke |];
      assumption. }
  revert H1. apply engineInvariant_frame; reflexivity.
Qed.

Lemma engineInvariant_updateStroke (position_ : Point) (pressure_ : R)
  (nearby : list Z) (now : R) (e : PaintEngine) :
  engineInvariant hdr e ->
  engineInvariant hdr (updateStroke hdr position_ pressure_ nearby now e).
Proof.
  intros Hinv. unfold updateStroke.
  destruct (currentStroke e) as [stroke |].
  - apply engineInvariant_updateOscillatorsIncremental.
    revert Hinv. apply engineInvariant_frame; reflexivity.
  - apply engineInvariant_beginStroke. assumption.
Qed.

Lemma engineInvariant_cullInactiveRegions (e : PaintEngine) :
  engineInvariant hdr e -> engineInvariant hdr (cullInactiveRegions e).
Proof. apply engineInvariant_frame; reflexivity. Qed.

Lemma engineInvariant_applyCall (c : Call) (e : PaintEngine) :
  engineInvariant hdr e -> engineInvariant hdr (applyCall hdr c e).
Proof.
  intros Hinv. destruct c; simpl.
  - apply engineInvariant_beginStroke; assumption.
  - apply engineInvariant_updateStroke; assumption.
  - apply engineInvariant_endStroke; assumption.
  - apply engineInvariant_cullInactiveRegions; assumption.
  - apply engineInvariant_updateOscillatorsIncremental; assumption.
  - apply engineInvariant_allocateAndActivate; assumption.
  - apply engineInvariant_updateOscillatorWithInfluence; assumption.
  - apply engineInvariant_releaseOscillator; assumption.
  - apply engineInvariant_samplePass; assumption.
  - apply engineInvariant_processBlock; assumption.
  - apply engineInvariant_prepareToPlay; assumption.
  - apply engineInvariant_releaseResources; assumption.
  - apply engineInvariant_clearCanvas; assumption.
  - apply engineInvariant_setFrequencyRange; assumption.
  - apply engineInvariant_setCanvasRegion; assumption.
  - apply engineInvariant_setMasterGain; assumption.
Qed.

Lemma engineInvariant_run (calls : list Call) :
  forall e, engineInvariant hdr e -> engineInvariant hdr (run hdr calls e).
Proof.
  unfold run. induction calls as [| c calls IH]; intros e Hinv; simpl;
    [assumption |].
  apply IH, engineInvariant_applyCall. assumption.
Qed.

Lemma engineInvariant_reachable (e : PaintEngine) :
  reachable hdr e -> engineInvariant hdr e.
Proof.
  intros (calls & ->). apply engineInvariant_run, engineInvariant_new.
Qed.

Lemma onFreeList_In (i : Z) (e : PaintEngine) :
  onFreeList i e = true <-> In i (freeOscillatorIndices e).
Proof.
  unfold onFreeList. rewrite existsb_exists. split.
  - intros (k & Hk & Heq). apply Z.eqb_eq in Heq. subst. assumption.
  - intros Hin. exists i. split; [assumption | apply Z.eqb_refl].
Qed.

Lemma engineInvariant_partitioned (e : PaintEngine) :
  engineInvariant hdr e -> partitioned hdr e.
Proof.
  intros (_ & _ & _ & _ & _ & _ & Hiff) i Hi.
  specialize (Hiff (Z.to_nat i) ltac:(lia)).
  rewrite Z2Nat.id in Hiff by lia.
  unfold slotInUse, stateAt.
  destruct (onFreeList i e) eqn:Hfree.
  - apply onFreeList_In, Hiff in Hfree. rewrite Hfree. reflexivity.
  - destruct (EnhancedOscillatorState.inUse _) eqn:Hin; [reflexivity |].
    assert (Hon : onFreeList i e = true)
      by (apply onFreeList_In, Hiff; reflexivity).
    congruence.
Qed.

End CallFacts.

(** ** The render loop's mix *)

Section MixFacts.
Local Open Scope R_scope.

(** For an active slot of a stereo block with panning on, the code's mix is
    the documented law at the fixed pan value one half, whatever the slot's
    own pan is. *)
Lemma processSlot_pans_at_centre (hdr : Header) (sr now : R) (i : Z)
  (s : EnhancedOscillatorState.t) (o : Oscillator.t) (mix : MixBus)
  (free : list Z) :
  EnhancedOscillatorState.isActive s = true ->
  let s1 := EnhancedOscillatorState.updateEnvelope (envelopeStep hdr) sr s in
  let o1 := Oscillator.smoothParameters (defaultSmoothingFactor hdr) o in
  let envelopedSample :=
    Oscillator.getSample o1 * EnhancedOscillatorState.envelopeValue s1 in
  snd (fst (processSlot hdr sr now true true i s o mix free))
  = mkMixBus (leftSample (documentedPanMix envelopedSample (1 / 2) mix))
             (rightSample (documentedPanMix envelopedSample (1 / 2) mix))
             (activeOscCount mix + 1).
Proof.
  intros Hactive. unfold processSlot. rewrite Hactive. reflexivity.
Qed.

Lemma sin_quarter_turn : sin (1 / 4 * Juce.twoPi) = 1.
Proof.
  unfold Juce.twoPi. replace (1 / 4 * (2 * PI)) with (PI / 2) by field.
  apply sin_PI2.
Qed.

End MixFacts.

(** ** Floors *)

Lemma floorZ_spec (r : R) (z : Z) :
  (IZR z <= r < IZR z + 1)%R -> Juce.floorZ r = z.
Proof.
  intros Hr. unfold Juce.floorZ. symmetry. apply Int_part_spec. lra.
Qed.

(** ** Frequencies and influence *)

(** The frequency of the bottom row is the lower end of the range. *)
Lemma canvasYToFrequency_bottom (e : PaintEngine) :
  (0 < minFrequency e)%R ->
  canvasYToFrequency e (canvasBottom e) = minFrequency e.
Proof.
  intros Hpos. unfold canvasYToFrequency.
  replace ((canvasBottom e - canvasBottom e) / (canvasTop e - canvasBottom e))%R
    with 0%R by (unfold Rdiv; rewrite Rminus_diag, Rmult_0_l; reflexivity).
  rewrite jlimit_inside by lra.
  destruct (useLogFrequencyScale e).
  - rewrite Rmult_0_l, Rplus_0_r. apply exp_ln. assumption.
  - ring.
Qed.

(** For a pressure in [0, 1] the final clamp of [calculateInfluence] is
    idle: the weight is the Gaussian falloff scaled by the pressure. *)
Lemma calculateInfluence_gaussian (hdr : Header) (distance pressure_ : R) :
  (0 <= pressure_ <= 1)%R ->
  calculateInfluence hdr distance pressure_
  = (pressure_
     * exp (- ((distance / INFLUENCE_RADIUS hdr)
               * (distance / INFLUENCE_RADIUS hdr))))%R.
Proof.
  intros Hp. unfold calculateInfluence.
  set (nd := (distance / INFLUENCE_RADIUS hdr)%R).
  replace (- nd * nd)%R with (- (nd * nd))%R by ring.
  apply jlimit_inside.
  assert (Hexp : (0 < exp (- (nd * nd)) <= 1)%R).
  { split; [apply exp_pos |].
    rewrite <- exp_0. apply exp_le. nra. }
  nra.
Qed.

(** Below the threshold 0.01 the update is a no-op. *)
Lemma updateOscillatorWithInfluence_below_threshold (hdr : Header)
  (index : Z) (newPoint : StrokePoint) (params : AudioParams.t) (now : R)
  (e : PaintEngine) :
  (calculateInfluence hdr (calculateDistance e index (position newPoint))
     (pressure newPoint) < 1 / 100)%R ->
  updateOscillatorWithInfluence hdr index newPoint params now e = e.
Proof.
  intros Hlow. unfold updateOscillatorWithInfluence.
  destruct (negb (indexInRange hdr index)); [reflexivity |].
  destruct (negb (EnhancedOscillatorState.isActive _)); [reflexivity |].
  destruct (Rlt_dec _ _) as [_ | Hge]; [reflexivity | contradiction].
Qed.

(** What [updateOscillatorWithInfluence] leaves in the slot: its state is
    as before, or it is the blend at a weight of at least 0.01. *)
Lemma updateOscillatorWithInfluence_state (hdr : Header) (index : Z)
  (newPoint : StrokePoint) (params : AudioParams.t) (now : R)
  (e : PaintEngine) :
  let e' := updateOscillatorWithInfluence hdr index newPoint params now e in
  let influence :=
    calculateInfluence hdr (calculateDistance e index (position newPoint))
      (pressure newPoint) in
  stateAt index e' = stateAt index e
  \/ ((1 / 100 <= influence)%R
      /\ EnhancedOscillatorState.isActive (stateAt index e) = true
      /\ stateAt index e'
         = EnhancedOscillatorState.withLastUsedTime now
             (blendTargets influence params (stateAt index e))).
Proof.
  cbv zeta. unfold updateOscillatorWithInfluence, stateAt.
  destruct (negb (indexInRange hdr index)); [left; reflexivity |].
  destruct (EnhancedOscillatorState.isActive
              (nth (Z.to_nat index) (oscillatorStates e)
                 EnhancedOscillatorState.initial)) eqn:Hact;
    [| left; reflexivity].
  cbn [negb].
  destruct (Rlt_dec _ _) as [Hlt | Hge]; [left; reflexivity |].
  cbn [oscillatorStates set_oscillatorStates]. rewrite setPool_states.
  destruct (Nat.lt_ge_cases (Z.to_nat index) (length (oscillatorStates e)))
    as [Hin | Hout].
  - right. rewrite nth_updateAt_same by assumption.
    split; [lra |]. split; reflexivity.
  - left. rewrite updateAt_out_of_range by assumption. reflexivity.
Qed.

Lemma getPool_setPool (i : Z) (v : list Oscillator.t) (e : PaintEngine) :
  getPool i (setPool i v e) = v.
Proof. unfold getPool, setPool. destruct (i =? 0)%Z; reflexivity. Qed.

(** The same for the slot's oscillator in the back buffer. *)
Lemma updateOscillatorWithInfluence_oscillator (hdr : Header) (index : Z)
  (newPoint : StrokePoint) (params : AudioParams.t) (now : R)
  (e : PaintEngine) (d : Oscillator.t) :
  let e' := updateOscillatorWithInfluence hdr index newPoint params now e in
  let influence :=
    calculateInfluence hdr (calculateDistance e index (position newPoint))
      (pressure newPoint) in
  nth (Z.to_nat index) (getBackBuffer e') d
  = nth (Z.to_nat index) (getBackBuffer e) d
  \/ Oscillator.frequency (nth (Z.to_nat index) (getBackBuffer e') d)
     = EnhancedOscillatorState.targetFrequency
         (blendTargets influence params (stateAt index e)).
Proof.
  cbv zeta. unfold updateOscillatorWithInfluence.
  destruct (negb (indexInRange hdr index)); [left; reflexivity |].
  fold (stateAt index e).
  destruct (negb (EnhancedOscillatorState.isActive (stateAt index e)));
    [left; reflexivity |].
  destruct (Rlt_dec _ _) as [Hlt | Hge]; [left; reflexivity |].
  match goal with
  | |- context [set_oscillatorStates ?v (setPool ?i ?p e)] =>
      change (getBackBuffer (set_oscillatorStates v (setPool i p e)))
        with (getPool (backBufferIndex (setPool i p e)) (setPool i p e))
  end.
  replace (backBufferIndex (setPool (backBufferIndex e) _ e))
    with (backBufferIndex e)
    by (unfold setPool; destruct (backBufferIndex e =? 0)%Z; reflexivity).
  rewrite getPool_setPool.
  destruct (Nat.lt_ge_cases (Z.to_nat index) (length (getBackBuffer e)))
    as [Hin | Hout].
  - right. rewrite nth_updateAt_same by assumption. reflexivity.
  - left. rewrite updateAt_out_of_range by assumption. reflexivity.
Qed.

(** ** Resetting the pools *)

Lemma map_constant_twice {A B : Type} (b : B) (l : list A) :
  map (fun _ : B => b) (map (fun _ : A => b) l) = map (fun _ : A => b) l.
Proof. induction l as [| a l IH]; simpl; [reflexivity | rewrite IH; reflexivity]. Qed.

Lemma Forall_map_constant {A B : Type} (b : B) (l : list A) :
  Forall (fun o => o = b) (map (fun _ : A => b) l).
Proof. induction l as [| a l IH]; simpl; constructor; auto. Qed.


(** ** Voice stealing *)

Section Stealing.
Local Open Scope Z_scope.

Local Abbreviation State := EnhancedOscillatorState.t.
Local Abbreviation initialState := EnhancedOscillatorState.initial.
Local Abbreviation stamp := EnhancedOscillatorState.lastUsedTime.

(** With a slot in Release or Inactive, the scan stops at the first one. *)
Lemma findBestLoop_first_releasing (states : list State) :
  forall (i oldestIndex : Z) (oldestTime : R) (j : nat),
    (j < length states)%nat ->
    releasing (nth j states initialState) = true ->
    (forall k, (k < j)%nat -> releasing (nth k states initialState) = false) ->
    findBestLoop states i oldestIndex oldestTime = i + Z.of_nat j.
Proof.
  induction states as [| s states IH]; intros i oi ot j Hj Hrel Hfirst;
    simpl in Hj; [lia |].
  cbn [findBestLoop]. fold (releasing s).
  destruct j as [| j].
  - simpl in Hrel. rewrite Hrel. lia.
  - pose proof (Hfirst 0%nat ltac:(lia)) as Hhead. simpl in Hhead.
    rewrite Hhead.
    assert (Hrest : forall oi' ot',
              findBestLoop states (i + 1) oi' ot' = i + Z.of_nat (S j)).
    { intros oi' ot'. rewrite (IH (i + 1) oi' ot' j); try lia.
      - exact Hrel.
      - intros k Hk. apply (Hfirst (S k)). lia. }
    destruct (Rlt_dec (stamp s) ot); apply Hrest.
Qed.

(** Without such a slot, the scan keeps the running minimum: it returns
    the index it was given when no stamp is below the given time, and the
    first slot of least stamp otherwise. *)
Lemma findBestLoop_oldest (states : list State) :
  forall (i oldestIndex : Z) (oldestTime : R),
    (forall k, (k < length states)%nat ->
               releasing (nth k states initialState) = false) ->
    (findBestLoop states i oldestIndex oldestTime = oldestIndex
     /\ forall k, (k < length states)%nat ->
                  (oldestTime <= stamp (nth k states initialState))%R)
    \/ (exists j,
          (j < length states)%nat
          /\ findBestLoop states i oldestIndex oldestTime = i + Z.of_nat j
          /\ (stamp (nth j states initialState) < oldestTime)%R
          /\ (forall k, (k < length states)%nat ->
                (stamp (nth j states initialState)
                 <= stamp (nth k states initialState))%R)
          /\ (forall k, (k < j)%nat ->
                (stamp (nth j states initialState)
                 < stamp (nth k states initialState))%R)).
Proof.
  induction states as [| s states IH]; intros i oi ot Hnone.
  - left. split; [reflexivity | simpl; intros k Hk; lia].
  - cbn [findBestLoop]. fold (releasing s).
    pose proof (Hnone 0%nat ltac:(simpl; lia)) as Hhead. simpl in Hhead.
    rewrite Hhead.
    assert (Hrest : forall k, (k < length states)%nat ->
                      releasing (nth k states initialState) = false).
    { intros k Hk. apply (Hnone (S k)). simpl. lia. }
    destruct (Rlt_dec (stamp s) ot) as [Hlt | Hge].
    + destruct (IH (i + 1) i (stamp s) Hrest)
        as [[Heq Hall] | (j & Hj & Heq & Hlow & Hmin & Hstrict)].
      * right. exists 0%nat. simpl.
        split; [lia |]. split; [rewrite Heq; lia |]. split; [exact Hlt |].
        split; [| intros k Hk; lia].
        intros [| k] Hk; [lra | apply Hall; lia].
      * right. exists (S j). simpl.
        split; [lia |]. split; [rewrite Heq; lia |]. split; [lra |].
        split; [intros [| k] Hk; [lra | apply Hmin; lia] |].
        intros [| k] Hk; [lra | apply Hstrict; lia].
    + destruct (IH (i + 1) oi ot Hrest)
        as [[Heq Hall] | (j & Hj & Heq & Hlow & Hmin & Hstrict)].
      * left. split; [exact Heq |].
        intros [| k] Hk; simpl; [lra | apply Hall; simpl in Hk; lia].
      * right. exists (S j). simpl.
        split; [lia |]. split; [rewrite Heq; lia |]. split; [exact Hlow |].
        split; [intros [| k] Hk; [lra | apply Hmin; lia] |].
        intros [| k] Hk; [lra | apply Hstrict; lia].
Qed.

End Stealing.

Lemma FLT_MAX_positive : (0 < Juce.FLT_MAX)%R.
Proof. pose proof FLT_MAX_large. lra. Qed.

(** ** Release and reclaim *)

Section Reclaim.

Variable hdr : Header.

Local Open Scope Z_scope.

Local Abbreviation State := EnhancedOscillatorState.t.
Local Abbreviation initialState := EnhancedOscillatorState.initial.
Local Abbreviation N := (MAX_OSCILLATORS hdr).

Lemma reclaimedFrom_existsb (states : list State) (i : Z) :
  0 <= i < Z.of_nat (length states) ->
  existsb (Z.eqb i) (reclaimedFrom 0 states)
  = reclaimable (nth (Z.to_nat i) states initialState).
Proof.
  intros Hi. apply eq_true_iff_eq.
  rewrite existsb_exists. split.
  - intros (k & Hk & Heq). apply Z.eqb_eq in Heq. subst k.
    apply reclaimedFrom_In in Hk as (j & _ & Hij & Hrec).
    replace (Z.to_nat i) with j by lia. exact Hrec.
  - intros Hrec. exists i. split; [| apply Z.eqb_refl].
    apply reclaimedFrom_In. exists (Z.to_nat i).
    split; [lia |]. split; [lia | exact Hrec].
Qed.

(** One pass, seen from slot [i]. *)
Lemma samplePass_slot (stereo : bool) (sample : Z) (now : R)
  (e : PaintEngine) (i : Z) :
  engineInvariant hdr e -> 0 <= i < Z.of_nat N ->
  let e1 := fst (samplePass hdr stereo sample now e) in
  stateAt i e1 = stateAfterPass hdr (sampleRate e) now (stateAt i e)
  /\ onFreeList i e1 = onFreeList i e || reclaimable (stateAt i e).
Proof.
  intros Hinv Hi. cbv zeta.
  destruct (samplePass_effect hdr stereo sample now e Hinv)
    as (Hs & Hf & _).
  pose proof Hinv as (Hlen & _).
  unfold stateAt, onFreeList. rewrite Hs, Hf. split.
  - rewrite (nth_indep _ initialState
               (stateAfterPass hdr (sampleRate e) now initialState))
      by (rewrite length_map; lia).
    apply map_nth.
  - rewrite existsb_app, reclaimedFrom_existsb by lia. reflexivity.
Qed.

(** A slot in use whose envelope reaches Inactive during a pass keeps its
    index through that pass and gives it back during the next one. *)
Lemma decayed_slot_reclaimed_by_next_pass (stereo stereo' : bool)
  (sample sample' : Z) (now now' : R) (e : PaintEngine) (i : Z) :
  engineInvariant hdr e -> 0 <= i < Z.of_nat N ->
  EnhancedOscillatorState.isActive (stateAt i e) = true ->
  slotInUse i e = true ->
  fst (envelopeStep hdr (sampleRate e)
         (EnhancedOscillatorState.envelopePhase (stateAt i e))
         (EnhancedOscillatorState.envelopeValue (stateAt i e))) = Inactive ->
  let e1 := fst (samplePass hdr stereo sample now e) in
  let e2 := fst (samplePass hdr stereo' sample' now' e1) in
  EnhancedOscillatorState.envelopePhase (stateAt i e1) = Inactive
  /\ slotInUse i e1 = true
  /\ onFreeList i e1 = false
  /\ slotInUse i e2 = false
  /\ onFreeList i e2 = true.
Proof.
  intros Hinv Hi Hactive Hused Hstep. cbv zeta.
  destruct (samplePass_slot stereo sample now e i Hinv Hi) as [Hs1 Hf1].
  pose proof (engineInvariant_samplePass hdr stereo sample now e Hinv) as Hinv1.
  destruct (samplePass_slot stereo' sample' now'
              (fst (samplePass hdr stereo sample now e)) i Hinv1 Hi)
    as [Hs2 Hf2].
  pose proof (engineInvariant_partitioned hdr e Hinv i Hi) as Hpart.
  rewrite Hused in Hpart.
  assert (Hfree : onFreeList i e = false)
    by (destruct (onFreeList i e); [discriminate | reflexivity]).
  assert (Hnot : reclaimable (stateAt i e) = false)
    by (unfold reclaimable; rewrite Hactive; reflexivity).
  assert (Hphase1 :
    EnhancedOscillatorState.envelopePhase
      (stateAt i (fst (samplePass hdr stereo sample now e))) = Inactive).
  { rewrite Hs1. unfold stateAfterPass. rewrite Hactive. exact Hstep. }
  assert (Hused1 : slotInUse i (fst (samplePass hdr stereo sample now e)) = true).
  { unfold slotInUse in *. rewrite Hs1, stateAfterPass_inUse, Hused, Hnot.
    reflexivity. }
  assert (Hrec1 :
    reclaimable (stateAt i (fst (samplePass hdr stereo sample now e))) = true)
    by (apply reclaimable_spec; split; assumption).
  repeat split.
  - exact Hphase1.
  - exact Hused1.
  - rewrite Hf1, Hfree, Hnot. reflexivity.
  - unfold slotInUse in *. rewrite Hs2, stateAfterPass_inUse, Hrec1.
    apply andb_false_r.
  - rewrite Hf2, Hrec1. apply orb_true_r.
Qed.

Lemma releaseOscillator_effect (index : Z) (e : PaintEngine) :
  freeOscillatorIndices (releaseOscillator hdr index e)
  = freeOscillatorIndices e
  /\ (forall i, slotInUse i (releaseOscillator hdr index e) = slotInUse i e)
  /\ (forall i, 0 <= i -> i <> index ->
        stateAt i (releaseOscillator hdr index e) = stateAt i e)
  /\ (0 <= index < Z.of_nat N ->
      (Z.to_nat index < length (oscillatorStates e))%nat ->
      stateAt index (releaseOscillator hdr index e)
      = EnhancedOscillatorState.release (stateAt index e)).
Proof.
  unfold releaseOscillator, slotInUse, stateAt.
  destruct (indexInRange hdr index) eqn:Hr; cbn [negb].
  - cbn [freeOscillatorIndices oscillatorStates set_oscillatorStates].
    apply indexInRange_spec in Hr.
    split; [reflexivity |]. split; [| split].
    + intros i. apply updateAt_same_inUse. reflexivity.
    + intros i Hi Hne. apply nth_updateAt_other. lia.
    + intros _ Hlt. apply nth_updateAt_same. exact Hlt.
  - split; [reflexivity |]. split; [reflexivity |]. split; [reflexivity |].
    intros Hi. apply indexInRange_spec in Hi. congruence.
Qed.

(** The bookkeeping after a block is that of its sample loop. *)
Lemma processBlock_bookkeeping (numSamples : nat) (stereo : bool)
  (clock : Z -> R) (e : PaintEngine) :
  isActive e = true ->
  let looped :=
    fst (sampleLoop hdr stereo clock numSamples 0 (swapBuffersIfPending e)) in
  oscillatorStates (fst (processBlock hdr numSamples stereo clock e))
  = oscillatorStates looped
  /\ freeOscillatorIndices (fst (processBlock hdr numSamples stereo clock e))
     = freeOscillatorIndices looped.
Proof.
  intros Hon. cbv zeta. unfold processBlock, updateCanvasOscillators.
  rewrite Hon. cbn [negb].
  destruct (sampleLoop hdr stereo clock numSamples 0 (swapBuffersIfPending e))
    as [e3 frames].
  cbn [fst].
  destruct (Z.rem _ 100 =? 0); [| split; reflexivity].
  unfold optimizeOscillatorPool, requestBufferSwap.
  destruct (bufferSwapPending _);
    cbn [oscillatorStates freeOscillatorIndices set_bufferSwapPending];
    rewrite setPool_states, setPool_free; split; reflexivity.
Qed.

Lemma processBlock_slot (numSamples : nat) (stereo : bool)
  (clock : Z -> R) (e : PaintEngine) (i : Z) :
  isActive e = true ->
  let looped :=
    fst (sampleLoop hdr stereo clock numSamples 0 (swapBuffersIfPending e)) in
  slotInUse i (fst (processBlock hdr numSamples stereo clock e))
  = slotInUse i looped
  /\ onFreeList i (fst (processBlock hdr numSamples stereo clock e))
     = onFreeList i looped.
Proof.
  intros Hon. cbv zeta.
  destruct (processBlock_bookkeeping numSamples stereo clock e Hon) as [Hs Hf].
  unfold slotInUse, stateAt, onFreeList. rewrite Hs, Hf. split; reflexivity.
Qed.

End Reclaim.

Lemma reclaimable_unfolded (s : EnhancedOscillatorState.t) :
  reclaimable s
  = EnvelopePhase_eqb (EnhancedOscillatorState.envelopePhase s) Inactive
    && EnhancedOscillatorState.inUse s.
Proof.
  unfold reclaimable, EnhancedOscillatorState.isActive.
  destruct (EnhancedOscillatorState.envelopePhase s),
           (EnhancedOscillatorState.inUse s); reflexivity.
Qed.

(** The released voice of the two-slot engine: its envelope is at 0 in
    Release, and one sample of the quarter-second release takes it below
    the threshold. *)
Lemma released_voice_decays :
  EnhancedOscillatorState.isActive (stateAt 1 studioReleasedVoice) = true
  /\ slotInUse 1 studioReleasedVoice = true
  /\ fst (envelopeStep studioHeader (sampleRate studioReleasedVoice)
            (EnhancedOscillatorState.envelopePhase
               (stateAt 1 studioReleasedVoice))
            (EnhancedOscillatorState.envelopeValue
               (stateAt 1 studioReleasedVoice))) = Inactive.
Proof.
  split; [reflexivity |]. split; [reflexivity |].
  change (fst (linearEnvelope 4 4 4 Release 0) = Inactive).
  unfold linearEnvelope.
  destruct (Rlt_dec (0 - 4 / 4) (1 / 1000)) as [Hlt | Hge];
    [reflexivity | exfalso; lra].
Qed.

Lemma studioReleasedVoice_invariant :
  engineInvariant studioHeader studioReleasedVoice.
Proof. apply engineInvariant_run, engineInvariant_new. Qed.

Lemma studio_block_of_two (e : PaintEngine) :
  bufferSwapPending e = false ->
  fst (sampleLoop studioHeader true (fun _ : Z => 0%R) 2 0
         (swapBuffersIfPending e))
  = fst (samplePass studioHeader true 1 0
           (fst (samplePass studioHeader true 0 0 e))).
Proof.
  intros Hpending. unfold swapBuffersIfPending. rewrite Hpending.
  cbn [sampleLoop].
  destruct (samplePass studioHeader true 0 0 e) as [e1 frame1]. cbn [fst].
  change (0 + 1)%Z with 1%Z.
  destruct (samplePass studioHeader true 1 0 e1) as [e2 frame2].
  reflexivity.
Qed.

(** ** Time stamps stay finite *)

Section Stamps.

Variable hdr : Header.

Local Open Scope Z_scope.

Local Abbreviation State := EnhancedOscillatorState.t.
Local Abbreviation stamp := EnhancedOscillatorState.lastUsedTime.

Lemma Forall_updateAt {A : Type} (P : A -> Prop) (f : A -> A) (i : nat)
  (v : list A) :
  (forall a, P a -> P (f a)) -> Forall P v -> Forall P (updateAt i f v).
Proof.
  intros Hf. revert i. induction v as [| a v IH]; intros [| i] Hall; simpl;
    inversion Hall; subst; constructor; auto.
Qed.

Lemma stampsFinite_frame (e e' : PaintEngine) :
  oscillatorStates e' = oscillatorStates e ->
  stampsFinite e -> stampsFinite e'.
Proof. unfold stampsFinite. intros ->. auto. Qed.

Lemma stampsFinite_new : stampsFinite (PaintEngine_new hdr).
Proof.
  unfold stampsFinite. cbn. apply Forall_forall. intros s Hs.
  apply repeat_spec in Hs. subst. cbn. apply FLT_MAX_positive.
Qed.

Lemma stampsFinite_activateOscillator (index : Z) (params : AudioParams.t)
  (now : R) (e : PaintEngine) :
  (now < Juce.FLT_MAX)%R -> stampsFinite e ->
  stampsFinite (activateOscillator hdr index params now e).
Proof.
  intros Hnow Hfin. unfold activateOscillator.
  destruct (negb (indexInRange hdr index)); [assumption |].
  unfold stampsFinite. rewrite setPool_states.
  cbn [oscillatorStates set_oscillatorStates].
  apply Forall_updateAt; [| exact Hfin]. intros s _. exact Hnow.
Qed.

Lemma stampsFinite_allocateAndActivate (params : AudioParams.t) (now : R)
  (e : PaintEngine) :
  (now < Juce.FLT_MAX)%R -> stampsFinite e ->
  stampsFinite (allocateAndActivate hdr params now e).
Proof.
  intros Hnow Hfin. unfold allocateAndActivate, allocateOscillator.
  destruct (freeOscillatorIndices e) as [| a l].
  - destruct (_ >=? 0); [| assumption].
    apply stampsFinite_activateOscillator; assumption.
  - destruct (_ >=? 0).
    + apply stampsFinite_activateOscillator; assumption.
    + exact Hfin.
Qed.

Lemma stampsFinite_updateOscillatorWithInfluence (index : Z)
  (newPoint : StrokePoint) (params : AudioParams.t) (now : R)
  (e : PaintEngine) :
  (now < Juce.FLT_MAX)%R -> stampsFinite e ->
  stampsFinite (updateOscillatorWithInfluence hdr index newPoint params now e).
Proof.
  intros Hnow Hfin. unfold updateOscillatorWithInfluence.
  destruct (negb (indexInRange hdr index)); [assumption |].
  destruct (negb (EnhancedOscillatorState.isActive _)); [assumption |].
  destruct (Rlt_dec _ _); [assumption |].
  unfold stampsFinite. cbn [oscillatorStates set_oscillatorStates].
  rewrite setPool_states.
  apply Forall_updateAt; [| exact Hfin]. intros s _. exact Hnow.
Qed.

Lemma stampsFinite_updateOscillatorsIncremental (newPoint : StrokePoint)
  (nearby : list Z) (now : R) (e : PaintEngine) :
  (now < Juce.FLT_MAX)%R -> stampsFinite e ->
  stampsFinite (updateOscillatorsIncremental hdr newPoint nearby now e).
Proof.
  intros Hnow Hfin. unfold updateOscillatorsIncremental.
  destruct (_ || _).
  - apply stampsFinite_allocateAndActivate; assumption.
  - generalize (strokePointToAudioParams hdr e newPoint). intros params.
    revert e Hfin. induction nearby as [| i nearby IH]; intros e Hfin; simpl;
      [assumption |].
    apply IH, stampsFinite_updateOscillatorWithInfluence; assumption.
Qed.

Lemma stampsFinite_samplePass (stereo : bool) (sample : Z) (now : R)
  (e : PaintEngine) :
  (now < Juce.FLT_MAX)%R -> engineInvariant hdr e -> stampsFinite e ->
  stampsFinite (fst (samplePass hdr stereo sample now e)).
Proof.
  intros Hnow Hinv Hfin.
  destruct (samplePass_effect hdr stereo sample now e Hinv) as (Hs & _).
  unfold stampsFinite in *. rewrite Hs. apply Forall_map.
  revert Hfin. apply Forall_impl. intros s Hs'.
  unfold stateAfterPass.
  destruct (EnhancedOscillatorState.isActive s); [exact Hnow |].
  destruct (reclaimable s); exact Hs'.
Qed.

Lemma stampsFinite_sampleLoop (stereo : bool) (clock : Z -> R)
  (remaining : nat) :
  (forall k, (clock k < Juce.FLT_MAX)%R) ->
  forall (sample : Z) (e : PaintEngine),
    engineInvariant hdr e -> stampsFinite e ->
    stampsFinite (fst (sampleLoop hdr stereo clock remaining sample e)).
Proof.
  intros Hclock.
  induction remaining as [| remaining IH]; intros sample e Hinv Hfin; simpl;
    [assumption |].
  pose proof (engineInvariant_samplePass hdr stereo sample (clock sample) e Hinv)
    as Hinv1.
  pose proof (stampsFinite_samplePass stereo sample (clock sample) e
                (Hclock sample) Hinv Hfin) as Hfin1.
  destruct (samplePass hdr stereo sample (clock sample) e) as [e1 frame].
  specialize (IH (sample + 1) e1 Hinv1 Hfin1).
  destruct (sampleLoop hdr stereo clock remaining (sample + 1) e1)
    as [e2 frames].
  exact IH.
Qed.

Lemma stampsFinite_processBlock (numSamples : nat) (stereo : bool)
  (clock : Z -> R) (e : PaintEngine) :
  (forall k, (clock k < Juce.FLT_MAX)%R) ->
  engineInvariant hdr e -> stampsFinite e ->
  stampsFinite (fst (processBlock hdr numSamples stereo clock e)).
Proof.
  intros Hclock Hinv Hfin.
  destruct (isActive e) eqn:Hon.
  - destruct (processBlock_bookkeeping hdr numSamples stereo clock e Hon)
      as [Hs _].
    unfold stampsFinite. rewrite Hs.
    apply stampsFinite_sampleLoop; try assumption.
    + apply engineInvariant_swapBuffersIfPending. assumption.
    + revert Hfin. apply stampsFinite_frame.
      unfold swapBuffersIfPending. destruct (bufferSwapPending e); reflexivity.
  - unfold processBlock. rewrite Hon. exact Hfin.
Qed.

Lemma stampsFinite_endStroke (e : PaintEngine) :
  stampsFinite e -> stampsFinite (endStroke hdr e).
Proof.
  unfold endStroke.
  destruct (currentStroke e) as [stroke |]; [| auto].
  destruct (points (Stroke_finalize stroke)) as [| point rest].
  - apply stampsFinite_frame; reflexivity.
  - unfold getOrCreateRegion.
    destruct (findRegion _ _); apply stampsFinite_frame; reflexivity.
Qed.

Lemma stampsFinite_beginStroke (position_ : Point) (pressure_ : R)
  (color_ : Juce.Colour) (e : PaintEngine) :
  stampsFinite e -> stampsFinite (beginStroke hdr position_ pressure_ color_ e).
Proof.
  intros Hfin. unfold beginStroke.
  match goal with
  | |- stampsFinite (set_currentStroke _ (set_nextStrokeId _ ?e1)) =>
      assert (H1 : stampsFinite e1)
  end.
  { destruct (currentStroke e); [apply stampsFinite_endStroke |]; assumption. }
  revert H1. apply stampsFinite_frame; reflexivity.
Qed.

Lemma stampsFinite_applyCall (c : Call) (e : PaintEngine) :
  finiteStamps c -> engineInvariant hdr e -> stampsFinite e ->
  stampsFinite (applyCall hdr c e).
Proof.
  intros Hc Hinv Hfin. destruct c; simpl in *.
  - apply stampsFinite_beginStroke; assumption.
  - unfold updateStroke. destruct (currentStroke e).
    + apply stampsFinite_updateOscillatorsIncremental; [assumption |].
      revert Hfin. apply stampsFinite_frame; reflexivity.
    + apply stampsFinite_beginStroke; assumption.
  - apply stampsFinite_endStroke; assumption.
  - revert Hfin. apply stampsFinite_frame; reflexivity.
  - apply stampsFinite_updateOscillatorsIncremental; assumption.
  - apply stampsFinite_allocateAndActivate; assumption.
  - apply stampsFinite_updateOscillatorWithInfluence; assumption.
  - unfold releaseOscillator.
    destruct (negb (indexInRange hdr index)); [assumption |].
    unfold stampsFinite. cbn [oscillatorStates set_oscillatorStates].
    apply Forall_updateAt; [| exact Hfin]. intros s Hs. exact Hs.
  - apply stampsFinite_samplePass; assumption.
  - apply stampsFinite_processBlock; assumption.
  - revert Hfin. apply stampsFinite_frame; reflexivity.
  - revert Hfin. apply stampsFinite_frame; reflexivity.
  - revert Hfin. apply stampsFinite_frame.
    unfold clearCanvas, requestBufferSwap.
    destruct (bufferSwapPending _);
      cbn [oscillatorStates set_bufferSwapPending set_activeOscillators];
      rewrite setPool_states; reflexivity.
  - revert Hfin. apply stampsFinite_frame; reflexivity.
  - revert Hfin. apply stampsFinite_frame; reflexivity.
  - revert Hfin. apply stampsFinite_frame; reflexivity.
Qed.

(** Every state reached through calls whose clock readings are finite is a
    well-formed pool. *)
Lemma poolWellFormed_run (calls : list Call) :
  Forall finiteStamps calls ->
  poolWellFormed hdr (run hdr calls (PaintEngine_new hdr)).
Proof.
  intros Hcalls.
  assert (Hboth : engineInvariant hdr (run hdr calls (PaintEngine_new hdr))
                  /\ stampsFinite (run hdr calls (PaintEngine_new hdr))).
  { unfold run.
    generalize (engineInvariant_new hdr) (stampsFinite_new).
    generalize (PaintEngine_new hdr).
    induction Hcalls as [| c calls Hc Hcalls IH]; intros e Hinv Hfin; simpl;
      [split; assumption |].
    apply IH.
    - apply engineInvariant_applyCall. assumption.
    - apply stampsFinite_applyCall; assumption. }
  destruct Hboth as [(Hlen & _ & _ & _ & _ & Hrange & _) Hfin].
  split; [exact Hlen |]. split; [apply Forall_forall; exact Hrange |].
  exact Hfin.
Qed.

End Stamps.

(** * Further properties of the engine *)

(** ** Oscillators *)



(** X2, bounded samples.  The sample of an oscillator is never larger in
    magnitude than its amplitude. *)
Theorem getSample_bounded (o : Oscillator.t) :
  (Rabs (Oscillator.getSample o) <= Rabs (Oscillator.amplitude o))%R.
Proof.
  unfold Oscillator.getSample. rewrite Rabs_mult.
  pose proof (SIN_bound (Oscillator.phase o * Juce.twoPi)) as [Hlow Hhigh].
  assert (Hsin : (Rabs (sin (Oscillator.phase o * Juce.twoPi)) <= 1)%R)
    by (apply Rabs_le; lra).
  pose proof (Rabs_pos (Oscillator.amplitude o)). nra.
Qed.

(** ** Coordinate mapping *)

Section MappingLaws.
Local Open Scope R_scope.

Lemma jlimit_monotone (lo hi a b : R) :
  lo <= hi -> a <= b -> Juce.jlimit lo hi a <= Juce.jlimit lo hi b.
Proof.
  intros Hle Hab. unfold Juce.jlimit.
  destruct (Rlt_dec a lo); destruct (Rlt_dec b lo);
    destruct (Rlt_dec hi a); destruct (Rlt_dec hi b); lra.
Qed.

Lemma normalized_in_unit (lo hi v : R) :
  lo < hi -> lo <= v <= hi -> 0 <= (v - lo) / (hi - lo) <= 1.
Proof.
  intros Hlt Hv. split.
  - apply Rmult_le_pos; [lra |]. left. apply Rinv_0_lt_compat. lra.
  - apply Rmult_le_reg_r with (hi - lo); [lra |].
    unfold Rdiv. rewrite Rmult_assoc, Rinv_l by lra. lra.
Qed.

(** X3, time axis.  On a canvas of positive width, [canvasXToTime] returns
    a time in [0, 1]; [timeToCanvasX] returns a column of the canvas;
    a column of the canvas is mapped to its time and back to itself; and a
    time is mapped to its column and back to the time clamped to [0, 1]. *)
Theorem time_axis_round_trip (e : PaintEngine) (x time : R) :
  canvasLeft e < canvasRight e ->
  0 <= canvasXToTime e x <= 1
  /\ canvasLeft e <= timeToCanvasX e time <= canvasRight e
  /\ (canvasLeft e <= x <= canvasRight e ->
      timeToCanvasX e (canvasXToTime e x) = x)
  /\ canvasXToTime e (timeToCanvasX e time) = Juce.jlimit 0 1 time.
Proof.
  intros Hwidth.
  pose proof (jlimit_bounds 0 1 time ltac:(lra)) as Ht.
  refine (conj _ (conj _ (conj _ _))).
  - unfold canvasXToTime. apply jlimit_bounds. lra.
  - unfold timeToCanvasX. nra.
  - intros Hx. unfold timeToCanvasX, canvasXToTime.
    pose proof (normalized_in_unit _ _ x Hwidth Hx) as Hn.
    rewrite (jlimit_inside 0 1 _ Hn), (jlimit_inside 0 1 _ Hn).
    field. lra.
  - unfold canvasXToTime, timeToCanvasX.
    replace ((canvasLeft e + Juce.jlimit 0 1 time * (canvasRight e - canvasLeft e)
              - canvasLeft e) / (canvasRight e - canvasLeft e))
      with (Juce.jlimit 0 1 time) by (field; lra).
    apply jlimit_inside. exact Ht.
Qed.

Lemma time_axis_round_trip_witness :
  canvasLeft (PaintEngine_new studioHeader)
  < canvasRight (PaintEngine_new studioHeader)
  /\ canvasXToTime (PaintEngine_new studioHeader)
       (timeToCanvasX (PaintEngine_new studioHeader) 3)
     = Juce.jlimit 0 1 3.
Proof.
  assert (H : canvasLeft (PaintEngine_new studioHeader)
              < canvasRight (PaintEngine_new studioHeader)) by (cbn; lra).
  split; [exact H |].
  exact (proj2 (proj2 (proj2
           (time_axis_round_trip (PaintEngine_new studioHeader) 0 3 H)))).
Defined.

(** X4, frequency axis, from frequency to row and back.  For a proper
    frequency range and a canvas of positive height, [frequencyToCanvasY]
    returns a row of the canvas, and the frequency of that row is the
    requested frequency clamped to the range, on the logarithmic and on the
    linear scale. *)
Theorem frequency_round_trip (e : PaintEngine) (frequency : R) :
  0 < minFrequency e < maxFrequency e ->
  canvasBottom e < canvasTop e ->
  canvasBottom e <= frequencyToCanvasY e frequency <= canvasTop e
  /\ canvasYToFrequency e (frequencyToCanvasY e frequency)
     = Juce.jlimit (minFrequency e) (maxFrequency e) frequency.
Proof.
  intros [Hpos Hlt] Hcanvas.
  pose proof (jlimit_bounds (minFrequency e) (maxFrequency e) frequency
                ltac:(lra)) as Hf.
  unfold canvasYToFrequency, frequencyToCanvasY.
  set (clamped := Juce.jlimit (minFrequency e) (maxFrequency e) frequency) in *.
  assert (Hln : ln (minFrequency e) < ln (maxFrequency e))
    by (apply ln_increasing; assumption).
  assert (Hlnf : ln (minFrequency e) <= ln clamped <= ln (maxFrequency e)).
  { split.
    - destruct (proj1 Hf) as [Hs | Hs];
        [left; apply ln_increasing; assumption | rewrite Hs; lra].
    - destruct (proj2 Hf) as [Hs | Hs];
        [left; apply ln_increasing; lra | rewrite Hs; lra]. }
  destruct (useLogFrequencyScale e).
  - pose proof (normalized_in_unit _ _ _ Hln Hlnf) as Hn.
    set (n := (ln clamped - ln (minFrequency e))
              / (ln (maxFrequency e) - ln (minFrequency e))) in *.
    split; [nra |].
    replace ((canvasBottom e + n * (canvasTop e - canvasBottom e) - canvasBottom e)
             / (canvasTop e - canvasBottom e)) with n by (field; lra).
    rewrite (jlimit_inside 0 1 n Hn).
    replace (ln (minFrequency e)
             + n * (ln (maxFrequency e) - ln (minFrequency e)))
      with (ln clamped) by (unfold n; field; lra).
    apply exp_ln. lra.
  - pose proof (normalized_in_unit _ _ _ Hlt Hf) as Hn.
    set (n := (clamped - minFrequency e) / (maxFrequency e - minFrequency e)) in *.
    split; [nra |].
    replace ((canvasBottom e + n * (canvasTop e - canvasBottom e) - canvasBottom e)
             / (canvasTop e - canvasBottom e)) with n by (field; lra).
    rewrite (jlimit_inside 0 1 n Hn).
    unfold n. field. lra.
Qed.

Lemma frequency_round_trip_witness :
  0 < minFrequency (PaintEngine_new studioHeader)
    < maxFrequency (PaintEngine_new studioHeader)
  /\ canvasBottom (PaintEngine_new studioHeader)
     < canvasTop (PaintEngine_new studioHeader)
  /\ canvasYToFrequency (PaintEngine_new studioHeader)
       (frequencyToCanvasY (PaintEngine_new studioHeader) 5)
     = Juce.jlimit (minFrequency (PaintEngine_new studioHeader))
         (maxFrequency (PaintEngine_new studioHeader)) 5.
Proof.
  assert (Hrange : 0 < minFrequency (PaintEngine_new studioHeader)
                     < maxFrequency (PaintEngine_new studioHeader)).
  { pose proof (setFrequencyRange_bounds 20 20000
                  (setCanvasRegion (-100) 100 (-50) 50
                     (PaintEngine_new studioHeader))) as Hb.
    cbn in Hb |- *. lra. }
  assert (Hcanvas : canvasBottom (PaintEngine_new studioHeader)
                    < canvasTop (PaintEngine_new studioHeader)) by (cbn; lra).
  split; [exact Hrange |]. split; [exact Hcanvas |].
  exact (proj2 (frequency_round_trip (PaintEngine_new studioHeader) 5
                  Hrange Hcanvas)).
Defined.

(** X5, pitch rises with the row.  For a canvas of positive height and a
    positive frequency range, a higher row never maps to a lower
    frequency, on either scale. *)
Theorem canvasYToFrequency_monotone (e : PaintEngine) (y1 y2 : R) :
  0 < minFrequency e <= maxFrequency e ->
  canvasBottom e < canvasTop e ->
  y1 <= y2 ->
  canvasYToFrequency e y1 <= canvasYToFrequency e y2.
Proof.
  intros [Hpos Hle] Hcanvas Hy. unfold canvasYToFrequency.
  assert (Hn : (y1 - canvasBottom e) / (canvasTop e - canvasBottom e)
               <= (y2 - canvasBottom e) / (canvasTop e - canvasBottom e)).
  { apply Rmult_le_compat_r; [| lra].
    left. apply Rinv_0_lt_compat. lra. }
  pose proof (jlimit_monotone 0 1 _ _ ltac:(lra) Hn) as Hc.
  set (c1 := Juce.jlimit 0 1 _) in *. set (c2 := Juce.jlimit 0 1 _) in *.
  destruct (useLogFrequencyScale e).
  - assert (Hln : ln (minFrequency e) <= ln (maxFrequency e)).
    { destruct Hle as [Hs | Hs];
        [left; apply ln_increasing; assumption | rewrite Hs; lra]. }
    apply exp_le. nra.
  - nra.
Qed.

Lemma canvasYToFrequency_monotone_witness :
  0 < minFrequency (PaintEngine_new studioHeader)
    <= maxFrequency (PaintEngine_new studioHeader)
  /\ canvasBottom (PaintEngine_new studioHeader)
     < canvasTop (PaintEngine_new studioHeader)
  /\ 0 <= 10
  /\ canvasYToFrequency (PaintEngine_new studioHeader) 0
     <= canvasYToFrequency (PaintEngine_new studioHeader) 10.
Proof.
  assert (Hrange : 0 < minFrequency (PaintEngine_new studioHeader)
                     <= maxFrequency (PaintEngine_new studioHeader)).
  { pose proof (setFrequencyRange_bounds 20 20000
                  (setCanvasRegion (-100) 100 (-50) 50
                     (PaintEngine_new studioHeader))) as Hb.
    cbn in Hb |- *. lra. }
  assert (Hcanvas : canvasBottom (PaintEngine_new studioHeader)
                    < canvasTop (PaintEngine_new studioHeader)) by (cbn; lra).
  assert (Hy : 0 <= 10) by lra.
  split; [exact Hrange |]. split; [exact Hcanvas |]. split; [exact Hy |].
  exact (canvasYToFrequency_monotone (PaintEngine_new studioHeader) 0 10
           Hrange Hcanvas Hy).
Defined.

End MappingLaws.

(** ** Parameter smoothing *)

Section Smoothing.
Local Open Scope R_scope.

Lemma pow_in_unit (r : R) (n : nat) : 0 <= r <= 1 -> 0 <= r ^ n <= 1.
Proof.
  intros Hr. induction n as [| n IH]; simpl; [lra | nra].
Qed.

(** X6, smoothing converges without overshoot.  For a smoothing factor in
    [0, 0.5], after [n] calls of [smoothParameters] the distance of the
    amplitude to its target is the initial distance times
    [(1 - 2 factor) ^ n], and that of the pan is the initial distance times
    [(1 - factor) ^ n]; both values lie between where they started and
    their targets; the targets, the frequency and the phase are
    untouched. *)
Theorem smoothParameters_converges (factor : R) (n : nat) (o : Oscillator.t) :
  0 <= factor <= 1 / 2 ->
  let o' := Nat.iter n (Oscillator.smoothParameters factor) o in
  Oscillator.targetAmplitude o' - Oscillator.amplitude o'
  = (1 - 2 * factor) ^ n
    * (Oscillator.targetAmplitude o - Oscillator.amplitude o)
  /\ Oscillator.targetPan o' - Oscillator.pan o'
     = (1 - factor) ^ n * (Oscillator.targetPan o - Oscillator.pan o)
  /\ Rmin (Oscillator.amplitude o) (Oscillator.targetAmplitude o)
     <= Oscillator.amplitude o'
     <= Rmax (Oscillator.amplitude o) (Oscillator.targetAmplitude o)
  /\ Rmin (Oscillator.pan o) (Oscillator.targetPan o)
     <= Oscillator.pan o'
     <= Rmax (Oscillator.pan o) (Oscillator.targetPan o)
  /\ Oscillator.targetAmplitude o' = Oscillator.targetAmplitude o
  /\ Oscillator.targetPan o' = Oscillator.targetPan o
  /\ Oscillator.frequency o' = Oscillator.frequency o
  /\ Oscillator.phase o' = Oscillator.phase o.
Proof.
  intros Hf. cbv zeta.
  assert (Hstep :
    Oscillator.targetAmplitude
      (Nat.iter n (Oscillator.smoothParameters factor) o)
    - Oscillator.amplitude (Nat.iter n (Oscillator.smoothParameters factor) o)
    = (1 - 2 * factor) ^ n
      * (Oscillator.targetAmplitude o - Oscillator.amplitude o)
    /\ Oscillator.targetPan (Nat.iter n (Oscillator.smoothParameters factor) o)
       - Oscillator.pan (Nat.iter n (Oscillator.smoothParameters factor) o)
       = (1 - factor) ^ n * (Oscillator.targetPan o - Oscillator.pan o)
    /\ Oscillator.targetAmplitude
         (Nat.iter n (Oscillator.smoothParameters factor) o)
       = Oscillator.targetAmplitude o
    /\ Oscillator.targetPan (Nat.iter n (Oscillator.smoothParameters factor) o)
       = Oscillator.targetPan o
    /\ Oscillator.frequency (Nat.iter n (Oscillator.smoothParameters factor) o)
       = Oscillator.frequency o
    /\ Oscillator.phase (Nat.iter n (Oscillator.smoothParameters factor) o)
       = Oscillator.phase o).
  { induction n as [| n IH].
    - simpl. repeat split; ring.
    - destruct IH as (Ha & Hp & Hta & Htp & Hfr & Hph).
      rewrite Nat.iter_succ. cbn [Oscillator.smoothParameters
        Oscillator.targetAmplitude Oscillator.amplitude Oscillator.targetPan
        Oscillator.pan Oscillator.frequency Oscillator.phase].
      refine (conj _ (conj _ (conj Hta (conj Htp (conj Hfr Hph))))).
      + replace ((1 - 2 * factor) ^ S n
                 * (Oscillator.targetAmplitude o - Oscillator.amplitude o))
          with ((1 - 2 * factor)
                * ((1 - 2 * factor) ^ n
                   * (Oscillator.targetAmplitude o - Oscillator.amplitude o)))
          by (simpl; ring).
        rewrite <- Ha. ring.
      + replace ((1 - factor) ^ S n
                 * (Oscillator.targetPan o - Oscillator.pan o))
          with ((1 - factor)
                * ((1 - factor) ^ n
                   * (Oscillator.targetPan o - Oscillator.pan o)))
          by (simpl; ring).
        rewrite <- Hp. ring. }
  destruct Hstep as (Ha & Hp & Hta & Htp & Hfr & Hph).
  pose proof (pow_in_unit (1 - 2 * factor) n ltac:(lra)) as Hka.
  pose proof (pow_in_unit (1 - factor) n ltac:(lra)) as Hkp.
  refine (conj Ha (conj Hp (conj _ (conj _ (conj Hta (conj Htp (conj Hfr Hph))))))).
  all: rewrite Hta in Ha; rewrite Htp in Hp.
  - unfold Rmin, Rmax.
    destruct (Rle_dec (Oscillator.amplitude o) (Oscillator.targetAmplitude o));
      nra.
  - unfold Rmin, Rmax.
    destruct (Rle_dec (Oscillator.pan o) (Oscillator.targetPan o)); nra.
Qed.

Lemma smoothParameters_converges_witness :
  0 <= 1 / 10 <= 1 / 2
  /\ Oscillator.targetAmplitude
       (Nat.iter 3 (Oscillator.smoothParameters (1 / 10))
          (Oscillator.mk 440 0 1 0 1 0 0))
     - Oscillator.amplitude
         (Nat.iter 3 (Oscillator.smoothParameters (1 / 10))
            (Oscillator.mk 440 0 1 0 1 0 0))
     = (1 - 2 * (1 / 10)) ^ 3
       * (Oscillator.targetAmplitude (Oscillator.mk 440 0 1 0 1 0 0)
          - Oscillator.amplitude (Oscillator.mk 440 0 1 0 1 0 0)).
Proof.
  assert (H : 0 <= 1 / 10 <= 1 / 2) by lra.
  split; [exact H |].
  exact (proj1 (smoothParameters_converges (1 / 10) 3
                  (Oscillator.mk 440 0 1 0 1 0 0) H)).
Defined.

End Smoothing.

(** ** The two oscillator buffers *)

(** X7, the swap protocol.  Requests made before the render thread looks
    are one request; honouring a request exchanges the roles of the two
    pools, clears the flag and moves no oscillator; without a new request
    the next look changes nothing; and two rounds of request and swap give
    each pool its first role back. *)
Theorem buffer_swap_protocol (e : PaintEngine) :
  let swapped := swapBuffersIfPending (requestBufferSwap e) in
  requestBufferSwap (requestBufferSwap e) = requestBufferSwap e
  /\ bufferSwapPending (requestBufferSwap e) = true
  /\ frontBufferIndex swapped = backBufferIndex e
  /\ backBufferIndex swapped = frontBufferIndex e
  /\ bufferSwapPending swapped = false
  /\ oscillatorPools swapped = oscillatorPools e
  /\ getFrontBuffer swapped = getBackBuffer e
  /\ getBackBuffer swapped = getFrontBuffer e
  /\ swapBuffersIfPending swapped = swapped
  /\ frontBufferIndex (swapBuffersIfPending (requestBufferSwap swapped))
     = frontBufferIndex e
  /\ backBufferIndex (swapBuffersIfPending (requestBufferSwap swapped))
     = backBufferIndex e.
Proof.
  cbv zeta. unfold swapBuffersIfPending, requestBufferSwap, getFrontBuffer,
    getBackBuffer, getPool.
  destruct e as [sr spb mg pools front back pending states free active
                 isAct pan_ logScale cur nextId regions minF maxF l r b t bc].
  destruct pending; cbn; repeat split; reflexivity.
Qed.

(** ** Strokes and the regions of the canvas *)

Section StrokeFacts.
Local Open Scope R_scope.

Lemma fold_Rmin_below {A : Type} (f : A -> R) (l : list A) (a : R) :
  fold_left (fun acc p => Rmin acc (f p)) l a <= a
  /\ forall q, In q l -> fold_left (fun acc p => Rmin acc (f p)) l a <= f q.
Proof.
  revert a. induction l as [| p l IH]; intros a; simpl.
  - split; [lra | intros q []].
  - destruct (IH (Rmin a (f p))) as [Hacc Hall].
    pose proof (Rmin_l a (f p)). pose proof (Rmin_r a (f p)).
    split; [lra |].
    intros q [<- | Hq]; [lra | apply Hall; assumption].
Qed.

Lemma fold_Rmax_above {A : Type} (f : A -> R) (l : list A) (a : R) :
  a <= fold_left (fun acc p => Rmax acc (f p)) l a
  /\ forall q, In q l -> f q <= fold_left (fun acc p => Rmax acc (f p)) l a.
Proof.
  revert a. induction l as [| p l IH]; intros a; simpl.
  - split; [lra | intros q []].
  - destruct (IH (Rmax a (f p))) as [Hacc Hall].
    pose proof (Rmax_l a (f p)). pose proof (Rmax_r a (f p)).
    split; [lra |].
    intros q [<- | Hq]; [lra | apply Hall; assumption].
Qed.

Lemma Stroke_updateBounds_encloses (s : Stroke) :
  points (Stroke_updateBounds s) = points s
  /\ strokeId (Stroke_updateBounds s) = strokeId s
  /\ isFinalized (Stroke_updateBounds s) = isFinalized s
  /\ (forall q, In q (points s) ->
        encloses (bounds (Stroke_updateBounds s)) (position q))
  /\ 0 <= Juce.rectWidth (bounds (Stroke_updateBounds s))
  /\ 0 <= Juce.rectHeight (bounds (Stroke_updateBounds s)).
Proof.
  unfold Stroke_updateBounds.
  destruct (points s) as [| first rest] eqn:Hpoints.
  - cbn. repeat split; try reflexivity; try lra; destruct H.
  - cbn [points strokeId isFinalized bounds Juce.rectWidth Juce.rectHeight].
    destruct (fold_Rmin_below (fun p => x (position p)) (first :: rest)
                (x (position first))) as [HminX HallMinX].
    destruct (fold_Rmax_above (fun p => x (position p)) (first :: rest)
                (x (position first))) as [HmaxX HallMaxX].
    destruct (fold_Rmin_below (fun p => y (position p)) (first :: rest)
                (y (position first))) as [HminY HallMinY].
    destruct (fold_Rmax_above (fun p => y (position p)) (first :: rest)
                (y (position first))) as [HmaxY HallMaxY].
    refine (conj eq_refl (conj eq_refl (conj eq_refl (conj _ (conj _ _))))).
    + intros q Hq. unfold encloses.
      cbn [Juce.rectX Juce.rectY Juce.rectWidth Juce.rectHeight].
      pose proof (HallMinX q Hq). pose proof (HallMaxX q Hq).
      pose proof (HallMinY q Hq). pose proof (HallMaxY q Hq).
      split; lra.
    + lra.
    + lra.
Qed.

(** X8, the bounds of a stroke.  [addPoint] appends the point, and
    afterwards the bounding rectangle of the stroke holds every point of
    the stroke, the new one included, and has a width and a height that
    are not negative; [finalize] sets the flag, keeps the points and
    leaves a rectangle that holds them all. *)
Theorem stroke_bounds_enclose_points (point : StrokePoint) (s : Stroke) :
  let grown := Stroke_addPoint point s in
  let closed := Stroke_finalize s in
  points grown = points s ++ [point]
  /\ (forall q, In q (points grown) -> encloses (bounds grown) (position q))
  /\ encloses (bounds grown) (position point)
  /\ 0 <= Juce.rectWidth (bounds grown)
  /\ 0 <= Juce.rectHeight (bounds grown)
  /\ points closed = points s
  /\ isFinalized closed = true
  /\ (forall q, In q (points closed) -> encloses (bounds closed) (position q)).
Proof.
  cbv zeta. unfold Stroke_addPoint, Stroke_finalize.
  destruct (Stroke_updateBounds_encloses
              (mkStroke (strokeId s) (points s ++ [point]) (isFinalized s)
                 (bounds s))) as (Hp & _ & _ & Hin & Hw & Hh).
  destruct (Stroke_updateBounds_encloses
              (mkStroke (strokeId s) (points s) true (bounds s)))
    as (Hp' & _ & Hf' & Hin' & _ & _).
  cbn [points isFinalized] in *.
  refine (conj Hp (conj _ (conj _ (conj Hw (conj Hh (conj Hp' (conj Hf' _))))))).
  - rewrite Hp. exact Hin.
  - apply Hin. apply in_or_app. right. left. reflexivity.
  - rewrite Hp'. exact Hin'.
Qed.

End StrokeFacts.

(** ** What the pool calls leave alone *)

Section SettingsFrame.

Variable hdr : Header.

Lemma paintSettings_setPool (i : Z) (v : list Oscillator.t) (e : PaintEngine) :
  paintSettings (setPool i v e) = paintSettings e.
Proof. reflexivity. Qed.

Lemma paintSettings_swapBuffersIfPending (e : PaintEngine) :
  paintSettings (swapBuffersIfPending e) = paintSettings e.
Proof. unfold swapBuffersIfPending. destruct (bufferSwapPending e); reflexivity. Qed.

Lemma paintSettings_requestBufferSwap (e : PaintEngine) :
  paintSettings (requestBufferSwap e) = paintSettings e.
Proof. unfold requestBufferSwap. destruct (bufferSwapPending e); reflexivity. Qed.

Lemma paintSettings_activateOscillator (index : Z) (params : AudioParams.t)
  (now : R) (e : PaintEngine) :
  paintSettings (activateOscillator hdr index params now e) = paintSettings e.
Proof.
  unfold activateOscillator. destruct (negb (indexInRange hdr index));
    reflexivity.
Qed.

Lemma paintSettings_releaseOscillator (index : Z) (e : PaintEngine) :
  paintSettings (releaseOscillator hdr index e) = paintSettings e.
Proof.
  unfold releaseOscillator. destruct (negb (indexInRange hdr index));
    reflexivity.
Qed.

Lemma paintSettings_updateOscillatorWithInfluence (index : Z)
  (newPoint : StrokePoint) (params : AudioParams.t) (now : R)
  (e : PaintEngine) :
  paintSettings (updateOscillatorWithInfluence hdr index newPoint params now e)
  = paintSettings e.
Proof.
  unfold updateOscillatorWithInfluence.
  destruct (negb (indexInRange hdr index)); [reflexivity |].
  destruct (negb (EnhancedOscillatorState.isActive _)); [reflexivity |].
  destruct (Rlt_dec _ _); reflexivity.
Qed.

Lemma paintSettings_allocateAndActivate (params : AudioParams.t) (now : R)
  (e : PaintEngine) :
  paintSettings (allocateAndActivate hdr params now e) = paintSettings e.
Proof.
  unfold allocateAndActivate, allocateOscillator.
  destruct (freeOscillatorIndices e) as [| k rest].
  - destruct (_ >=? 0)%Z; [apply paintSettings_activateOscillator | reflexivity].
  - destruct (_ >=? 0)%Z; [| reflexivity].
    rewrite paintSettings_activateOscillator. reflexivity.
Qed.

Lemma paintSettings_influences (newPoint : StrokePoint)
  (params : AudioParams.t) (now : R) (nearby : list Z) :
  forall e : PaintEngine,
    paintSettings
      (fold_left
         (fun acc oscIndex =>
            updateOscillatorWithInfluence hdr oscIndex newPoint params now acc)
         nearby e)
    = paintSettings e.
Proof.
  induction nearby as [| i nearby IH]; intros e; simpl; [reflexivity |].
  rewrite IH. apply paintSettings_updateOscillatorWithInfluence.
Qed.

Lemma paintSettings_updateOscillatorsIncremental (newPoint : StrokePoint)
  (nearby : list Z) (now : R) (e : PaintEngine) :
  paintSettings (updateOscillatorsIncremental hdr newPoint nearby now e)
  = paintSettings e.
Proof.
  unfold updateOscillatorsIncremental.
  destruct (_ || _).
  - apply paintSettings_allocateAndActivate.
  - apply paintSettings_influences.
Qed.

Lemma paintSettings_samplePass (stereo : bool) (sample : Z) (now : R)
  (e : PaintEngine) :
  paintSettings (fst (samplePass hdr stereo sample now e)) = paintSettings e.
Proof.
  unfold samplePass.
  destruct (slotLoop _ _ _ _ _ _ _ _ _ _) as [[[states1 pool1] mix] free1].
  destruct (SmoothedValue.getNextValue (masterGain e)) as [currentGain gain1].
  destruct (sample =? 0)%Z; reflexivity.
Qed.

Lemma paintSettings_sampleLoop (stereo : bool) (clock : Z -> R)
  (remaining : nat) :
  forall (sample : Z) (e : PaintEngine),
    paintSettings (fst (sampleLoop hdr stereo clock remaining sample e))
    = paintSettings e.
Proof.
  induction remaining as [| remaining IH]; intros sample e; simpl;
    [reflexivity |].
  pose proof (paintSettings_samplePass stereo sample (clock sample) e) as H1.
  destruct (samplePass hdr stereo sample (clock sample) e) as [e1 frame].
  specialize (IH (sample + 1)%Z e1).
  destruct (sampleLoop hdr stereo clock remaining (sample + 1) e1)
    as [e2 frames].
  cbn [fst] in *. congruence.
Qed.

Lemma paintSettings_optimizeOscillatorPool (e : PaintEngine) :
  paintSettings (optimizeOscillatorPool hdr e) = paintSettings e.
Proof.
  unfold optimizeOscillatorPool.
  rewrite paintSettings_requestBufferSwap. reflexivity.
Qed.

Lemma paintSettings_processBlock (numSamples : nat) (stereo : bool)
  (clock : Z -> R) (e : PaintEngine) :
  paintSettings (fst (processBlock hdr numSamples stereo clock e))
  = paintSettings e.
Proof.
  unfold processBlock.
  destruct (negb (isActive e)); [reflexivity |].
  unfold updateCanvasOscillators.
  pose proof (paintSettings_sampleLoop stereo clock numSamples 0
                (swapBuffersIfPending e)) as H1.
  rewrite paintSettings_swapBuffersIfPending in H1.
  destruct (sampleLoop hdr stereo clock numSamples 0 (swapBuffersIfPending e))
    as [e3 frames].
  cbn [fst] in *.
  destruct (Z.rem _ 100 =? 0)%Z.
  - rewrite paintSettings_optimizeOscillatorPool. exact H1.
  - exact H1.
Qed.

End SettingsFrame.

(** ** The regions of the canvas *)

Section CanvasFacts.

Variable hdr : Header.

Local Abbreviation strokesOf :=
  (fun kv : Z * CanvasRegion => strokes (snd kv)).

Lemma findRegion_head (key k : Z) (r : CanvasRegion)
  (regions : list (Z * CanvasRegion)) :
  findRegion key ((k, r) :: regions)
  = if (k =? key)%Z then Some r else findRegion key regions.
Proof. unfold findRegion. simpl. destruct (k =? key)%Z; reflexivity. Qed.

Lemma findRegion_None (key : Z) (regions : list (Z * CanvasRegion)) :
  findRegion key regions = None <-> ~ In key (map fst regions).
Proof.
  induction regions as [| [k r] regions IH].
  - simpl. unfold findRegion. simpl. tauto.
  - rewrite findRegion_head. simpl.
    destruct (Z.eqb_spec k key) as [-> | Hne].
    + split; [discriminate | intros H; exfalso; apply H; left; reflexivity].
    + rewrite IH. tauto.
Qed.

(** The entry that a lookup finds is the first one with the key, and it
    is the one [addStrokeAt] writes to. *)
Lemma findRegion_split (key : Z) (stroke : Stroke)
  (regions : list (Z * CanvasRegion)) (r : CanvasRegion) :
  findRegion key regions = Some r ->
  exists before after,
    regions = before ++ (key, r) :: after
    /\ ~ In key (map fst before)
    /\ addStrokeAt key stroke regions
       = before ++ (key, CanvasRegion_addStroke stroke r) :: after.
Proof.
  induction regions as [| [k r0] regions IH]; intros Hfind.
  - discriminate.
  - rewrite findRegion_head in Hfind. simpl.
    destruct (Z.eqb_spec k key) as [-> | Hne].
    + injection Hfind as ->. exists [], regions. simpl. auto.
    + destruct (IH Hfind) as (before & after & -> & Hnot & Hadd).
      exists ((k, r0) :: before), after. simpl.
      rewrite Hadd. split; [reflexivity |]. split; [| reflexivity].
      intros [Heq | Hin]; [contradiction | auto].
Qed.

Lemma findRegion_middle (key : Z) (r : CanvasRegion)
  (before after : list (Z * CanvasRegion)) :
  ~ In key (map fst before) ->
  findRegion key (before ++ (key, r) :: after) = Some r.
Proof.
  induction before as [| [k r0] before IH]; intros Hnot; simpl.
  - rewrite findRegion_head, Z.eqb_refl. reflexivity.
  - rewrite findRegion_head.
    destruct (Z.eqb_spec k key) as [-> | Hne].
    + exfalso. apply Hnot. left. reflexivity.
    + apply IH. intros Hin. apply Hnot. right. assumption.
Qed.

Lemma findRegion_other (key key' : Z) (r r' : CanvasRegion)
  (before after : list (Z * CanvasRegion)) :
  key' <> key ->
  findRegion key' (before ++ (key, r) :: after)
  = findRegion key' (before ++ (key, r') :: after).
Proof.
  intros Hne. induction before as [| [k r0] before IH]; simpl.
  - rewrite !findRegion_head.
    destruct (Z.eqb_spec key key'); [congruence | reflexivity].
  - rewrite !findRegion_head. destruct (k =? key')%Z; [reflexivity | exact IH].
Qed.


Lemma storedStrokes_addStrokeAt (key : Z) (stroke : Stroke)
  (regions : list (Z * CanvasRegion)) (r : CanvasRegion) :
  findRegion key regions = Some r ->
  Permutation (flat_map strokesOf (addStrokeAt key stroke regions))
    (stroke :: flat_map strokesOf regions)
  /\ map fst (addStrokeAt key stroke regions) = map fst regions
  /\ findRegion key (addStrokeAt key stroke regions)
     = Some (CanvasRegion_addStroke stroke r)
  /\ (forall other, other <> key ->
        findRegion other (addStrokeAt key stroke regions)
        = findRegion other regions).
Proof.
  intros Hfind.
  destruct (findRegion_split key stroke regions r Hfind)
    as (before & after & -> & Hnot & ->).
  refine (conj _ (conj _ (conj _ _))).
  - rewrite !flat_map_app. cbn [flat_map snd strokes CanvasRegion_addStroke].
    rewrite <- !app_assoc. simpl.
    apply Permutation_sym. rewrite !app_assoc. apply Permutation_middle.
  - rewrite !map_app. reflexivity.
  - apply findRegion_middle. exact Hnot.
  - intros other Hne. apply findRegion_other. exact Hne.
Qed.

(** What [endStroke] does to the canvas when the stroke in progress has a
    point: the finalized stroke goes to the end of the region of its first
    point, which is created for it if the cell had none. *)
Lemma endStroke_effect (e : PaintEngine) (stroke : Stroke)
  (first : StrokePoint) (rest : list StrokePoint) :
  currentStroke e = Some stroke ->
  points stroke = first :: rest ->
  let regionX_ := Juce.floorZ (x (position first) / REGION_SIZE hdr) in
  let regionY_ := Juce.floorZ (y (position first) / REGION_SIZE hdr) in
  let key := getRegionKey regionX_ regionY_ in
  let stored := Stroke_finalize stroke in
  let e' := endStroke hdr e in
  currentStroke e' = None
  /\ e' = set_currentStroke None (set_canvasRegions (canvasRegions e') e)
  /\ (findRegion key (canvasRegions e) = None
      /\ canvasRegions e'
         = (key, CanvasRegion_addStroke stored
                   (CanvasRegion_new regionX_ regionY_))
           :: canvasRegions e
      \/ exists before r after,
           canvasRegions e = before ++ (key, r) :: after
           /\ ~ In key (map fst before)
           /\ canvasRegions e'
              = before ++ (key, CanvasRegion_addStroke stored r) :: after).
Proof.
  intros Hcur Hpoints. cbv zeta. unfold endStroke. rewrite Hcur.
  destruct (Stroke_updateBounds_encloses
              (mkStroke (strokeId stroke) (points stroke) true (bounds stroke)))
    as (Hp & _).
  fold (Stroke_finalize stroke) in Hp. cbn [points] in Hp.
  rewrite Hp, Hpoints. unfold getOrCreateRegion.
  set (key := getRegionKey _ _).
  destruct (findRegion key (canvasRegions e)) as [r |] eqn:Hfind.
  - destruct (findRegion_split key (Stroke_finalize stroke) _ r Hfind)
      as (before & after & Hsplit & Hnot & Hadd).
    cbn [currentStroke set_currentStroke canvasRegions set_canvasRegions].
    split; [reflexivity |]. split; [destruct e; reflexivity |].
    right. exists before, r, after. auto.
  - cbn [currentStroke set_currentStroke canvasRegions set_canvasRegions
         addStrokeAt].
    rewrite Z.eqb_refl.
    split; [reflexivity |]. split; [destruct e; reflexivity |].
    left. split; reflexivity.
Qed.


Lemma canvasInvariant_frame (e e' : PaintEngine) :
  canvasRegions e' = canvasRegions e ->
  currentStroke e' = currentStroke e ->
  canvasInvariant e -> canvasInvariant e'.
Proof.
  unfold canvasInvariant, regionKeys, storedStrokes. intros -> ->. tauto.
Qed.

Lemma canvasInvariant_settings (e e' : PaintEngine) :
  paintSettings e' = paintSettings e ->
  canvasInvariant e -> canvasInvariant e'.
Proof.
  unfold paintSettings. intros Heq.
  apply canvasInvariant_frame; congruence.
Qed.

Lemma canvasInvariant_empty (e : PaintEngine) :
  canvasRegions e = [] -> currentStroke e = None -> canvasInvariant e.
Proof.
  unfold canvasInvariant, regionKeys, storedStrokes. intros -> ->. simpl.
  repeat split; try constructor; discriminate.
Qed.

Lemma canvasInvariant_endStroke (e : PaintEngine) :
  canvasInvariant e ->
  canvasInvariant (endStroke hdr e) /\ currentStroke (endStroke hdr e) = None.
Proof.
  intros (Hnd & Hregions & Hstored & Hcurrent).
  destruct (currentStroke e) as [stroke |] eqn:Hcur.
  2:{ unfold endStroke. rewrite Hcur. split; [| exact Hcur].
      unfold canvasInvariant. rewrite Hcur. repeat split; auto; discriminate. }
  destruct (Hcurrent stroke eq_refl) as [_ Hpoints].
  destruct (points stroke) as [| first rest] eqn:Hp; [congruence |].
  destruct (endStroke_effect e stroke first rest Hcur Hp)
    as (Hnone & _ & Hnew).
  cbv zeta in Hnew. set (key := getRegionKey _ _) in *.
  destruct (Stroke_updateBounds_encloses
              (mkStroke (strokeId stroke) (points stroke) true (bounds stroke)))
    as (Hfp & _ & Hff & _).
  fold (Stroke_finalize stroke) in Hfp, Hff. cbn [points isFinalized] in Hfp, Hff.
  assert (Hgood : isFinalized (Stroke_finalize stroke) = true
                  /\ points (Stroke_finalize stroke) <> [])
    by (split; [exact Hff | rewrite Hfp, Hp; discriminate]).
  assert (Hfilled : forall r : CanvasRegion,
            strokes (CanvasRegion_addStroke (Stroke_finalize stroke) r) <> [])
    by (intros r; cbn; destruct (strokes r); discriminate).
  split; [| exact Hnone].
  unfold canvasInvariant, regionKeys, storedStrokes in *.
  rewrite Hnone.
  destruct Hnew as [[Hfresh ->] | (before & r & after & Hsplit & Hnot & ->)].
  - refine (conj _ (conj _ (conj _ _))).
    + simpl. constructor; [apply findRegion_None; exact Hfresh | exact Hnd].
    + constructor; [| exact Hregions].
      split; [reflexivity | apply Hfilled].
    + simpl. constructor; assumption.
    + discriminate.
  - rewrite Hsplit in Hnd, Hregions, Hstored.
    refine (conj _ (conj _ (conj _ _))).
    + rewrite map_app in *. exact Hnd.
    + apply Forall_app in Hregions as [Hb Ha].
      apply Forall_app. split; [exact Hb |].
      inversion Ha as [| ? ? [Hkey _] Hafter]; subst.
      constructor; [| exact Hafter].
      split; [exact Hkey | apply Hfilled].
    + rewrite flat_map_app in *. apply Forall_app in Hstored as [Hb Ha].
      apply Forall_app. split; [exact Hb |].
      cbn [flat_map snd strokes CanvasRegion_addStroke] in *.
      apply Forall_app in Ha as [Hr Hafter].
      apply Forall_app. split; [| exact Hafter].
      apply Forall_app. split; [exact Hr |].
      constructor; [exact Hgood | constructor].
    + discriminate.
Qed.

Lemma canvasInvariant_beginStroke (position_ : Point) (pressure_ : R)
  (color_ : Juce.Colour) (e : PaintEngine) :
  canvasInvariant e ->
  canvasInvariant (beginStroke hdr position_ pressure_ color_ e).
Proof.
  intros Hinv. unfold beginStroke.
  assert (H1 : canvasInvariant
                 (match currentStroke e with
                  | Some _ => endStroke hdr e
                  | None => e
                  end))
    by (destruct (currentStroke e);
        [apply canvasInvariant_endStroke; exact Hinv | exact Hinv]).
  revert H1. generalize (match currentStroke e with
                         | Some _ => endStroke hdr e
                         | None => e
                         end).
  intros e1 (Hnd & Hregions & Hstored & _).
  unfold canvasInvariant, regionKeys, storedStrokes.
  cbn [canvasRegions currentStroke set_currentStroke set_nextStrokeId].
  refine (conj Hnd (conj Hregions (conj Hstored _))).
  intros s Hs. injection Hs as <-.
  destruct (Stroke_updateBounds_encloses
              (mkStroke (strokeId (Stroke_new (nextStrokeId e1)))
                 (points (Stroke_new (nextStrokeId e1))
                  ++ [mkStrokePoint position_ pressure_ color_])
                 (isFinalized (Stroke_new (nextStrokeId e1)))
                 (bounds (Stroke_new (nextStrokeId e1)))))
    as (Hp & _ & Hf & _).
  unfold Stroke_addPoint. rewrite Hp, Hf. cbn. split; [reflexivity | discriminate].
Qed.

Lemma canvasInvariant_updateStroke (position_ : Point) (pressure_ : R)
  (nearby : list Z) (now : R) (e : PaintEngine) :
  canvasInvariant e ->
  canvasInvariant (updateStroke hdr position_ pressure_ nearby now e).
Proof.
  intros Hinv. unfold updateStroke.
  destruct (currentStroke e) as [stroke |] eqn:Hcur;
    [| apply canvasInvariant_beginStroke; exact Hinv].
  apply (canvasInvariant_settings _ _
           (paintSettings_updateOscillatorsIncremental hdr _ _ _ _)).
  destruct Hinv as (Hnd & Hregions & Hstored & Hcurrent).
  destruct (Hcurrent stroke Hcur) as [Hopen Hpoints].
  unfold canvasInvariant, regionKeys, storedStrokes.
  cbn [canvasRegions currentStroke set_currentStroke].
  refine (conj Hnd (conj Hregions (conj Hstored _))).
  intros s Hs. injection Hs as <-.
  destruct (Stroke_updateBounds_encloses
              (mkStroke (strokeId stroke)
                 (points stroke
                  ++ [mkStrokePoint position_ pressure_ Juce.white])
                 (isFinalized stroke) (bounds stroke)))
    as (Hp & _ & Hf & _).
  unfold Stroke_addPoint. rewrite Hp, Hf. cbn [points isFinalized].
  split; [exact Hopen | destruct (points stroke); discriminate].
Qed.

Lemma filter_all {A : Type} (f : A -> bool) (l : list A) :
  Forall (fun a => f a = true) l -> filter f l = l.
Proof.
  induction 1 as [| a l Ha _ IH]; simpl; [reflexivity |].
  rewrite Ha, IH. reflexivity.
Qed.

Lemma cullInactiveRegions_of_filled (e : PaintEngine) :
  Forall (fun kv : Z * CanvasRegion => strokes (snd kv) <> [])
    (canvasRegions e) ->
  cullInactiveRegions e = e.
Proof.
  intros Hfilled. unfold cullInactiveRegions. rewrite filter_all.
  - destruct e; reflexivity.
  - eapply Forall_impl; [| exact Hfilled].
    intros [k r] Hr. unfold CanvasRegion_isEmpty. cbn [snd] in *.
    destruct (strokes r); [congruence | reflexivity].
Qed.

Lemma canvasInvariant_filled (e : PaintEngine) :
  canvasInvariant e ->
  Forall (fun kv : Z * CanvasRegion => strokes (snd kv) <> [])
    (canvasRegions e).
Proof.
  intros (_ & Hregions & _).
  eapply Forall_impl; [| exact Hregions]. intros kv [_ H]. exact H.
Qed.

Lemma canvasInvariant_applyCall (c : Call) (e : PaintEngine) :
  canvasInvariant e -> canvasInvariant (applyCall hdr c e).
Proof.
  intros Hinv. destruct c; cbn [applyCall].
  - apply canvasInvariant_beginStroke; exact Hinv.
  - apply canvasInvariant_updateStroke; exact Hinv.
  - apply canvasInvariant_endStroke; exact Hinv.
  - rewrite cullInactiveRegions_of_filled;
      [exact Hinv | apply canvasInvariant_filled; exact Hinv].
  - revert Hinv. apply canvasInvariant_settings,
      paintSettings_updateOscillatorsIncremental.
  - revert Hinv. apply canvasInvariant_settings,
      paintSettings_allocateAndActivate.
  - revert Hinv. apply canvasInvariant_settings,
      paintSettings_updateOscillatorWithInfluence.
  - revert Hinv. apply canvasInvariant_settings,
      paintSettings_releaseOscillator.
  - revert Hinv. apply canvasInvariant_settings, paintSettings_samplePass.
  - revert Hinv. apply canvasInvariant_settings, paintSettings_processBlock.
  - revert Hinv. apply canvasInvariant_frame; reflexivity.
  - apply canvasInvariant_empty; reflexivity.
  - apply canvasInvariant_empty;
      unfold clearCanvas, requestBufferSwap;
      match goal with |- context [if ?b then _ else _] => destruct b end;
      reflexivity.
  - revert Hinv. apply canvasInvariant_frame; reflexivity.
  - revert Hinv. apply canvasInvariant_frame; reflexivity.
  - revert Hinv. apply canvasInvariant_frame; reflexivity.
Qed.

Lemma canvasInvariant_run (calls : list Call) :
  forall e : PaintEngine,
    canvasInvariant e -> canvasInvariant (run hdr calls e).
Proof.
  unfold run. induction calls as [| c calls IH]; intros e Hinv; simpl;
    [exact Hinv |].
  apply IH, canvasInvariant_applyCall. exact Hinv.
Qed.

End CanvasFacts.

(** The cell of a point on the studio canvas. *)
Lemma studio_cell (coordinate : R) (cell : Z) :
  (- 2 ^ 31 <= cell < 2 ^ 31)%Z ->
  (IZR cell <= coordinate / 10 < IZR cell + 1)%R ->
  cellFitsInt studioHeader coordinate.
Proof.
  intros Hcell Hfloor. unfold cellFitsInt. cbn [REGION_SIZE studioHeader].
  split; [lra |]. rewrite (floorZ_spec _ cell Hfloor). exact Hcell.
Qed.

(** X9, looking a region up or creating it.  For a point whose cell
    numbers fit an [int] (and a region size that is not zero), after
    [getOrCreateRegion] the cell of the point has a region filed under
    the key returned; it carries the coordinates of the cell and, if it
    was created by the call, holds no stroke; a second call for the same
    point changes nothing; the regions under other keys and the strokes
    on the canvas are as before; and the keys stay free of duplicates. *)
Theorem getOrCreateRegion_finds_or_creates (hdr : Header)
  (canvasX canvasY : R) (e : PaintEngine) :
  cellFitsInt hdr canvasX ->
  cellFitsInt hdr canvasY ->
  let regionX_ := Juce.floorZ (canvasX / REGION_SIZE hdr) in
  let regionY_ := Juce.floorZ (canvasY / REGION_SIZE hdr) in
  let key := fst (getOrCreateRegion hdr canvasX canvasY e) in
  let e' := snd (getOrCreateRegion hdr canvasX canvasY e) in
  key = getRegionKey regionX_ regionY_
  /\ (findRegion key (canvasRegions e') = findRegion key (canvasRegions e)
      /\ findRegion key (canvasRegions e) <> None /\ e' = e
      \/ findRegion key (canvasRegions e) = None
         /\ findRegion key (canvasRegions e')
            = Some (CanvasRegion_new regionX_ regionY_))
  /\ getOrCreateRegion hdr canvasX canvasY e' = (key, e')
  /\ (forall other, other <> key ->
        findRegion other (canvasRegions e')
        = findRegion other (canvasRegions e))
  /\ storedStrokes e' = storedStrokes e
  /\ (NoDup (regionKeys e) -> NoDup (regionKeys e')).
Proof.
  intros _ _. cbv zeta. unfold getOrCreateRegion.
  set (key := getRegionKey _ _).
  destruct (findRegion key (canvasRegions e)) as [r |] eqn:Hfind;
    cbn [fst snd].
  - split; [reflexivity |].
    split; [left; rewrite Hfind; repeat split; discriminate |].
    split; [rewrite Hfind; reflexivity |].
    repeat split; auto.
  - cbn [canvasRegions set_canvasRegions].
    assert (Hnew : findRegion key
                     ((key, CanvasRegion_new
                              (Juce.floorZ (canvasX / REGION_SIZE hdr))
                              (Juce.floorZ (canvasY / REGION_SIZE hdr)))
                      :: canvasRegions e)
                   = Some (CanvasRegion_new
                             (Juce.floorZ (canvasX / REGION_SIZE hdr))
                             (Juce.floorZ (canvasY / REGION_SIZE hdr))))
      by (rewrite findRegion_head, Z.eqb_refl; reflexivity).
    split; [reflexivity |].
    split; [right; split; [exact Hfind | exact Hnew] |].
    split; [rewrite Hnew; reflexivity |].
    split; [| split].
    + intros other Hne. rewrite findRegion_head.
      destruct (Z.eqb_spec key other); [congruence | reflexivity].
    + reflexivity.
    + intros Hnd. unfold regionKeys. cbn [canvasRegions set_canvasRegions map fst].
      constructor; [| exact Hnd].
      apply findRegion_None. exact Hfind.
Qed.

Lemma getOrCreateRegion_finds_or_creates_witness :
  cellFitsInt studioHeader 5
  /\ cellFitsInt studioHeader 15
  /\ fst (getOrCreateRegion studioHeader 5 15 (PaintEngine_new studioHeader))
     = getRegionKey (Juce.floorZ (5 / REGION_SIZE studioHeader))
         (Juce.floorZ (15 / REGION_SIZE studioHeader)).
Proof.
  assert (Hx : cellFitsInt studioHeader 5)
    by (apply (studio_cell 5 0); [lia | simpl; lra]).
  assert (Hy : cellFitsInt studioHeader 15)
    by (apply (studio_cell 15 1); [lia | simpl; lra]).
  split; [exact Hx |]. split; [exact Hy |].
  exact (proj1 (getOrCreateRegion_finds_or_creates studioHeader 5 15
                  (PaintEngine_new studioHeader) Hx Hy)).
Defined.

(** X10, a finished stroke is kept.  When the stroke in progress has a
    point whose cell numbers fit an [int], [endStroke] finalizes it and
    files it in the region of its first point: the strokes on the canvas are those from before and the
    finalized stroke, once; the region of that cell lists it last; the
    regions under other keys are untouched; no stroke is in progress
    afterwards; and the oscillator pool is not touched, so the voices of
    the stroke are not released by ending it. *)
Theorem endStroke_stores_stroke (hdr : Header) (e : PaintEngine)
  (stroke : Stroke) (first : StrokePoint) (rest : list StrokePoint) :
  currentStroke e = Some stroke ->
  points stroke = first :: rest ->
  cellFitsInt hdr (x (position first)) ->
  cellFitsInt hdr (y (position first)) ->
  let key :=
    getRegionKey (Juce.floorZ (x (position first) / REGION_SIZE hdr))
      (Juce.floorZ (y (position first) / REGION_SIZE hdr)) in
  let stored := Stroke_finalize stroke in
  let e' := endStroke hdr e in
  currentStroke e' = None
  /\ Permutation (storedStrokes e') (stored :: storedStrokes e)
  /\ (exists r, findRegion key (canvasRegions e') = Some r
                /\ last (strokes r) stored = stored
                /\ strokes r <> [])
  /\ (forall other, other <> key ->
        findRegion other (canvasRegions e')
        = findRegion other (canvasRegions e))
  /\ isFinalized stored = true
  /\ points stored = points stroke
  /\ oscillatorStates e' = oscillatorStates e
  /\ freeOscillatorIndices e' = freeOscillatorIndices e
  /\ oscillatorPools e' = oscillatorPools e.
Proof.
  intros Hcur Hpoints _ _. cbv zeta.
  destruct (endStroke_effect hdr e stroke first rest Hcur Hpoints)
    as (Hnone & Hrest & Hregions).
  cbv zeta in Hrest, Hregions.
  set (key := getRegionKey _ _) in *.
  destruct (Stroke_updateBounds_encloses
              (mkStroke (strokeId stroke) (points stroke) true (bounds stroke)))
    as (Hp & _ & Hf & _).
  fold (Stroke_finalize stroke) in Hp, Hf. cbn [points isFinalized] in Hp, Hf.
  assert (Hlast : forall l : list Stroke,
            last (l ++ [Stroke_finalize stroke]) (Stroke_finalize stroke)
            = Stroke_finalize stroke /\ l ++ [Stroke_finalize stroke] <> [])
    by (intros l; split; [apply last_snoc | destruct l; discriminate]).
  refine (conj Hnone (conj _ (conj _ (conj _ (conj Hf (conj Hp _)))))).
  - unfold storedStrokes.
    destruct Hregions as [[_ ->] | (before & r & after & -> & Hnot & ->)].
    + simpl. apply Permutation_refl.
    + rewrite !flat_map_app.
      cbn [flat_map snd strokes CanvasRegion_addStroke].
      rewrite <- !app_assoc. simpl.
      apply Permutation_sym. rewrite !app_assoc. apply Permutation_middle.
  - destruct Hregions as [[_ ->] | (before & r & after & _ & Hnot & ->)].
    + rewrite findRegion_head, Z.eqb_refl. eexists. split; [reflexivity |].
      apply (Hlast []).
    + rewrite findRegion_middle by assumption. eexists.
      split; [reflexivity |]. apply Hlast.
  - intros other Hne.
    destruct Hregions as [[_ ->] | (before & r & after & -> & Hnot & ->)].
    + rewrite findRegion_head.
      destruct (Z.eqb_spec key other); [congruence | reflexivity].
    + apply findRegion_other. exact Hne.
  - rewrite Hrest. repeat split.
Qed.

Lemma endStroke_stores_stroke_witness :
  let e :=
    beginStroke studioHeader (mkPoint 0 0) 1 Juce.white
      (PaintEngine_new studioHeader) in
  let stroke :=
    Stroke_addPoint (mkStrokePoint (mkPoint 0 0) 1 Juce.white) (Stroke_new 1) in
  currentStroke e = Some stroke
  /\ points stroke = [mkStrokePoint (mkPoint 0 0) 1 Juce.white]
  /\ cellFitsInt studioHeader 0
  /\ Permutation (storedStrokes (endStroke studioHeader e))
       (Stroke_finalize stroke :: storedStrokes e).
Proof.
  cbv zeta.
  assert (Hcell : cellFitsInt studioHeader 0)
    by (apply (studio_cell 0 0); [lia | simpl; lra]).
  assert (Hcur :
    currentStroke
      (beginStroke studioHeader (mkPoint 0 0) 1 Juce.white
         (PaintEngine_new studioHeader))
    = Some (Stroke_addPoint (mkStrokePoint (mkPoint 0 0) 1 Juce.white)
              (Stroke_new 1))) by reflexivity.
  assert (Hpoints :
    points (Stroke_addPoint (mkStrokePoint (mkPoint 0 0) 1 Juce.white)
              (Stroke_new 1))
    = [mkStrokePoint (mkPoint 0 0) 1 Juce.white]) by reflexivity.
  split; [exact Hcur |]. split; [exact Hpoints |]. split; [exact Hcell |].
  exact (proj1 (proj2 (endStroke_stores_stroke studioHeader _ _ _ _
                         Hcur Hpoints Hcell Hcell))).
Defined.

(** X11, the canvas between calls.  In every state that calls lead to
    from the constructor, no two regions share a key, every region is
    filed under the key of its own cell and holds a stroke, every stroke
    on the canvas is finalized and has a point, and the stroke in
    progress, if there is one, has a point and is not finalized.  A region
    is therefore never empty between calls, and [cullInactiveRegions]
    finds nothing to remove. *)
Theorem canvas_invariant_of_runs (hdr : Header) (calls : list Call) :
  canvasInvariant (run hdr calls (PaintEngine_new hdr))
  /\ cullInactiveRegions (run hdr calls (PaintEngine_new hdr))
     = run hdr calls (PaintEngine_new hdr).
Proof.
  assert (Hinv : canvasInvariant (run hdr calls (PaintEngine_new hdr)))
    by (apply canvasInvariant_run; apply canvasInvariant_empty; reflexivity).
  split; [exact Hinv |].
  apply cullInactiveRegions_of_filled, canvasInvariant_filled. exact Hinv.
Qed.

(** X12, culling.  [cullInactiveRegions] removes the regions without a
    stroke and nothing else: every region left holds a stroke, a region
    that held one is still found under its key, the strokes on the canvas
    are the same in the same order, a second cull changes nothing, and the
    oscillator pool and the stroke in progress are not touched. *)
Theorem cullInactiveRegions_removes_empty_regions (e : PaintEngine) :
  let e' := cullInactiveRegions e in
  Forall (fun kv : Z * CanvasRegion => strokes (snd kv) <> [])
    (canvasRegions e')
  /\ (forall key r,
        findRegion key (canvasRegions e) = Some r -> strokes r <> [] ->
        findRegion key (canvasRegions e') = Some r)
  /\ (forall key r,
        findRegion key (canvasRegions e') = Some r ->
        In (key, r) (canvasRegions e))
  /\ storedStrokes e' = storedStrokes e
  /\ cullInactiveRegions e' = e'
  /\ currentStroke e' = currentStroke e
  /\ oscillatorStates e' = oscillatorStates e
  /\ freeOscillatorIndices e' = freeOscillatorIndices e
  /\ oscillatorPools e' = oscillatorPools e.
Proof.
  cbv zeta.
  assert (Hfilled :
    Forall (fun kv : Z * CanvasRegion => strokes (snd kv) <> [])
      (canvasRegions (cullInactiveRegions e))).
  { unfold cullInactiveRegions. cbn [canvasRegions set_canvasRegions].
    induction (canvasRegions e) as [| [k r] regions IH]; simpl;
      [constructor |].
    unfold CanvasRegion_isEmpty at 1. cbn [snd].
    destruct (strokes r) eqn:Hr; simpl; [exact IH |].
    constructor; [cbn [snd]; rewrite Hr; discriminate | exact IH]. }
  refine (conj Hfilled (conj _ (conj _ (conj _ (conj _ _))))).
  - unfold cullInactiveRegions. cbn [canvasRegions set_canvasRegions].
    induction (canvasRegions e) as [| [k r0] regions IH]; intros key r Hfind Hr;
      [discriminate |].
    rewrite findRegion_head in Hfind. simpl.
    unfold CanvasRegion_isEmpty at 1. cbn [snd].
    destruct (Z.eqb_spec k key) as [-> | Hne].
    + injection Hfind as ->.
      destruct (strokes r) eqn:Hs; [congruence |]. simpl.
      rewrite findRegion_head, Z.eqb_refl. reflexivity.
    + destruct (strokes r0); simpl; [apply IH; assumption |].
      rewrite findRegion_head.
      destruct (Z.eqb_spec k key); [contradiction | apply IH; assumption].
  - unfold cullInactiveRegions. cbn [canvasRegions set_canvasRegions].
    intros key r Hfind. unfold findRegion in Hfind.
    destruct (find _ _) as [[k r0] |] eqn:Hf; [| discriminate].
    injection Hfind as <-. apply find_some in Hf as [Hin Hk].
    apply filter_In in Hin as [Hin _]. cbn [fst snd] in *.
    apply Z.eqb_eq in Hk. subst k. exact Hin.
  - unfold storedStrokes, cullInactiveRegions.
    cbn [canvasRegions set_canvasRegions].
    induction (canvasRegions e) as [| [k r] regions IH]; simpl;
      [reflexivity |].
    unfold CanvasRegion_isEmpty at 1. cbn [snd].
    destruct (strokes r) eqn:Hr; simpl; [exact IH |].
    rewrite Hr, IH. reflexivity.
  - apply cullInactiveRegions_of_filled. exact Hfilled.
  - repeat split.
Qed.

(** ** A gesture from pen down to pen up *)

Section Gestures.

Variable hdr : Header.

Lemma run_cons (c : Call) (calls : list Call) (e : PaintEngine) :
  run hdr (c :: calls) e = run hdr calls (applyCall hdr c e).
Proof. reflexivity. Qed.

Lemma run_snoc (c : Call) (calls : list Call) (e : PaintEngine) :
  run hdr (calls ++ [c]) e = applyCall hdr c (run hdr calls e).
Proof. unfold run. rewrite fold_left_app. reflexivity. Qed.

Lemma Stroke_addPoint_fields (point : StrokePoint) (s : Stroke) :
  points (Stroke_addPoint point s) = points s ++ [point]
  /\ strokeId (Stroke_addPoint point s) = strokeId s
  /\ isFinalized (Stroke_addPoint point s) = isFinalized s.
Proof.
  unfold Stroke_addPoint.
  destruct (Stroke_updateBounds_encloses
              (mkStroke (strokeId s) (points s ++ [point]) (isFinalized s)
                 (bounds s))) as (Hp & Hid & Hf & _).
  auto.
Qed.

(** The moves of a gesture add their points to the stroke in progress and
    leave the canvas alone. *)
Lemma moves_effect (moves : list (Point * R * list Z * R)) :
  forall (e : PaintEngine) (stroke : Stroke),
    currentStroke e = Some stroke ->
    let e' :=
      run hdr
        (map (fun '(p, pr, nearby, now) => UpdateStroke p pr nearby now) moves)
        e in
    (exists stroke',
        currentStroke e' = Some stroke'
        /\ points stroke'
           = points stroke
             ++ map (fun '(p, pr, _, _) => mkStrokePoint p pr Juce.white) moves
        /\ strokeId stroke' = strokeId stroke
        /\ isFinalized stroke' = isFinalized stroke)
    /\ canvasRegions e' = canvasRegions e
    /\ nextStrokeId e' = nextStrokeId e.
Proof.
  induction moves as [| [[[p pr] nearby] now] moves IH]; intros e stroke Hcur;
    cbv zeta.
  - simpl. split; [| split; reflexivity].
    exists stroke. rewrite app_nil_r. auto.
  - cbn [map]. rewrite run_cons. cbn [applyCall]. unfold updateStroke.
    rewrite Hcur.
    set (point := mkStrokePoint p pr Juce.white).
    pose proof (paintSettings_updateOscillatorsIncremental hdr point nearby now
                  (set_currentStroke (Some (Stroke_addPoint point stroke)) e))
      as Hsame.
    set (e1 := updateOscillatorsIncremental hdr point nearby now _) in *.
    unfold paintSettings in Hsame.
    cbn [canvasRegions currentStroke nextStrokeId set_currentStroke] in Hsame.
    assert (Hcur1 : currentStroke e1 = Some (Stroke_addPoint point stroke))
      by congruence.
    destruct (IH e1 _ Hcur1) as ((stroke' & Hc & Hp & Hid & Hf) & Hr & Hn).
    destruct (Stroke_addPoint_fields point stroke) as (Hp1 & Hid1 & Hf1).
    split; [| split; congruence].
    exists stroke'. split; [exact Hc |].
    split; [| split; congruence].
    rewrite Hp, Hp1, <- app_assoc. reflexivity.
Qed.

End Gestures.

(** X13, a gesture becomes one stroke.  When no stroke is in progress,
    pen down, any number of moves and pen up leave on the canvas the
    strokes from before and one new stroke: it has the identifier that was
    next, it holds the points of the gesture in the order they were
    painted, it is finalized, and its bounding rectangle holds all its
    points.  No stroke is in progress afterwards, and the next identifier
    has advanced by one, modulo 2^32. *)
Theorem gesture_becomes_one_stroke (hdr : Header) (start : Point)
  (pressure_ : R) (color_ : Juce.Colour)
  (moves : list (Point * R * list Z * R)) (e : PaintEngine) :
  currentStroke e = None ->
  let e' := run hdr (strokeGesture start pressure_ color_ moves) e in
  currentStroke e' = None
  /\ nextStrokeId e' = Juce.wrap32 (nextStrokeId e + 1)
  /\ exists stored,
       Permutation (storedStrokes e') (stored :: storedStrokes e)
       /\ strokeId stored = nextStrokeId e
       /\ points stored = gesturePoints start pressure_ color_ moves
       /\ isFinalized stored = true
       /\ forall q, In q (points stored) ->
            encloses (bounds stored) (position q).
Proof.
  intros Hidle. cbv zeta. unfold strokeGesture.
  rewrite run_cons, run_snoc. cbn [applyCall].
  set (e0 := beginStroke hdr start pressure_ color_ e).
  set (first := mkStrokePoint start pressure_ color_).
  assert (Hcur0 : currentStroke e0
                  = Some (Stroke_addPoint first (Stroke_new (nextStrokeId e))))
    by (unfold e0, beginStroke; rewrite Hidle; reflexivity).
  assert (Hregions0 : canvasRegions e0 = canvasRegions e)
    by (unfold e0, beginStroke; rewrite Hidle; reflexivity).
  assert (Hnext0 : nextStrokeId e0 = Juce.wrap32 (nextStrokeId e + 1))
    by (unfold e0, beginStroke; rewrite Hidle; reflexivity).
  destruct (moves_effect hdr moves e0 _ Hcur0)
    as ((stroke & Hcur & Hpoints & Hid & Hopen) & Hregions & Hnext).
  destruct (Stroke_addPoint_fields first (Stroke_new (nextStrokeId e)))
    as (Hp1 & Hid1 & _).
  cbn [points strokeId Stroke_new app] in Hp1, Hid1.
  rewrite Hp1 in Hpoints. cbn [app] in Hpoints.
  set (e1 := run hdr _ e0) in *.
  destruct (endStroke_effect hdr e1 stroke _ _ Hcur Hpoints)
    as (Hnone & Hrest & Hnew).
  cbv zeta in Hrest, Hnew.
  destruct (Stroke_updateBounds_encloses
              (mkStroke (strokeId stroke) (points stroke) true (bounds stroke)))
    as (Hfp & Hfid & Hff & Hfin & _).
  fold (Stroke_finalize stroke) in Hfp, Hfid, Hff, Hfin.
  cbn [points strokeId isFinalized] in Hfp, Hfid, Hff, Hfin.
  split; [exact Hnone |].
  split; [rewrite Hrest; cbn [nextStrokeId set_currentStroke set_canvasRegions];
          congruence |].
  exists (Stroke_finalize stroke).
  split; [| split; [congruence | split; [| split]]].
  - unfold storedStrokes. rewrite <- Hregions0, <- Hregions.
    destruct Hnew as [[_ ->] | (before & r & after & -> & Hnot & ->)].
    + simpl. apply Permutation_refl.
    + rewrite !flat_map_app.
      cbn [flat_map snd strokes CanvasRegion_addStroke].
      rewrite <- !app_assoc. simpl.
      apply Permutation_sym. rewrite !app_assoc. apply Permutation_middle.
  - rewrite Hfp, Hpoints. reflexivity.
  - exact Hff.
  - rewrite Hfp. exact Hfin.
Qed.

Lemma gesture_becomes_one_stroke_witness :
  currentStroke (PaintEngine_new studioHeader) = None
  /\ currentStroke
       (run studioHeader
          (strokeGesture (mkPoint 0 0) 1 Juce.white
             [(mkPoint 1 1, 1%R, [], 0%R)])
          (PaintEngine_new studioHeader))
     = None.
Proof.
  assert (Hidle : currentStroke (PaintEngine_new studioHeader) = None)
    by reflexivity.
  split; [exact Hidle |].
  exact (proj1 (gesture_becomes_one_stroke studioHeader (mkPoint 0 0) 1
                  Juce.white [(mkPoint 1 1, 1%R, [], 0%R)]
                  (PaintEngine_new studioHeader) Hidle)).
Defined.

(** ** The influence of a gesture on a voice *)



(** ** Region keys on rows that are not negative *)

(** X15, keys of the upper half plane.  On cells whose row number is not
    negative (and fits 32 bits) [getRegionKey] tells cells apart: two
    cells with the same key are the same cell, and the column and the row
    can be read back from the key. *)
Theorem getRegionKey_injective_on_nonnegative_rows
  (regionX regionY regionX' regionY' : Z) :
  (0 <= regionY < 2 ^ 32)%Z ->
  (0 <= regionY' < 2 ^ 32)%Z ->
  (getRegionKey regionX regionY = getRegionKey regionX' regionY' ->
   regionX = regionX' /\ regionY = regionY')
  /\ (getRegionKey regionX regionY / 2 ^ 32 = regionX)%Z
  /\ (getRegionKey regionX regionY mod 2 ^ 32 = regionY)%Z.
Proof.
  intros Hy Hy'.
  rewrite (getRegionKey_nonnegative_row regionX regionY Hy).
  rewrite (getRegionKey_nonnegative_row regionX' regionY' Hy').
  assert (Hdiv : forall a b : Z, (0 <= b < 2 ^ 32)%Z ->
            ((a * 2 ^ 32 + b) / 2 ^ 32 = a)%Z
            /\ ((a * 2 ^ 32 + b) mod 2 ^ 32 = b)%Z).
  { intros a b Hb. split.
    - rewrite Z.div_add_l by lia. rewrite Z.div_small by lia. lia.
    - rewrite Z.add_comm, Z.mod_add by lia. apply Z.mod_small. lia. }
  destruct (Hdiv regionX regionY Hy) as [Hq Hr].
  destruct (Hdiv regionX' regionY' Hy') as [Hq' Hr'].
  split; [| split; assumption].
  intros Heq. rewrite Heq in Hq, Hr. split; congruence.
Qed.

Lemma getRegionKey_injective_on_nonnegative_rows_witness :
  (0 <= 3 < 2 ^ 32)%Z /\ (0 <= 3 < 2 ^ 32)%Z
  /\ (getRegionKey (-2) 3 / 2 ^ 32 = -2)%Z.
Proof.
  assert (Hy : (0 <= 3 < 2 ^ 32)%Z) by lia.
  split; [exact Hy |]. split; [exact Hy |].
  exact (proj1 (proj2 (getRegionKey_injective_on_nonnegative_rows (-2) 3 (-2) 3
                         Hy Hy))).
Defined.

(** ** The frequency range between calls *)

Section RangeFacts.

Variable hdr : Header.

Lemma frequencyRangeSound_frame (e e' : PaintEngine) :
  frequencyRange e' = frequencyRange e ->
  frequencyRangeSound e -> frequencyRangeSound e'.
Proof.
  unfold frequencyRange, frequencyRangeSound. intros Heq.
  injection Heq as -> ->. tauto.
Qed.

Lemma frequencyRange_settings (e e' : PaintEngine) :
  paintSettings e' = paintSettings e -> frequencyRange e' = frequencyRange e.
Proof. unfold paintSettings, frequencyRange. congruence. Qed.

Lemma frequencyRange_endStroke (e : PaintEngine) :
  frequencyRange (endStroke hdr e) = frequencyRange e.
Proof.
  unfold endStroke. destruct (currentStroke e); [| reflexivity].
  destruct (points _); [reflexivity |].
  unfold getOrCreateRegion. destruct (findRegion _ _); reflexivity.
Qed.

Lemma frequencyRange_beginStroke (position_ : Point) (pressure_ : R)
  (color_ : Juce.Colour) (e : PaintEngine) :
  frequencyRange (beginStroke hdr position_ pressure_ color_ e)
  = frequencyRange e.
Proof.
  unfold beginStroke.
  destruct (currentStroke e); [| reflexivity].
  rewrite <- (frequencyRange_endStroke e). reflexivity.
Qed.

Lemma frequencyRange_applyCall (c : Call) (e : PaintEngine) :
  frequencyRangeSound e -> frequencyRangeSound (applyCall hdr c e).
Proof.
  intros Hinv.
  assert (Hframe : forall e' : PaintEngine,
            frequencyRange e' = frequencyRange e -> frequencyRangeSound e')
    by (intros e' Heq; exact (frequencyRangeSound_frame e e' Heq Hinv)).
  destruct c; cbn [applyCall].
  - apply Hframe, frequencyRange_beginStroke.
  - apply Hframe. unfold updateStroke. destruct (currentStroke e).
    + rewrite (frequencyRange_settings _ _
                 (paintSettings_updateOscillatorsIncremental hdr _ _ _ _)).
      reflexivity.
    + apply frequencyRange_beginStroke.
  - apply Hframe, frequencyRange_endStroke.
  - apply Hframe. reflexivity.
  - apply Hframe, frequencyRange_settings,
      paintSettings_updateOscillatorsIncremental.
  - apply Hframe, frequencyRange_settings, paintSettings_allocateAndActivate.
  - apply Hframe, frequencyRange_settings,
      paintSettings_updateOscillatorWithInfluence.
  - apply Hframe, frequencyRange_settings, paintSettings_releaseOscillator.
  - apply Hframe, frequencyRange_settings, paintSettings_samplePass.
  - apply Hframe, frequencyRange_settings, paintSettings_processBlock.
  - apply Hframe. reflexivity.
  - apply Hframe. reflexivity.
  - apply Hframe. unfold clearCanvas, requestBufferSwap.
    match goal with |- context [if ?b then _ else _] => destruct b end;
      reflexivity.
  - apply (setFrequencyRange_bounds minHz maxHz e).
  - apply Hframe. reflexivity.
  - apply Hframe. reflexivity.
Qed.

Lemma frequencyRangeSound_run (calls : list Call) :
  forall e : PaintEngine,
    frequencyRangeSound e -> frequencyRangeSound (run hdr calls e).
Proof.
  unfold run. induction calls as [| c calls IH]; intros e Hinv; simpl;
    [exact Hinv |].
  apply IH, frequencyRange_applyCall. exact Hinv.
Qed.

End RangeFacts.

(** ** The canvas keeps its width and height *)

Section DomainFacts.

Variable hdr : Header.

Lemma properCanvas_frame (e e' : PaintEngine) :
  canvasEdges e' = canvasEdges e -> properCanvas e -> properCanvas e'.
Proof.
  unfold canvasEdges, properCanvas. intros Heq.
  injection Heq as -> -> -> ->. tauto.
Qed.

Lemma canvasEdges_settings (e e' : PaintEngine) :
  paintSettings e' = paintSettings e -> canvasEdges e' = canvasEdges e.
Proof. unfold paintSettings, canvasEdges. congruence. Qed.

Lemma canvasEdges_endStroke (e : PaintEngine) :
  canvasEdges (endStroke hdr e) = canvasEdges e.
Proof.
  unfold endStroke. destruct (currentStroke e); [| reflexivity].
  destruct (points _); [reflexivity |].
  unfold getOrCreateRegion. destruct (findRegion _ _); reflexivity.
Qed.

Lemma canvasEdges_beginStroke (position_ : Point) (pressure_ : R)
  (color_ : Juce.Colour) (e : PaintEngine) :
  canvasEdges (beginStroke hdr position_ pressure_ color_ e) = canvasEdges e.
Proof.
  unfold beginStroke.
  destruct (currentStroke e); [| reflexivity].
  rewrite <- (canvasEdges_endStroke e). reflexivity.
Qed.

Lemma properCanvas_applyCall (c : Call) (e : PaintEngine) :
  wellPosedCall c -> properCanvas e -> properCanvas (applyCall hdr c e).
Proof.
  intros Hc Hinv.
  assert (Hframe : forall e' : PaintEngine,
            canvasEdges e' = canvasEdges e -> properCanvas e')
    by (intros e' Heq; exact (properCanvas_frame e e' Heq Hinv)).
  destruct c; cbn [applyCall].
  - apply Hframe, canvasEdges_beginStroke.
  - apply Hframe. unfold updateStroke. destruct (currentStroke e).
    + rewrite (canvasEdges_settings _ _
                 (paintSettings_updateOscillatorsIncremental hdr _ _ _ _)).
      reflexivity.
    + apply canvasEdges_beginStroke.
  - apply Hframe, canvasEdges_endStroke.
  - apply Hframe. reflexivity.
  - apply Hframe, canvasEdges_settings,
      paintSettings_updateOscillatorsIncremental.
  - apply Hframe, canvasEdges_settings, paintSettings_allocateAndActivate.
  - apply Hframe, canvasEdges_settings,
      paintSettings_updateOscillatorWithInfluence.
  - apply Hframe, canvasEdges_settings, paintSettings_releaseOscillator.
  - apply Hframe, canvasEdges_settings, paintSettings_samplePass.
  - apply Hframe, canvasEdges_settings, paintSettings_processBlock.
  - apply Hframe. reflexivity.
  - apply Hframe. reflexivity.
  - apply Hframe. unfold clearCanvas, requestBufferSwap.
    match goal with |- context [if ?b then _ else _] => destruct b end;
      reflexivity.
  - apply Hframe. reflexivity.
  - exact Hc.
  - apply Hframe. reflexivity.
Qed.

Lemma properCanvas_run (calls : list Call) :
  forall e : PaintEngine,
    Forall wellPosedCall calls -> properCanvas e ->
    properCanvas (run hdr calls e).
Proof.
  unfold run. induction calls as [| c calls IH]; intros e Hcalls Hinv; simpl;
    [exact Hinv |].
  inversion Hcalls as [| ? ? Hc Hrest]; subst.
  apply IH; [exact Hrest |]. apply properCanvas_applyCall; assumption.
Qed.

Lemma properCanvas_new : properCanvas (PaintEngine_new hdr).
Proof. unfold properCanvas. cbn. split; lra. Qed.

End DomainFacts.

Lemma frequencyRangeSound_new (hdr : Header) :
  frequencyRangeSound (PaintEngine_new hdr).
Proof.
  unfold PaintEngine_new. cbv zeta.
  match goal with
  | |- frequencyRangeSound (setCanvasRegion _ _ _ _ (setFrequencyRange ?a ?b ?m)) =>
      apply (frequencyRangeSound_frame (setFrequencyRange a b m));
        [reflexivity | apply (setFrequencyRange_bounds a b m)]
  end.
Qed.

(** X16, what a painted point asks for.  In every state that calls lead
    to from the constructor the frequency range is at least one hertz wide
    and inside [1, 22000]; when the canvas of that state has a width and a
    height, the audio parameters of any point have their frequency inside
    the range, their time inside [0, 1], the pressure as amplitude, and
    the pan at the centre for a transparent colour.  (On a canvas of no
    height or width the source divides by zero.) *)
Theorem gesture_parameters_in_range (hdr : Header) (calls : list Call)
  (point : StrokePoint) :
  let e := run hdr calls (PaintEngine_new hdr) in
  let params := strokePointToAudioParams hdr e point in
  properCanvas e ->
  frequencyRangeSound e
  /\ (minFrequency e <= AudioParams.frequency params <= maxFrequency e)%R
  /\ (1 <= AudioParams.frequency params <= 22000)%R
  /\ (0 <= AudioParams.time params <= 1)%R
  /\ AudioParams.amplitude params = pressure point
  /\ (color point = Juce.transparentBlack ->
      AudioParams.pan params = (1 / 2)%R).
Proof.
  cbv zeta. intros _.
  pose proof (frequencyRangeSound_run hdr calls _ (frequencyRangeSound_new hdr))
    as Hrange.
  set (e := run hdr calls (PaintEngine_new hdr)) in *.
  pose proof Hrange as [Hmin Hmax].
  pose proof (canvasYToFrequency_in_range e (y (position point))
                ltac:(lra)) as Hf.
  unfold strokePointToAudioParams.
  cbn [AudioParams.frequency AudioParams.time AudioParams.amplitude
       AudioParams.pan].
  refine (conj Hrange (conj Hf (conj _ (conj _ (conj eq_refl _))))).
  - lra.
  - unfold canvasXToTime. apply jlimit_bounds. lra.
  - intros ->. reflexivity.
Qed.

Lemma gesture_parameters_in_range_witness :
  properCanvas
    (run studioHeader [SetCanvasRegion 0 10 0 5] (PaintEngine_new studioHeader))
  /\ (0 <= AudioParams.time
             (strokePointToAudioParams studioHeader
                (run studioHeader [SetCanvasRegion 0 10 0 5]
                   (PaintEngine_new studioHeader))
                (mkStrokePoint (mkPoint 1 1) 1 Juce.white)) <= 1)%R.
Proof.
  assert (Hcanvas :
    properCanvas
      (run studioHeader [SetCanvasRegion 0 10 0 5]
         (PaintEngine_new studioHeader)))
    by (unfold properCanvas; cbn; split; lra).
  split; [exact Hcanvas |].
  exact (proj1 (proj2 (proj2 (proj2
           (gesture_parameters_in_range studioHeader [SetCanvasRegion 0 10 0 5]
              (mkStrokePoint (mkPoint 1 1) 1 Juce.white) Hcanvas))))).
Defined.

(** ** Voices under a light touch *)

Section LightTouch.

Variable hdr : Header.

Local Abbreviation State := EnhancedOscillatorState.t.

(** What allocation and reclaim change in a slot: its envelope phase and
    its in-use flag. *)
Local Abbreviation voiceOf :=
  (fun s : State =>
     (EnhancedOscillatorState.envelopePhase s,
      EnhancedOscillatorState.inUse s)).

Lemma map_updateAt_fixed {A B : Type} (g : A -> B) (f : A -> A) (d : A)
  (i : nat) (v : list A) :
  g (f (nth i v d)) = g (nth i v d) ->
  map g (updateAt i f v) = map g v.
Proof.
  revert i. induction v as [| a v IH]; intros i Hfix;
    [destruct i; reflexivity |].
  destruct i as [| i]; simpl in *.
  - rewrite Hfix. reflexivity.
  - rewrite IH by exact Hfix. reflexivity.
Qed.

Lemma updateOscillatorWithInfluence_keeps_voices (index : Z)
  (newPoint : StrokePoint) (params : AudioParams.t) (now : R)
  (e : PaintEngine) :
  let e' := updateOscillatorWithInfluence hdr index newPoint params now e in
  freeOscillatorIndices e' = freeOscillatorIndices e
  /\ map voiceOf (oscillatorStates e') = map voiceOf (oscillatorStates e).
Proof.
  cbv zeta. unfold updateOscillatorWithInfluence.
  destruct (negb (indexInRange hdr index)); [split; reflexivity |].
  destruct (negb (EnhancedOscillatorState.isActive _)); [split; reflexivity |].
  destruct (Rlt_dec _ _); [split; reflexivity |].
  cbn [freeOscillatorIndices oscillatorStates set_oscillatorStates].
  rewrite setPool_states, setPool_free.
  split; [reflexivity |].
  apply (map_updateAt_fixed voiceOf _ EnhancedOscillatorState.initial).
  reflexivity.
Qed.

Lemma influences_keep_voices (newPoint : StrokePoint)
  (params : AudioParams.t) (now : R) (nearby : list Z) :
  forall e : PaintEngine,
    let e' :=
      fold_left
        (fun acc oscIndex =>
           updateOscillatorWithInfluence hdr oscIndex newPoint params now acc)
        nearby e in
    freeOscillatorIndices e' = freeOscillatorIndices e
    /\ map voiceOf (oscillatorStates e') = map voiceOf (oscillatorStates e).
Proof.
  induction nearby as [| i nearby IH]; intros e; cbv zeta; simpl;
    [split; reflexivity |].
  destruct (IH (updateOscillatorWithInfluence hdr i newPoint params now e))
    as [Hf Hv].
  destruct (updateOscillatorWithInfluence_keeps_voices i newPoint params now e)
    as [Hf1 Hv1].
  cbv zeta in *. split; congruence.
Qed.

End LightTouch.

(** X17, a touch that takes no voice.  When the grid reports voices near
    the point and the pressure is at most 0.5, and either the pressure is
    at most 0.1 or the free list is empty, [updateOscillatorsIncremental]
    only blends the point into the voices nearby: the free list, the in-use
    flags and the envelope phases of all slots are as before, so no voice
    is allocated and none is stolen.  The bounds 0.1 and 0.5 themselves
    are on this side. *)
Theorem light_touch_takes_no_voice (hdr : Header) (newPoint : StrokePoint)
  (nearby : list Z) (now : R) (e : PaintEngine) :
  nearby <> [] ->
  (pressure newPoint <= 1 / 2)%R ->
  (pressure newPoint <= 1 / 10)%R \/ freeOscillatorIndices e = [] ->
  let e' := updateOscillatorsIncremental hdr newPoint nearby now e in
  shouldAllocateNewOscillator e newPoint = false
  /\ freeOscillatorIndices e' = freeOscillatorIndices e
  /\ map EnhancedOscillatorState.inUse (oscillatorStates e')
     = map EnhancedOscillatorState.inUse (oscillatorStates e)
  /\ map EnhancedOscillatorState.envelopePhase (oscillatorStates e')
     = map EnhancedOscillatorState.envelopePhase (oscillatorStates e)
  /\ paintSettings e' = paintSettings e.
Proof.
  intros Hnear Hhalf Hlight. cbv zeta.
  assert (Hno : shouldAllocateNewOscillator e newPoint = false).
  { unfold shouldAllocateNewOscillator.
    destruct (Rgt_dec (pressure newPoint) (1 / 2)) as [Hgt | _]; [lra |].
    rewrite orb_false_r.
    destruct Hlight as [Hlow | Hfull].
    - destruct (Rgt_dec (pressure newPoint) (1 / 10)) as [Hgt | _]; [lra |].
      reflexivity.
    - rewrite Hfull. apply andb_false_r. }
  split; [exact Hno |].
  split; [| split; [| split]];
    try apply paintSettings_updateOscillatorsIncremental.
  all: unfold updateOscillatorsIncremental; rewrite Hno;
    destruct nearby as [| i rest]; [congruence |]; cbn [orb];
    destruct (influences_keep_voices hdr newPoint
                (strokePointToAudioParams hdr e newPoint) now (i :: rest) e)
      as [Hf Hv]; cbv zeta in Hf, Hv.
  - exact Hf.
  - apply (f_equal (map snd)) in Hv. rewrite !map_map in Hv. exact Hv.
  - apply (f_equal (map fst)) in Hv. rewrite !map_map in Hv. exact Hv.
Qed.

Lemma light_touch_takes_no_voice_witness :
  let point := mkStrokePoint (mkPoint 0 0) (1 / 10) Juce.white in
  [0%Z] <> []
  /\ (pressure point <= 1 / 2)%R
  /\ ((pressure point <= 1 / 10)%R
      \/ freeOscillatorIndices (PaintEngine_new studioHeader) = [])
  /\ freeOscillatorIndices
       (updateOscillatorsIncremental studioHeader point [0%Z] 0
          (PaintEngine_new studioHeader))
     = freeOscillatorIndices (PaintEngine_new studioHeader).
Proof.
  cbv zeta.
  assert (Hnear : [0%Z] <> []) by discriminate.
  assert (Hhalf :
    (pressure (mkStrokePoint (mkPoint 0 0) (1 / 10) Juce.white) <= 1 / 2)%R)
    by (cbn; lra).
  assert (Hlight :
    (pressure (mkStrokePoint (mkPoint 0 0) (1 / 10) Juce.white) <= 1 / 10)%R
    \/ freeOscillatorIndices (PaintEngine_new studioHeader) = [])
    by (left; cbn; lra).
  split; [exact Hnear |]. split; [exact Hhalf |]. split; [exact Hlight |].
  exact (proj1 (proj2 (light_touch_takes_no_voice studioHeader _ [0%Z] 0
                         (PaintEngine_new studioHeader) Hnear Hhalf Hlight))).
Defined.

(** ** What a block of audio contains *)

Section BlockOutput.

Variable hdr : Header.

Local Abbreviation State := EnhancedOscillatorState.t.
Local Abbreviation idle :=
  (fun s : State => EnhancedOscillatorState.isActive s = false).

Lemma slotLoop_centred (sr now : R) (states : list State) :
  forall (pool : list Oscillator.t) (i : Z) (mix : MixBus) (free : list Z),
    leftSample mix = rightSample mix ->
    let r := slotLoop hdr sr now true true i states pool mix free in
    leftSample (snd (fst r)) = rightSample (snd (fst r)).
Proof.
  induction states as [| s states IH]; intros pool i mix free Hmix;
    [exact Hmix |].
  destruct pool as [| o pool]; [exact Hmix |].
  cbn [slotLoop].
  assert (H1 : leftSample
                 (snd (fst (processSlot hdr sr now true true i s o mix free)))
               = rightSample
                   (snd (fst (processSlot hdr sr now true true i s o mix free)))).
  { unfold processSlot.
    destruct (EnhancedOscillatorState.isActive s).
    - cbn. rewrite Hmix. apply f_equal. lra.
    - destruct (_ && _); exact Hmix. }
  destruct (processSlot hdr sr now true true i s o mix free)
    as [[[s1 o1] mix1] free1].
  cbn [fst snd] in H1.
  specialize (IH pool (i + 1)%Z mix1 free1 H1). cbv zeta in IH.
  destruct (slotLoop hdr sr now true true (i + 1) states pool mix1 free1)
    as [[[states1 pool1] mix2] free2].
  exact IH.
Qed.

Lemma slotLoop_count (sr now : R) (panning stereo : bool)
  (states : list State) :
  forall (pool : list Oscillator.t) (i : Z) (mix : MixBus) (free : list Z),
    (length states <= length pool)%nat ->
    let r := slotLoop hdr sr now panning stereo i states pool mix free in
    activeOscCount (snd (fst r))
    = (activeOscCount mix
       + Z.of_nat (length (filter EnhancedOscillatorState.isActive states)))%Z.
Proof.
  induction states as [| s states IH]; intros pool i mix free Hlen.
  - simpl. lia.
  - destruct pool as [| o pool]; [simpl in Hlen; lia |].
    simpl in Hlen. cbn [slotLoop filter].
    assert (H1 : activeOscCount
                   (snd (fst (processSlot hdr sr now panning stereo i s o mix
                                free)))
                 = (activeOscCount mix
                    + if EnhancedOscillatorState.isActive s then 1 else 0)%Z).
    { unfold processSlot.
      destruct (EnhancedOscillatorState.isActive s).
      - cbn. destruct (panning && stereo); reflexivity.
      - destruct (_ && _); cbn; lia. }
    destruct (processSlot hdr sr now panning stereo i s o mix free)
      as [[[s1 o1] mix1] free1].
    cbn [fst snd] in H1.
    specialize (IH pool (i + 1)%Z mix1 free1 ltac:(lia)). cbv zeta in IH.
    destruct (slotLoop hdr sr now panning stereo (i + 1) states pool mix1 free1)
      as [[[states1 pool1] mix2] free2].
    cbn [fst snd] in *. rewrite IH, H1.
    destruct (EnhancedOscillatorState.isActive s); cbn [length]; lia.
Qed.

Lemma slotLoop_idle (sr now : R) (panning stereo : bool)
  (states : list State) :
  forall (pool : list Oscillator.t) (i : Z) (mix : MixBus) (free : list Z),
    Forall idle states ->
    let r := slotLoop hdr sr now panning stereo i states pool mix free in
    snd (fst r) = mix /\ Forall idle (fst (fst (fst r)))
    /\ snd (fst (fst r)) = pool.
Proof.
  induction states as [| s states IH]; intros pool i mix free Hidle.
  - simpl. destruct pool; auto.
  - destruct pool as [| o pool]; [simpl; auto |].
    inversion Hidle as [| ? ? Hs Hrest]; subst.
    cbn [slotLoop].
    assert (H1 : snd (fst (processSlot hdr sr now panning stereo i s o mix
                             free)) = mix
                 /\ idle (fst (fst (fst (processSlot hdr sr now panning stereo
                                           i s o mix free))))
                 /\ snd (fst (fst (processSlot hdr sr now panning stereo i s o
                                     mix free))) = o).
    { unfold processSlot. rewrite Hs.
      destruct (_ && _); cbn; auto. }
    destruct (processSlot hdr sr now panning stereo i s o mix free)
      as [[[s1 o1] mix1] free1].
    cbn [fst snd] in H1. destruct H1 as (-> & Hs1 & ->).
    specialize (IH pool (i + 1)%Z mix free1 Hrest). cbv zeta in IH.
    destruct (slotLoop hdr sr now panning stereo (i + 1) states pool mix free1)
      as [[[states1 pool1] mix2] free2].
    cbn [fst snd] in *. destruct IH as (-> & Hidle1 & ->).
    split; [reflexivity |]. split; [constructor; assumption | reflexivity].
Qed.

Lemma samplePass_centred (sample : Z) (now : R) (e : PaintEngine) :
  fst (snd (samplePass hdr true sample now e))
  = snd (snd (samplePass hdr true sample now e)).
Proof.
  unfold samplePass.
  destruct (usePanning e) eqn:Hpan.
  - pose proof (slotLoop_centred (sampleRate e) now (oscillatorStates e)
                  (getFrontBuffer e) 0 (mkMixBus 0 0 0)
                  (freeOscillatorIndices e) eq_refl) as Hc.
    cbv zeta in Hc.
    destruct (slotLoop _ _ _ _ _ _ _ _ _ _) as [[[states1 pool1] mix] free1].
    destruct (SmoothedValue.getNextValue (masterGain e)) as [g gain1].
    cbn [fst snd] in *. rewrite Hc. reflexivity.
  - destruct (slotLoop _ _ _ _ _ _ _ _ _ _) as [[[states1 pool1] mix] free1].
    destruct (SmoothedValue.getNextValue (masterGain e)) as [g gain1].
    reflexivity.
Qed.

Lemma sampleLoop_frames (clock : Z -> R) (remaining : nat) :
  forall (stereo : bool) (sample : Z) (e : PaintEngine),
    length (snd (sampleLoop hdr stereo clock remaining sample e)) = remaining
    /\ (stereo = true ->
        Forall (fun frame : R * R => fst frame = snd frame)
          (snd (sampleLoop hdr stereo clock remaining sample e))).
Proof.
  induction remaining as [| remaining IH]; intros stereo sample e.
  - simpl. split; [reflexivity | constructor].
  - cbn [sampleLoop].
    pose proof (samplePass_centred sample (clock sample) e) as Hc.
    destruct (samplePass hdr stereo sample (clock sample) e) as [e1 frame]
      eqn:Hpass.
    destruct (IH stereo (sample + 1)%Z e1) as [Hlen Hall].
    destruct (sampleLoop hdr stereo clock remaining (sample + 1) e1)
      as [e2 frames].
    cbn [snd length] in *.
    split; [congruence |].
    intros ->. rewrite Hpass in Hc. cbn [fst snd] in Hc.
    constructor; [exact Hc | apply Hall; reflexivity].
Qed.

Lemma samplePass_idle (stereo : bool) (sample : Z) (now : R)
  (e : PaintEngine) :
  Forall idle (oscillatorStates e) ->
  snd (samplePass hdr stereo sample now e) = (0%R, 0%R)
  /\ Forall idle (oscillatorStates (fst (samplePass hdr stereo sample now e)))
  /\ oscillatorPools (fst (samplePass hdr stereo sample now e))
     = oscillatorPools e.
Proof.
  intros Hidle. unfold samplePass.
  pose proof (slotLoop_idle (sampleRate e) now (usePanning e) stereo
                (oscillatorStates e) (getFrontBuffer e) 0 (mkMixBus 0 0 0)
                (freeOscillatorIndices e) Hidle) as Hloop.
  cbv zeta in Hloop.
  destruct (slotLoop _ _ _ _ _ _ _ _ _ _) as [[[states1 pool1] mix] free1].
  cbn [fst snd] in Hloop. destruct Hloop as (-> & Hidle1 & ->).
  destruct (SmoothedValue.getNextValue (masterGain e)) as [g gain1].
  cbn [fst snd leftSample rightSample].
  refine (conj _ (conj _ _)).
  - rewrite Rmult_0_l. destruct stereo; [destruct (usePanning e) |];
      reflexivity.
  - destruct (sample =? 0)%Z; exact Hidle1.
  - destruct (sample =? 0)%Z;
      cbn [oscillatorPools set_activeOscillators set_masterGain
           set_freeOscillatorIndices set_oscillatorStates];
      unfold setPool, getFrontBuffer, getPool;
      destruct (frontBufferIndex e =? 0)%Z; cbn;
      destruct (oscillatorPools e); reflexivity.
Qed.

Lemma sampleLoop_idle (stereo : bool) (clock : Z -> R) (remaining : nat) :
  forall (sample : Z) (e : PaintEngine),
    Forall idle (oscillatorStates e) ->
    snd (sampleLoop hdr stereo clock remaining sample e)
    = repeat (0%R, 0%R) remaining
    /\ oscillatorPools (fst (sampleLoop hdr stereo clock remaining sample e))
       = oscillatorPools e.
Proof.
  induction remaining as [| remaining IH]; intros sample e Hidle;
    [split; reflexivity |].
  cbn [sampleLoop repeat].
  destruct (samplePass_idle stereo sample (clock sample) e Hidle)
    as (Hframe & Hidle1 & Hpools1).
  destruct (samplePass hdr stereo sample (clock sample) e) as [e1 frame].
  cbn [fst snd] in *.
  destruct (IH (sample + 1)%Z e1 Hidle1) as [Hframes Hpools].
  destruct (sampleLoop hdr stereo clock remaining (sample + 1) e1)
    as [e2 frames].
  cbn [fst snd] in *. split; congruence.
Qed.

End BlockOutput.

(** X18, the shape of a block.  [processBlock] writes one frame for each
    sample of the buffer, and on a buffer with two channels the two
    channels of every frame carry the same value, with panning on or off:
    with panning every voice goes to both buses at one half, without it
    the right channel is a copy of the left. *)
Theorem stereo_block_is_centred (hdr : Header) (numSamples : nat)
  (stereo : bool) (clock : Z -> R) (e : PaintEngine) :
  length (snd (processBlock hdr numSamples stereo clock e)) = numSamples
  /\ Forall (fun frame : R * R => fst frame = snd frame)
       (snd (processBlock hdr numSamples true clock e)).
Proof.
  unfold processBlock, updateCanvasOscillators.
  destruct (negb (isActive e)).
  - cbn [snd]. split; [apply repeat_length |].
    apply Forall_forall. intros frame Hin.
    apply repeat_spec in Hin. subst frame. reflexivity.
  - destruct (sampleLoop_frames hdr clock numSamples stereo 0
                (swapBuffersIfPending e)) as [Hlen _].
    destruct (sampleLoop_frames hdr clock numSamples true 0
                (swapBuffersIfPending e)) as [_ Hall].
    destruct (sampleLoop hdr stereo clock numSamples 0 (swapBuffersIfPending e))
      as [e3 frames].
    destruct (sampleLoop hdr true clock numSamples 0 (swapBuffersIfPending e))
      as [e3' frames'].
    cbn [snd] in *. split; [exact Hlen | apply Hall; reflexivity].
Qed.

(** X19, silence.  When the engine is switched off, or when no slot has
    an active envelope, every frame of the block is zero on both channels,
    whatever the master gain and the oscillators in the pools are. *)
Theorem idle_block_is_silent (hdr : Header) (numSamples : nat)
  (stereo : bool) (clock : Z -> R) (e : PaintEngine) :
  isActive e = false
  \/ Forall (fun s => EnhancedOscillatorState.isActive s = false)
       (oscillatorStates e) ->
  snd (processBlock hdr numSamples stereo clock e)
  = repeat (0%R, 0%R) numSamples.
Proof.
  intros Hquiet. unfold processBlock, updateCanvasOscillators.
  destruct (isActive e) eqn:Hon; cbn [negb]; [| reflexivity].
  destruct Hquiet as [Hoff | Hidle]; [discriminate |].
  assert (Hidle' : Forall (fun s => EnhancedOscillatorState.isActive s = false)
                     (oscillatorStates (swapBuffersIfPending e)))
    by (unfold swapBuffersIfPending; destruct (bufferSwapPending e);
        exact Hidle).
  destruct (sampleLoop_idle hdr stereo clock numSamples 0
              (swapBuffersIfPending e) Hidle') as [Hframes _].
  destruct (sampleLoop hdr stereo clock numSamples 0 (swapBuffersIfPending e))
    as [e3 frames].
  exact Hframes.
Qed.

Lemma idle_block_is_silent_witness :
  (isActive (PaintEngine_new studioHeader) = false
   \/ Forall (fun s => EnhancedOscillatorState.isActive s = false)
        (oscillatorStates (PaintEngine_new studioHeader)))
  /\ snd (processBlock studioHeader 3 true (fun _ => 0%R)
            (PaintEngine_new studioHeader))
     = repeat (0%R, 0%R) 3.
Proof.
  assert (Hquiet :
    isActive (PaintEngine_new studioHeader) = false
    \/ Forall (fun s => EnhancedOscillatorState.isActive s = false)
         (oscillatorStates (PaintEngine_new studioHeader)))
    by (right; repeat constructor).
  split; [exact Hquiet |].
  exact (idle_block_is_silent studioHeader 3 true (fun _ => 0%R)
           (PaintEngine_new studioHeader) Hquiet).
Defined.

Section VoiceCounter.

Variable hdr : Header.

Lemma samplePass_counter (stereo : bool) (sample : Z) (now : R)
  (e : PaintEngine) :
  (length (oscillatorStates e) <= length (getFrontBuffer e))%nat ->
  activeOscillators (fst (samplePass hdr stereo sample now e))
  = if (sample =? 0)%Z
    then Z.of_nat
           (length (filter EnhancedOscillatorState.isActive
                      (oscillatorStates e)))
    else activeOscillators e.
Proof.
  intros Hlen. unfold samplePass.
  pose proof (slotLoop_count hdr (sampleRate e) now (usePanning e) stereo
                (oscillatorStates e) (getFrontBuffer e) 0 (mkMixBus 0 0 0)
                (freeOscillatorIndices e) Hlen) as Hcount.
  cbv zeta in Hcount.
  destruct (slotLoop _ _ _ _ _ _ _ _ _ _) as [[[states1 pool1] mix] free1].
  destruct (SmoothedValue.getNextValue (masterGain e)) as [g gain1].
  cbn [fst snd activeOscCount] in *.
  destruct (sample =? 0)%Z; [exact Hcount | reflexivity].
Qed.

Lemma sampleLoop_counter (stereo : bool) (clock : Z -> R) (remaining : nat) :
  forall (sample : Z) (e : PaintEngine),
    engineInvariant hdr e ->
    (0 < sample)%Z ->
    activeOscillators (fst (sampleLoop hdr stereo clock remaining sample e))
    = activeOscillators e.
Proof.
  induction remaining as [| remaining IH]; intros sample e Hinv Hpos;
    [reflexivity |].
  cbn [sampleLoop].
  pose proof (engineInvariant_samplePass hdr stereo sample (clock sample) e
                Hinv) as Hinv1.
  pose proof (samplePass_counter stereo sample (clock sample) e) as Hc.
  rewrite (proj2 (Z.eqb_neq sample 0)) in Hc by lia.
  destruct (samplePass hdr stereo sample (clock sample) e) as [e1 frame].
  cbn [fst] in *.
  specialize (IH (sample + 1)%Z e1 Hinv1 ltac:(lia)).
  destruct (sampleLoop hdr stereo clock remaining (sample + 1) e1)
    as [e2 frames].
  cbn [fst] in *. rewrite IH. apply Hc.
  unfold getFrontBuffer. rewrite (getPool_length hdr _ e Hinv).
  destruct Hinv as (-> & _). lia.
Qed.

Lemma processBlock_counter (numSamples : nat) (stereo : bool)
  (clock : Z -> R) (e : PaintEngine) :
  engineInvariant hdr e ->
  isActive e = true ->
  activeOscillators (fst (processBlock hdr (S numSamples) stereo clock e))
  = Z.of_nat
      (length (filter EnhancedOscillatorState.isActive (oscillatorStates e))).
Proof.
  intros Hinv Hon. unfold processBlock, updateCanvasOscillators.
  rewrite Hon. cbn [negb sampleLoop].
  pose proof (engineInvariant_swapBuffersIfPending hdr e Hinv) as Hinv0.
  assert (Hstates : oscillatorStates (swapBuffersIfPending e)
                    = oscillatorStates e)
    by (unfold swapBuffersIfPending; destruct (bufferSwapPending e);
        reflexivity).
  set (e0 := swapBuffersIfPending e) in *.
  pose proof (engineInvariant_samplePass hdr stereo 0 (clock 0%Z) e0 Hinv0)
    as Hinv1.
  pose proof (samplePass_counter stereo 0 (clock 0%Z) e0) as Hc.
  cbn [Z.eqb] in Hc.
  destruct (samplePass hdr stereo 0 (clock 0%Z) e0) as [e1 frame].
  cbn [fst] in *.
  pose proof (sampleLoop_counter stereo clock numSamples (0 + 1) e1 Hinv1
                ltac:(lia)) as Hrest.
  destruct (sampleLoop hdr stereo clock numSamples (0 + 1) e1) as [e2 frames].
  cbn [fst] in *.
  assert (Hfinal : forall e3 : PaintEngine,
            activeOscillators e3 = activeOscillators e2 ->
            activeOscillators
              (if (Z.rem (blockCounter e3) 100 =? 0)%Z
               then optimizeOscillatorPool hdr e3 else e3)
            = activeOscillators e2).
  { intros e3 H3. destruct (_ =? 0)%Z; [| exact H3].
    unfold optimizeOscillatorPool, requestBufferSwap.
    match goal with |- context [if ?b then _ else _] => destruct b end;
      exact H3. }
  rewrite Hfinal by reflexivity.
  rewrite Hrest, Hc, Hstates; [reflexivity |].
  unfold getFrontBuffer. rewrite (getPool_length hdr _ e0 Hinv0).
  destruct Hinv0 as (-> & _). lia.
Qed.

End VoiceCounter.

(** X20, the voice counter.  In a state that calls lead to from the
    constructor, with the engine switched on, a block of at least one
    sample leaves in [activeOscillators] the number of slots whose
    envelope was active when the block began: later samples of the block
    and the compaction at its end do not change the counter. *)
Theorem active_voice_counter (hdr : Header) (calls : list Call)
  (numSamples : nat) (stereo : bool) (clock : Z -> R) :
  let e := run hdr calls (PaintEngine_new hdr) in
  isActive e = true ->
  activeOscillators (fst (processBlock hdr (S numSamples) stereo clock e))
  = Z.of_nat
      (length (filter EnhancedOscillatorState.isActive (oscillatorStates e)))
  /\ (0 <= activeOscillators
             (fst (processBlock hdr (S numSamples) stereo clock e))
      <= Z.of_nat (MAX_OSCILLATORS hdr))%Z.
Proof.
  cbv zeta. intros Hon.
  pose proof (engineInvariant_run hdr calls _ (engineInvariant_new hdr))
    as Hinv.
  rewrite (processBlock_counter hdr numSamples stereo clock _ Hinv Hon).
  split; [reflexivity |].
  destruct Hinv as (Hlen & _).
  pose proof (filter_length_le EnhancedOscillatorState.isActive
                (oscillatorStates (run hdr calls (PaintEngine_new hdr)))).
  lia.
Qed.

Lemma active_voice_counter_witness :
  isActive (run studioHeader [AllocateAndActivate studioParams 0]
              (PaintEngine_new studioHeader)) = true
  /\ activeOscillators
       (fst (processBlock studioHeader 2 true (fun _ => 0%R)
               (run studioHeader [AllocateAndActivate studioParams 0]
                  (PaintEngine_new studioHeader))))
     = Z.of_nat
         (length
            (filter EnhancedOscillatorState.isActive
               (oscillatorStates
                  (run studioHeader [AllocateAndActivate studioParams 0]
                     (PaintEngine_new studioHeader))))).
Proof.
  assert (Hon : isActive (run studioHeader [AllocateAndActivate studioParams 0]
                            (PaintEngine_new studioHeader)) = true)
    by reflexivity.
  split; [exact Hon |].
  exact (proj1 (active_voice_counter studioHeader
                  [AllocateAndActivate studioParams 0] 1 true (fun _ => 0%R)
                  Hon)).
Defined.

(** ** Compaction of the back buffer *)

Section Compaction.

Variable hdr : Header.

Local Abbreviation active := (oscillatorIsActive hdr).
Local Abbreviation defaults := (defaultOscillator hdr).

(** What compaction leaves behind the active oscillators: slots it has
    reset, and oscillators that were not active. *)
Local Abbreviation leftover :=
  (fun o : Oscillator.t => o = defaults \/ active o = false).

Lemma updateAt_middle {A : Type} (f : A -> A) (before : list A) (a : A)
  (after : list A) :
  updateAt (length before) f (before ++ a :: after) = before ++ f a :: after.
Proof.
  induction before as [| b before IH]; simpl; [reflexivity |].
  rewrite IH. reflexivity.
Qed.

(** The loop from slot [i] on, when the slots below [i] are the compacted
    oscillators [done] followed by the leftovers [gap]. *)
Lemma compactLoop_spec (rest : list Oscillator.t) :
  forall done gap : list Oscillator.t,
    Forall leftover gap ->
    exists tail,
      compactLoop hdr (length rest)
        (Z.of_nat (length done + length gap)) (Z.of_nat (length done))
        (done ++ gap ++ rest)
      = done ++ filter active rest ++ tail
      /\ Forall leftover tail.
Proof.
  induction rest as [| o rest IH]; intros done gap Hgap.
  - exists gap. simpl. rewrite app_nil_r. auto.
  - cbn [length compactLoop filter].
    rewrite Nat2Z.id.
    assert (Hnth : nth (length done + length gap) (done ++ gap ++ o :: rest)
                     defaults = o)
      by (rewrite app_assoc, <- length_app; apply nth_middle).
    rewrite Hnth.
    destruct (active o) eqn:Hactive.
    + destruct gap as [| g gap].
      * cbn [length app]. rewrite Nat.add_0_r, Z.eqb_refl. cbn [negb].
        destruct (IH (done ++ [o]) [] ltac:(constructor)) as (tail & Heq & Ht).
        exists tail. split; [| exact Ht].
        rewrite length_app in Heq. cbn [length app] in Heq.
        rewrite Nat.add_0_r, <- !app_assoc in Heq. cbn [app] in Heq.
        replace (Z.of_nat (length done) + 1)%Z
          with (Z.of_nat (length done + 1)) by lia.
        exact Heq.
      * assert (Hne : (Z.of_nat (length done)
                       =? Z.of_nat (length done + length (g :: gap)))%Z
                      = false)
          by (apply Z.eqb_neq; cbn [length]; lia).
        rewrite Hne. cbn [negb]. rewrite Nat2Z.id.
        cbn [app]. rewrite updateAt_middle.
        replace (done ++ o :: gap ++ o :: rest)
          with ((done ++ o :: gap) ++ o :: rest)
          by (rewrite <- app_assoc; reflexivity).
        replace (length done + length (g :: gap))%nat
          with (length (done ++ o :: gap))
          by (rewrite length_app; reflexivity).
        rewrite updateAt_middle. unfold Oscillator.reset.
        inversion Hgap as [| ? ? _ Hgap']; subst.
        destruct (IH (done ++ [o]) (gap ++ [defaults])) as (tail & Heq & Ht).
        { apply Forall_app. split; [exact Hgap' |].
          constructor; [left; reflexivity | constructor]. }
        exists tail. split; [| exact Ht].
        etransitivity; [| etransitivity; [exact Heq |]].
        -- f_equal.
           ++ rewrite !length_app. cbn [length]. lia.
           ++ rewrite length_app. cbn [length]. lia.
           ++ rewrite <- !app_assoc. reflexivity.
        -- rewrite <- app_assoc. reflexivity.
    + destruct (IH done (gap ++ [o])) as (tail & Heq & Ht).
      { apply Forall_app. split; [exact Hgap |].
        constructor; [right; exact Hactive | constructor]. }
      exists tail. split; [| exact Ht].
      etransitivity; [| exact Heq].
      f_equal.
      * rewrite length_app. cbn [length]. lia.
      * rewrite <- !app_assoc. reflexivity.
Qed.

End Compaction.

(** X21, compaction.  In a state that calls lead to from the constructor,
    [optimizeOscillatorPool] leaves in the back buffer the oscillators
    that were active, in their order, at the lowest slots; behind them are
    only slots it has reset and oscillators that were not active.  The
    buffer keeps its size, a swap is pending afterwards, and the front
    buffer, the slot states and the free list are not touched: the states
    stay at their slots while the oscillators move. *)
Theorem optimizeOscillatorPool_compacts (hdr : Header) (calls : list Call) :
  let e := run hdr calls (PaintEngine_new hdr) in
  let e' := optimizeOscillatorPool hdr e in
  (exists tail,
      getBackBuffer e'
      = filter (oscillatorIsActive hdr) (getBackBuffer e) ++ tail
      /\ Forall
           (fun o => o = defaultOscillator hdr
                     \/ oscillatorIsActive hdr o = false) tail)
  /\ length (getBackBuffer e') = MAX_OSCILLATORS hdr
  /\ bufferSwapPending e' = true
  /\ getFrontBuffer e' = getFrontBuffer e
  /\ oscillatorStates e' = oscillatorStates e
  /\ freeOscillatorIndices e' = freeOscillatorIndices e.
Proof.
  cbv zeta.
  pose proof (engineInvariant_run hdr calls _ (engineInvariant_new hdr))
    as Hinv.
  set (e := run hdr calls (PaintEngine_new hdr)) in *.
  pose proof (getPool_length hdr (backBufferIndex e) e Hinv) as Hlen.
  fold (getBackBuffer e) in Hlen.
  assert (Hshape : forall e1 : PaintEngine,
            getBackBuffer (requestBufferSwap e1) = getBackBuffer e1
            /\ getFrontBuffer (requestBufferSwap e1) = getFrontBuffer e1
            /\ bufferSwapPending (requestBufferSwap e1) = true
            /\ oscillatorStates (requestBufferSwap e1) = oscillatorStates e1
            /\ freeOscillatorIndices (requestBufferSwap e1)
               = freeOscillatorIndices e1).
  { intros e1. unfold requestBufferSwap.
    destruct (bufferSwapPending e1) eqn:Hp; repeat split; auto. }
  unfold optimizeOscillatorPool.
  destruct (Hshape (setPool (backBufferIndex e)
                      (compactLoop hdr (MAX_OSCILLATORS hdr) 0 0
                         (getBackBuffer e)) e))
    as (Hback & Hfront & Hpending & Hstates & Hfree).
  rewrite Hback, Hfront, Hpending, Hstates, Hfree.
  assert (Hwritten : getBackBuffer
                       (setPool (backBufferIndex e)
                          (compactLoop hdr (MAX_OSCILLATORS hdr) 0 0
                             (getBackBuffer e)) e)
                     = compactLoop hdr (MAX_OSCILLATORS hdr) 0 0
                         (getBackBuffer e))
    by (unfold getBackBuffer at 1; apply getPool_setPool).
  rewrite Hwritten.
  refine (conj _ (conj _ (conj eq_refl (conj _ (conj _ _))))).
  - destruct (compactLoop_spec hdr (getBackBuffer e) [] [] ltac:(constructor))
      as (tail & Heq & Ht).
    cbn [length app Nat.add Z.of_nat] in Heq. rewrite Hlen in Heq.
    exists tail. split; assumption.
  - rewrite compactLoop_length. exact Hlen.
  - destruct Hinv as (_ & _ & _ & Hdistinct & _).
    unfold getFrontBuffer, getPool, setPool.
    destruct Hdistinct as [[Hf Hb] | [Hf Hb]];
      cbn [frontBufferIndex set_oscillatorPools oscillatorPools];
      rewrite Hf, Hb; reflexivity.
  - apply setPool_states.
  - apply setPool_free.
Qed.

(** ** Amplitude and pan stay in range *)

Section UnitRange.

Variable hdr : Header.

Hypothesis defaults_within : withinUnit (defaultOscillator hdr).
Hypothesis smoothing_within : (0 <= defaultSmoothingFactor hdr <= 1 / 2)%R.

Lemma withinUnit_setParameters (params : AudioParams.t) (o : Oscillator.t) :
  withinUnit o -> withinUnit (Oscillator.setParameters params o).
Proof.
  intros (Ha & _ & Hp & _). unfold withinUnit, Oscillator.setParameters. cbn.
  pose proof (jlimit_bounds 0 1 (AudioParams.amplitude params) ltac:(lra)).
  pose proof (jlimit_bounds 0 1 (AudioParams.pan params) ltac:(lra)).
  auto.
Qed.

Lemma withinUnit_smoothParameters (o : Oscillator.t) :
  withinUnit o ->
  withinUnit (Oscillator.smoothParameters (defaultSmoothingFactor hdr) o).
Proof.
  intros (Ha & Hta & Hp & Htp).
  unfold withinUnit, Oscillator.smoothParameters. cbn.
  repeat split; try lra; nra.
Qed.

Lemma withinUnit_updatePhase (sr : R) (o : Oscillator.t) :
  withinUnit o -> withinUnit (Oscillator.updatePhase sr o).
Proof. intros H. exact H. Qed.

Lemma poolsWithinUnit_frame (e e' : PaintEngine) :
  oscillatorPools e' = oscillatorPools e ->
  poolsWithinUnit e -> poolsWithinUnit e'.
Proof. unfold poolsWithinUnit. intros ->. tauto. Qed.

Lemma poolsWithinUnit_getPool (i : Z) (e : PaintEngine) :
  poolsWithinUnit e -> Forall withinUnit (getPool i e).
Proof.
  intros [H0 H1]. unfold getPool. destruct (i =? 0)%Z; assumption.
Qed.

Lemma poolsWithinUnit_setPool (i : Z) (v : list Oscillator.t)
  (e : PaintEngine) :
  Forall withinUnit v -> poolsWithinUnit e -> poolsWithinUnit (setPool i v e).
Proof.
  intros Hv [H0 H1]. unfold poolsWithinUnit, setPool.
  destruct (i =? 0)%Z; cbn; auto.
Qed.

Lemma poolsWithinUnit_reset (e : PaintEngine) :
  poolsWithinUnit
    (set_oscillatorPools
       (map (fun _ => defaultOscillator hdr) (fst (oscillatorPools e)),
        map (fun _ => defaultOscillator hdr) (snd (oscillatorPools e))) e).
Proof.
  unfold poolsWithinUnit. cbn.
  split; apply Forall_forall; intros o Hin;
    apply in_map_iff in Hin as (? & <- & _); exact defaults_within.
Qed.

Lemma poolsWithinUnit_activateOscillator (index : Z) (params : AudioParams.t)
  (now : R) (e : PaintEngine) :
  poolsWithinUnit e ->
  poolsWithinUnit (activateOscillator hdr index params now e).
Proof.
  intros Hinv. unfold activateOscillator.
  destruct (negb (indexInRange hdr index)); [exact Hinv |].
  apply poolsWithinUnit_setPool.
  - apply Forall_updateAt; [apply withinUnit_setParameters |].
    apply (poolsWithinUnit_getPool (backBufferIndex e) e Hinv).
  - revert Hinv. apply poolsWithinUnit_frame. reflexivity.
Qed.

Lemma poolsWithinUnit_updateOscillatorWithInfluence (index : Z)
  (newPoint : StrokePoint) (params : AudioParams.t) (now : R)
  (e : PaintEngine) :
  poolsWithinUnit e ->
  poolsWithinUnit
    (updateOscillatorWithInfluence hdr index newPoint params now e).
Proof.
  intros Hinv. unfold updateOscillatorWithInfluence.
  destruct (negb (indexInRange hdr index)); [exact Hinv |].
  destruct (negb (EnhancedOscillatorState.isActive _)); [exact Hinv |].
  destruct (Rlt_dec _ _); [exact Hinv |].
  match goal with
  | |- poolsWithinUnit (set_oscillatorStates _ ?e1) =>
      apply (poolsWithinUnit_frame e1); [reflexivity |]
  end.
  apply poolsWithinUnit_setPool; [| exact Hinv].
  apply Forall_updateAt; [apply withinUnit_setParameters |].
  apply (poolsWithinUnit_getPool (backBufferIndex e) e Hinv).
Qed.

Lemma poolsWithinUnit_allocateAndActivate (params : AudioParams.t) (now : R)
  (e : PaintEngine) :
  poolsWithinUnit e -> poolsWithinUnit (allocateAndActivate hdr params now e).
Proof.
  intros Hinv. unfold allocateAndActivate, allocateOscillator.
  destruct (freeOscillatorIndices e) as [| k rest].
  - destruct (_ >=? 0)%Z;
      [apply poolsWithinUnit_activateOscillator |]; exact Hinv.
  - destruct (_ >=? 0)%Z; [apply poolsWithinUnit_activateOscillator |];
      revert Hinv; apply poolsWithinUnit_frame; reflexivity.
Qed.

Lemma poolsWithinUnit_updateOscillatorsIncremental (newPoint : StrokePoint)
  (nearby : list Z) (now : R) (e : PaintEngine) :
  poolsWithinUnit e ->
  poolsWithinUnit (updateOscillatorsIncremental hdr newPoint nearby now e).
Proof.
  intros Hinv. unfold updateOscillatorsIncremental.
  destruct (_ || _).
  - apply poolsWithinUnit_allocateAndActivate. exact Hinv.
  - generalize (strokePointToAudioParams hdr e newPoint). intros params.
    revert e Hinv. induction nearby as [| i nearby IH]; intros e Hinv; simpl;
      [exact Hinv |].
    apply IH, poolsWithinUnit_updateOscillatorWithInfluence. exact Hinv.
Qed.

Lemma slotLoop_withinUnit (sr now : R) (panning stereo : bool)
  (states : list EnhancedOscillatorState.t) :
  forall (pool : list Oscillator.t) (i : Z) (mix : MixBus) (free : list Z),
    Forall withinUnit pool ->
    Forall withinUnit
      (snd (fst (fst (slotLoop hdr sr now panning stereo i states pool mix
                        free)))).
Proof.
  induction states as [| s states IH]; intros pool i mix free Hpool;
    [destruct pool; exact Hpool |].
  destruct pool as [| o pool]; [exact Hpool |].
  inversion Hpool as [| ? ? Ho Hrest]; subst.
  cbn [slotLoop].
  assert (H1 : withinUnit
                 (snd (fst (fst (processSlot hdr sr now panning stereo i s o
                                   mix free))))).
  { unfold processSlot.
    destruct (EnhancedOscillatorState.isActive s).
    - cbn [fst snd].
      apply withinUnit_updatePhase, withinUnit_smoothParameters. exact Ho.
    - destruct (_ && _); exact Ho. }
  destruct (processSlot hdr sr now panning stereo i s o mix free)
    as [[[s1 o1] mix1] free1].
  specialize (IH pool (i + 1)%Z mix1 free1 Hrest).
  destruct (slotLoop hdr sr now panning stereo (i + 1) states pool mix1 free1)
    as [[[states1 pool1] mix2] free2].
  cbn [fst snd] in *. constructor; assumption.
Qed.

Lemma poolsWithinUnit_samplePass (stereo : bool) (sample : Z) (now : R)
  (e : PaintEngine) :
  poolsWithinUnit e ->
  poolsWithinUnit (fst (samplePass hdr stereo sample now e)).
Proof.
  intros Hinv. unfold samplePass.
  pose proof (slotLoop_withinUnit (sampleRate e) now (usePanning e) stereo
                (oscillatorStates e) (getFrontBuffer e) 0 (mkMixBus 0 0 0)
                (freeOscillatorIndices e)
                (poolsWithinUnit_getPool (frontBufferIndex e) e Hinv))
    as Hpool.
  destruct (slotLoop _ _ _ _ _ _ _ _ _ _) as [[[states1 pool1] mix] free1].
  destruct (SmoothedValue.getNextValue (masterGain e)) as [g gain1].
  cbn [fst snd] in *.
  pose proof (poolsWithinUnit_setPool (frontBufferIndex e) pool1 e Hpool Hinv)
    as Hset.
  destruct (sample =? 0)%Z; revert Hset; apply poolsWithinUnit_frame;
    reflexivity.
Qed.

Lemma poolsWithinUnit_sampleLoop (stereo : bool) (clock : Z -> R)
  (remaining : nat) :
  forall (sample : Z) (e : PaintEngine),
    poolsWithinUnit e ->
    poolsWithinUnit (fst (sampleLoop hdr stereo clock remaining sample e)).
Proof.
  induction remaining as [| remaining IH]; intros sample e Hinv; simpl;
    [exact Hinv |].
  pose proof (poolsWithinUnit_samplePass stereo sample (clock sample) e Hinv)
    as H1.
  destruct (samplePass hdr stereo sample (clock sample) e) as [e1 frame].
  specialize (IH (sample + 1)%Z e1 H1).
  destruct (sampleLoop hdr stereo clock remaining (sample + 1) e1)
    as [e2 frames].
  exact IH.
Qed.

Lemma compactLoop_withinUnit (remaining : nat) :
  forall (i compactIndex : Z) (backBuffer : list Oscillator.t),
    Forall withinUnit backBuffer ->
    Forall withinUnit (compactLoop hdr remaining i compactIndex backBuffer).
Proof.
  induction remaining as [| remaining IH]; intros i c buffer Hbuf; simpl;
    [exact Hbuf |].
  destruct (oscillatorIsActive hdr _); [| apply IH; exact Hbuf].
  apply IH. destruct (negb (c =? i)%Z); [| exact Hbuf].
  apply Forall_updateAt; [intros ? _; exact defaults_within |].
  assert (Hnth : withinUnit
                   (nth (Z.to_nat i) buffer (defaultOscillator hdr))).
  { destruct (Nat.lt_ge_cases (Z.to_nat i) (length buffer)) as [Hin | Hout].
    - eapply Forall_forall; [exact Hbuf | apply nth_In; exact Hin].
    - rewrite nth_overflow by exact Hout. exact defaults_within. }
  apply Forall_updateAt; [intros ? _; exact Hnth | exact Hbuf].
Qed.

Lemma poolsWithinUnit_requestBufferSwap (e : PaintEngine) :
  poolsWithinUnit e -> poolsWithinUnit (requestBufferSwap e).
Proof.
  unfold requestBufferSwap. destruct (bufferSwapPending e); auto.
Qed.

Lemma poolsWithinUnit_optimizeOscillatorPool (e : PaintEngine) :
  poolsWithinUnit e -> poolsWithinUnit (optimizeOscillatorPool hdr e).
Proof.
  intros Hinv. unfold optimizeOscillatorPool.
  apply poolsWithinUnit_requestBufferSwap, poolsWithinUnit_setPool;
    [| exact Hinv].
  apply compactLoop_withinUnit.
  apply (poolsWithinUnit_getPool (backBufferIndex e) e Hinv).
Qed.

Lemma poolsWithinUnit_processBlock (numSamples : nat) (stereo : bool)
  (clock : Z -> R) (e : PaintEngine) :
  poolsWithinUnit e ->
  poolsWithinUnit (fst (processBlock hdr numSamples stereo clock e)).
Proof.
  intros Hinv. unfold processBlock, updateCanvasOscillators.
  destruct (negb (isActive e)); [exact Hinv |].
  assert (H0 : poolsWithinUnit (swapBuffersIfPending e))
    by (unfold swapBuffersIfPending; destruct (bufferSwapPending e);
        exact Hinv).
  pose proof (poolsWithinUnit_sampleLoop stereo clock numSamples 0 _ H0) as H1.
  destruct (sampleLoop hdr stereo clock numSamples 0 (swapBuffersIfPending e))
    as [e3 frames].
  cbn [fst] in *.
  destruct (Z.rem _ 100 =? 0)%Z; [| exact H1].
  apply poolsWithinUnit_optimizeOscillatorPool. exact H1.
Qed.

Lemma poolsWithinUnit_endStroke (e : PaintEngine) :
  poolsWithinUnit e -> poolsWithinUnit (endStroke hdr e).
Proof.
  apply poolsWithinUnit_frame. unfold endStroke.
  destruct (currentStroke e); [| reflexivity].
  destruct (points _); [reflexivity |].
  unfold getOrCreateRegion. destruct (findRegion _ _); reflexivity.
Qed.

Lemma poolsWithinUnit_beginStroke (position_ : Point) (pressure_ : R)
  (color_ : Juce.Colour) (e : PaintEngine) :
  poolsWithinUnit e ->
  poolsWithinUnit (beginStroke hdr position_ pressure_ color_ e).
Proof.
  intros Hinv. unfold beginStroke.
  match goal with
  | |- poolsWithinUnit (set_currentStroke _ (set_nextStrokeId _ ?e1)) =>
      apply (poolsWithinUnit_frame e1); [reflexivity |]
  end.
  destruct (currentStroke e); [apply poolsWithinUnit_endStroke |]; exact Hinv.
Qed.

Lemma poolsWithinUnit_applyCall (c : Call) (e : PaintEngine) :
  poolsWithinUnit e -> poolsWithinUnit (applyCall hdr c e).
Proof.
  intros Hinv. destruct c; cbn [applyCall].
  - apply poolsWithinUnit_beginStroke; exact Hinv.
  - unfold updateStroke. destruct (currentStroke e).
    + apply poolsWithinUnit_updateOscillatorsIncremental.
      revert Hinv. apply poolsWithinUnit_frame; reflexivity.
    + apply poolsWithinUnit_beginStroke; exact Hinv.
  - apply poolsWithinUnit_endStroke; exact Hinv.
  - revert Hinv. apply poolsWithinUnit_frame; reflexivity.
  - apply poolsWithinUnit_updateOscillatorsIncremental; exact Hinv.
  - apply poolsWithinUnit_allocateAndActivate; exact Hinv.
  - apply poolsWithinUnit_updateOscillatorWithInfluence; exact Hinv.
  - unfold releaseOscillator.
    destruct (negb (indexInRange hdr index)); exact Hinv.
  - apply poolsWithinUnit_samplePass; exact Hinv.
  - apply poolsWithinUnit_processBlock; exact Hinv.
  - unfold prepareToPlay. cbv zeta.
    match goal with
    | |- poolsWithinUnit (set_activeOscillators _ ?e3) =>
        apply (poolsWithinUnit_frame e3); [reflexivity |]
    end.
    apply poolsWithinUnit_reset.
  - unfold releaseResources. cbv zeta.
    match goal with
    | |- poolsWithinUnit (set_activeOscillators _ ?e3) =>
        apply (poolsWithinUnit_frame e3); [reflexivity |]
    end.
    apply poolsWithinUnit_reset.
  - unfold clearCanvas. cbv zeta.
    apply poolsWithinUnit_requestBufferSwap.
    match goal with
    | |- poolsWithinUnit (set_activeOscillators _ ?e2) =>
        apply (poolsWithinUnit_frame e2); [reflexivity |]
    end.
    apply poolsWithinUnit_setPool;
      [| revert Hinv; apply poolsWithinUnit_frame; reflexivity].
    apply Forall_forall. intros o Hin.
    apply in_map_iff in Hin as (? & <- & _). exact defaults_within.
  - revert Hinv. apply poolsWithinUnit_frame; reflexivity.
  - revert Hinv. apply poolsWithinUnit_frame; reflexivity.
  - revert Hinv. apply poolsWithinUnit_frame; reflexivity.
Qed.

Lemma poolsWithinUnit_run (calls : list Call) :
  forall e : PaintEngine,
    poolsWithinUnit e -> poolsWithinUnit (run hdr calls e).
Proof.
  unfold run. induction calls as [| c calls IH]; intros e Hinv; simpl;
    [exact Hinv |].
  apply IH, poolsWithinUnit_applyCall. exact Hinv.
Qed.

Lemma poolsWithinUnit_new : poolsWithinUnit (PaintEngine_new hdr).
Proof.
  unfold poolsWithinUnit. cbn.
  split; apply Forall_forall; intros o Hin; apply repeat_spec in Hin;
    subst o; exact defaults_within.
Qed.

End UnitRange.

(** X22, amplitude and pan stay in range.  Take a header whose default
    oscillator has its amplitude and pan, current and target, in [0, 1],
    whose smoothing factor is in [0, 0.5] and whose influence radius,
    region size and sample rate are not zero, and calls that never give
    [setCanvasRegion] a canvas without width or height nor
    [prepareToPlay] a sample rate that is not positive.  Then the canvas
    keeps a width and a height, so no division of the engine is by zero,
    and in every state that the calls lead to from the constructor every
    oscillator of both pools has amplitude and pan, current and target,
    in [0, 1], whatever pressures and colours were painted; the sample of
    any oscillator is then in [-1, 1]. *)
Theorem voices_stay_within_unit (hdr : Header) (calls : list Call) :
  withinUnit (defaultOscillator hdr) ->
  (0 <= defaultSmoothingFactor hdr <= 1 / 2)%R ->
  wellPosedHeader hdr ->
  Forall wellPosedCall calls ->
  let e := run hdr calls (PaintEngine_new hdr) in
  properCanvas e
  /\ frequencyRangeSound e
  /\ poolsWithinUnit e
  /\ (forall o, In o (getFrontBuffer e) \/ In o (getBackBuffer e) ->
        withinUnit o /\ (Rabs (Oscillator.getSample o) <= 1)%R).
Proof.
  intros Hdefault Hfactor _ Hcalls. cbv zeta.
  pose proof (poolsWithinUnit_run hdr Hdefault Hfactor calls _
                (poolsWithinUnit_new hdr Hdefault)) as Hinv.
  split; [apply properCanvas_run; [exact Hcalls | apply properCanvas_new] |].
  split; [apply frequencyRangeSound_run, frequencyRangeSound_new |].
  split; [exact Hinv |].
  intros o Hin.
  assert (Ho : withinUnit o).
  { destruct Hin as [Hin | Hin];
      (eapply Forall_forall; [| exact Hin]);
      apply poolsWithinUnit_getPool; exact Hinv. }
  split; [exact Ho |].
  destruct Ho as (Ha & _).
  unfold Oscillator.getSample. rewrite Rabs_mult.
  pose proof (SIN_bound (Oscillator.phase o * Juce.twoPi)) as [Hlow Hhigh].
  assert (Hsin : (Rabs (sin (Oscillator.phase o * Juce.twoPi)) <= 1)%R)
    by (apply Rabs_le; lra).
  assert (Hamp : (Rabs (Oscillator.amplitude o) <= 1)%R)
    by (apply Rabs_le; lra).
  pose proof (Rabs_pos (sin (Oscillator.phase o * Juce.twoPi))).
  pose proof (Rabs_pos (Oscillator.amplitude o)).
  nra.
Qed.

Lemma voices_stay_within_unit_witness :
  withinUnit (defaultOscillator studioHeader)
  /\ (0 <= defaultSmoothingFactor studioHeader <= 1 / 2)%R
  /\ wellPosedHeader studioHeader
  /\ Forall wellPosedCall
       [SetCanvasRegion 0 10 0 5; PrepareToPlay 4 2;
        AllocateAndActivate studioParams 0]
  /\ poolsWithinUnit
       (run studioHeader
          [SetCanvasRegion 0 10 0 5; PrepareToPlay 4 2;
           AllocateAndActivate studioParams 0]
          (PaintEngine_new studioHeader)).
Proof.
  assert (Hdefault : withinUnit (defaultOscillator studioHeader))
    by (unfold withinUnit; cbn; lra).
  assert (Hfactor : (0 <= defaultSmoothingFactor studioHeader <= 1 / 2)%R)
    by (cbn; lra).
  assert (Hheader : wellPosedHeader studioHeader)
    by (unfold wellPosedHeader; cbn; repeat split; lra).
  assert (Hcalls : Forall wellPosedCall
                     [SetCanvasRegion 0 10 0 5; PrepareToPlay 4 2;
                      AllocateAndActivate studioParams 0])
    by (repeat constructor; cbn; lra).
  split; [exact Hdefault |]. split; [exact Hfactor |].
  split; [exact Hheader |]. split; [exact Hcalls |].
  exact (proj1 (proj2 (proj2
           (voices_stay_within_unit studioHeader
              [SetCanvasRegion 0 10 0 5; PrepareToPlay 4 2;
               AllocateAndActivate studioParams 0]
              Hdefault Hfactor Hheader Hcalls)))).
Defined.

(** ** Painting writes the back buffer *)

Section BackBufferWrites.

Variable hdr : Header.

Lemma buffersDistinct_renderSide (e e' : PaintEngine) :
  renderSide e' = renderSide e -> buffersDistinct e -> buffersDistinct e'.
Proof.
  unfold renderSide, buffersDistinct. intros Heq.
  injection Heq as -> -> _ _. tauto.
Qed.

Lemma renderSide_setPool_back (v : list Oscillator.t) (e : PaintEngine) :
  buffersDistinct e ->
  renderSide (setPool (backBufferIndex e) v e) = renderSide e.
Proof.
  intros [[Hf Hb] | [Hf Hb]]; unfold renderSide, getFrontBuffer, getPool, setPool;
    cbn [frontBufferIndex backBufferIndex bufferSwapPending oscillatorPools
         set_oscillatorPools];
    rewrite Hf, Hb; reflexivity.
Qed.

Lemma renderSide_activateOscillator (index : Z) (params : AudioParams.t)
  (now : R) (e : PaintEngine) :
  buffersDistinct e ->
  renderSide (activateOscillator hdr index params now e) = renderSide e.
Proof.
  intros Hd. unfold activateOscillator.
  destruct (negb (indexInRange hdr index)); [reflexivity |].
  match goal with
  | |- renderSide (setPool (backBufferIndex ?e1) ?v ?e1) = _ =>
      rewrite (renderSide_setPool_back v e1) by exact Hd
  end.
  reflexivity.
Qed.

Lemma renderSide_updateOscillatorWithInfluence (index : Z)
  (newPoint : StrokePoint) (params : AudioParams.t) (now : R)
  (e : PaintEngine) :
  buffersDistinct e ->
  renderSide (updateOscillatorWithInfluence hdr index newPoint params now e)
  = renderSide e.
Proof.
  intros Hd. unfold updateOscillatorWithInfluence.
  destruct (negb (indexInRange hdr index)); [reflexivity |].
  destruct (negb (EnhancedOscillatorState.isActive _)); [reflexivity |].
  destruct (Rlt_dec _ _); [reflexivity |].
  match goal with
  | |- renderSide (set_oscillatorStates _ (setPool _ ?v e)) = _ =>
      transitivity (renderSide (setPool (backBufferIndex e) v e));
        [reflexivity | apply renderSide_setPool_back; exact Hd]
  end.
Qed.

Lemma renderSide_allocateAndActivate (params : AudioParams.t) (now : R)
  (e : PaintEngine) :
  buffersDistinct e ->
  renderSide (allocateAndActivate hdr params now e) = renderSide e.
Proof.
  intros Hd. unfold allocateAndActivate, allocateOscillator.
  destruct (freeOscillatorIndices e) as [| k rest].
  - destruct (_ >=? 0)%Z; [apply renderSide_activateOscillator; exact Hd |].
    reflexivity.
  - destruct (_ >=? 0)%Z; [| reflexivity].
    rewrite renderSide_activateOscillator by exact Hd. reflexivity.
Qed.

Lemma renderSide_updateOscillatorsIncremental (newPoint : StrokePoint)
  (nearby : list Z) (now : R) (e : PaintEngine) :
  buffersDistinct e ->
  renderSide (updateOscillatorsIncremental hdr newPoint nearby now e)
  = renderSide e.
Proof.
  intros Hd. unfold updateOscillatorsIncremental.
  destruct (_ || _).
  - apply renderSide_allocateAndActivate. exact Hd.
  - generalize (strokePointToAudioParams hdr e newPoint). intros params.
    revert e Hd. induction nearby as [| i nearby IH]; intros e Hd; simpl;
      [reflexivity |].
    pose proof (renderSide_updateOscillatorWithInfluence i newPoint params now
                  e Hd) as H1.
    rewrite IH by (apply (buffersDistinct_renderSide e); assumption).
    exact H1.
Qed.

Lemma renderSide_endStroke (e : PaintEngine) :
  renderSide (endStroke hdr e) = renderSide e.
Proof.
  unfold endStroke. destruct (currentStroke e); [| reflexivity].
  destruct (points _); [reflexivity |].
  unfold getOrCreateRegion. destruct (findRegion _ _); reflexivity.
Qed.

Lemma renderSide_beginStroke (position_ : Point) (pressure_ : R)
  (color_ : Juce.Colour) (e : PaintEngine) :
  renderSide (beginStroke hdr position_ pressure_ color_ e) = renderSide e.
Proof.
  unfold beginStroke. destruct (currentStroke e); [| reflexivity].
  rewrite <- (renderSide_endStroke e). reflexivity.
Qed.

Lemma renderControl_sampleLoop (stereo : bool) (clock : Z -> R)
  (remaining : nat) :
  forall (sample : Z) (e : PaintEngine),
    renderControl (fst (sampleLoop hdr stereo clock remaining sample e))
    = renderControl e.
Proof.
  induction remaining as [| remaining IH]; intros sample e; simpl;
    [reflexivity |].
  assert (H1 : renderControl
                 (fst (samplePass hdr stereo sample (clock sample) e))
               = renderControl e).
  { unfold samplePass.
    destruct (slotLoop _ _ _ _ _ _ _ _ _ _) as [[[states1 pool1] mix] free1].
    destruct (SmoothedValue.getNextValue (masterGain e)) as [g gain1].
    destruct (sample =? 0)%Z; reflexivity. }
  destruct (samplePass hdr stereo sample (clock sample) e) as [e1 frame].
  specialize (IH (sample + 1)%Z e1).
  destruct (sampleLoop hdr stereo clock remaining (sample + 1) e1)
    as [e2 frames].
  cbn [fst] in *. congruence.
Qed.

End BackBufferWrites.

(** X23, painting does not reach the render thread's buffer.  In a state
    that calls lead to from the constructor, [beginStroke], [updateStroke]
    and [endStroke] leave the front buffer, the roles of the two buffers
    and the swap flag as they are: a voice that a gesture activates or
    bends is written to the back buffer only, and these calls request no
    swap. *)
Theorem painting_writes_back_buffer_only (hdr : Header) (calls : list Call)
  (position_ : Point) (pressure_ : R) (color_ : Juce.Colour)
  (nearby : list Z) (now : R) :
  let e := run hdr calls (PaintEngine_new hdr) in
  renderSide (beginStroke hdr position_ pressure_ color_ e) = renderSide e
  /\ renderSide (updateStroke hdr position_ pressure_ nearby now e)
     = renderSide e
  /\ renderSide (endStroke hdr e) = renderSide e
  /\ renderSide
       (updateOscillatorsIncremental hdr
          (mkStrokePoint position_ pressure_ color_) nearby now e)
     = renderSide e.
Proof.
  cbv zeta.
  pose proof (engineInvariant_run hdr calls _ (engineInvariant_new hdr))
    as (_ & _ & _ & Hd & _).
  set (e := run hdr calls (PaintEngine_new hdr)) in *.
  refine (conj _ (conj _ (conj _ _))).
  - apply renderSide_beginStroke.
  - unfold updateStroke. destruct (currentStroke e).
    + rewrite renderSide_updateOscillatorsIncremental by exact Hd.
      reflexivity.
    + apply renderSide_beginStroke.
  - apply renderSide_endStroke.
  - apply renderSide_updateOscillatorsIncremental. exact Hd.
Qed.

(** X24, when a swap takes effect.  [blockCounter e] is the value that
    the counter of blocks, one [static int] for the process, has when the
    call begins, whatever engine counted the earlier blocks.  With the
    engine switched on and the counter below [INT_MAX], [processBlock]
    honours a pending swap before the first sample: the roles of the
    buffers after the block are exchanged if a swap was pending and
    unchanged if not.  The counter advances by one and stays an [int],
    and a swap is pending after the block exactly when the counter has
    reached a multiple of 100, the blocks that end with a compaction. *)
Theorem swap_takes_effect_at_block_start (hdr : Header) (numSamples : nat)
  (stereo : bool) (clock : Z -> R) (e : PaintEngine) :
  isActive e = true ->
  counterBelowIntMax e ->
  let e' := fst (processBlock hdr numSamples stereo clock e) in
  frontBufferIndex e'
  = (if bufferSwapPending e then backBufferIndex e else frontBufferIndex e)
  /\ backBufferIndex e'
     = (if bufferSwapPending e then frontBufferIndex e else backBufferIndex e)
  /\ blockCounter e' = (blockCounter e + 1)%Z
  /\ (- 2 ^ 31 <= blockCounter e' < 2 ^ 31)%Z
  /\ bufferSwapPending e' = (Z.rem (blockCounter e + 1) 100 =? 0)%Z.
Proof.
  intros Hon Hcounter. cbv zeta. unfold processBlock, updateCanvasOscillators.
  rewrite Hon. cbn [negb].
  pose proof (renderControl_sampleLoop hdr stereo clock numSamples 0
                (swapBuffersIfPending e)) as Hc.
  destruct (sampleLoop hdr stereo clock numSamples 0 (swapBuffersIfPending e))
    as [e3 frames].
  cbn [fst] in *. unfold renderControl in Hc.
  assert (Hswap : frontBufferIndex (swapBuffersIfPending e)
                  = (if bufferSwapPending e then backBufferIndex e
                     else frontBufferIndex e)
                  /\ backBufferIndex (swapBuffersIfPending e)
                     = (if bufferSwapPending e then frontBufferIndex e
                        else backBufferIndex e)
                  /\ bufferSwapPending (swapBuffersIfPending e) = false
                  /\ blockCounter (swapBuffersIfPending e) = blockCounter e).
  { unfold swapBuffersIfPending.
    destruct (bufferSwapPending e) eqn:Hp; repeat split; auto. }
  destruct Hswap as (Hf & Hb & Hp & Hn).
  injection Hc as Hf3 Hb3 Hp3 Hn3.
  cbn [blockCounter set_blockCounter].
  rewrite Hn3, Hn.
  destruct (Z.rem (blockCounter e + 1) 100 =? 0)%Z.
  - unfold optimizeOscillatorPool, requestBufferSwap.
    cbn [bufferSwapPending setPool set_oscillatorPools set_blockCounter].
    rewrite Hp3, Hp.
    cbn [frontBufferIndex backBufferIndex blockCounter bufferSwapPending
         set_bufferSwapPending setPool set_oscillatorPools set_blockCounter].
    unfold counterBelowIntMax in Hcounter.
    repeat split; try congruence; lia.
  - cbn [frontBufferIndex backBufferIndex blockCounter bufferSwapPending
         set_blockCounter].
    unfold counterBelowIntMax in Hcounter.
    repeat split; try congruence; lia.
Qed.

Lemma swap_takes_effect_at_block_start_witness :
  isActive (clearCanvas studioHeader (PaintEngine_new studioHeader)) = true
  /\ counterBelowIntMax
       (clearCanvas studioHeader (PaintEngine_new studioHeader))
  /\ frontBufferIndex
       (fst (processBlock studioHeader 1 true (fun _ => 0%R)
               (clearCanvas studioHeader (PaintEngine_new studioHeader))))
     = (if bufferSwapPending
             (clearCanvas studioHeader (PaintEngine_new studioHeader))
        then backBufferIndex
               (clearCanvas studioHeader (PaintEngine_new studioHeader))
        else frontBufferIndex
               (clearCanvas studioHeader (PaintEngine_new studioHeader))).
Proof.
  assert (Hon : isActive (clearCanvas studioHeader
                            (PaintEngine_new studioHeader)) = true)
    by reflexivity.
  assert (Hcounter : counterBelowIntMax
                       (clearCanvas studioHeader
                          (PaintEngine_new studioHeader)))
    by (unfold counterBelowIntMax; cbn; lia).
  split; [exact Hon |]. split; [exact Hcounter |].
  exact (proj1 (swap_takes_effect_at_block_start studioHeader 1 true
                  (fun _ => 0%R) _ Hon Hcounter)).
Defined.

(** ** Slot numbers out of range *)

(** X25, slot numbers out of range.  [activateOscillator],
    [releaseOscillator] and [updateOscillatorWithInfluence] do nothing for
    a slot number below zero or at or above [MAX_OSCILLATORS]; and with a
    pool of no slots, where the search for a victim returns -1, the
    allocating branch activates nothing. *)
Theorem out_of_range_slot_is_ignored (hdr : Header) (index : Z)
  (newPoint : StrokePoint) (params : AudioParams.t) (now : R)
  (e : PaintEngine) :
  (index < 0 \/ Z.of_nat (MAX_OSCILLATORS hdr) <= index)%Z ->
  activateOscillator hdr index params now e = e
  /\ releaseOscillator hdr index e = e
  /\ updateOscillatorWithInfluence hdr index newPoint params now e = e
  /\ (freeOscillatorIndices e = [] -> oscillatorStates e = [] ->
      allocateAndActivate hdr params now e = e).
Proof.
  intros Hout.
  assert (Hrange : indexInRange hdr index = false).
  { unfold indexInRange.
    destruct (Z.ltb_spec index 0); [reflexivity |].
    destruct (Z.geb_spec index (Z.of_nat (MAX_OSCILLATORS hdr)));
      [reflexivity | lia]. }
  unfold activateOscillator, releaseOscillator, updateOscillatorWithInfluence.
  rewrite Hrange. cbn [negb].
  repeat split.
  intros Hfree Hstates.
  unfold allocateAndActivate, allocateOscillator,
    findBestOscillatorForReplacement.
  rewrite Hfree, Hstates. reflexivity.
Qed.

Lemma out_of_range_slot_is_ignored_witness :
  (2 < 0 \/ Z.of_nat (MAX_OSCILLATORS studioHeader) <= 2)%Z
  /\ releaseOscillator studioHeader 2 (PaintEngine_new studioHeader)
     = PaintEngine_new studioHeader.
Proof.
  assert (Hout : (2 < 0 \/ Z.of_nat (MAX_OSCILLATORS studioHeader) <= 2)%Z)
    by (right; cbn; lia).
  split; [exact Hout |].
  exact (proj1 (proj2 (out_of_range_slot_is_ignored studioHeader 2
                         (mkStrokePoint (mkPoint 0 0) 1 Juce.white)
                         studioParams 0 (PaintEngine_new studioHeader) Hout))).
Defined.

(** ** Removing strokes and releasing resources *)

(** X26, removing a stroke from a region.  [removeStroke] takes out the
    strokes with the given identifier and no other, keeps the order of the
    rest and the cell of the region; removing twice is removing once;
    removing an identifier the region does not hold changes nothing; and
    a stroke that was just added is taken out again by its identifier. *)
Theorem removeStroke_removes_exactly (id : Z) (stroke : Stroke)
  (r : CanvasRegion) :
  let r' := CanvasRegion_removeStroke id r in
  (forall s, In s (strokes r') <-> In s (strokes r) /\ strokeId s <> id)
  /\ strokes r' = filter (fun s => negb (strokeId s =? id)%Z) (strokes r)
  /\ regionX r' = regionX r /\ regionY r' = regionY r
  /\ CanvasRegion_removeStroke id r' = r'
  /\ ((forall s, In s (strokes r) -> strokeId s <> id) -> r' = r)
  /\ CanvasRegion_removeStroke (strokeId stroke)
       (CanvasRegion_addStroke stroke r)
     = CanvasRegion_removeStroke (strokeId stroke) r.
Proof.
  cbv zeta. unfold CanvasRegion_removeStroke, CanvasRegion_addStroke.
  cbn [strokes regionX regionY].
  refine (conj _ (conj eq_refl (conj eq_refl (conj eq_refl (conj _ (conj _ _)))))).
  - intros s. rewrite filter_In. rewrite negb_true_iff, Z.eqb_neq. tauto.
  - f_equal. induction (strokes r) as [| s l IH]; simpl; [reflexivity |].
    destruct (negb (strokeId s =? id)%Z) eqn:Hs; simpl;
      [rewrite Hs, IH; reflexivity | exact IH].
  - intros Habsent. destruct r as [rx ry l]. cbn [strokes regionX regionY] in *.
    f_equal. apply filter_all. apply Forall_forall. intros s Hin.
    apply negb_true_iff, Z.eqb_neq. apply Habsent. exact Hin.
  - f_equal. rewrite filter_app. simpl. rewrite Z.eqb_refl. simpl.
    apply app_nil_r.
Qed.

(** X27, releasing resources.  [releaseResources] empties the canvas,
    drops the stroke in progress, puts the default oscillator in every
    slot of both pools and sets the voice counter to zero; it leaves the
    slot states and the free list as they are, so slots that were in use
    stay in use; a second call changes nothing more. *)
Theorem releaseResources_resets_pools (hdr : Header) (e : PaintEngine) :
  let e' := releaseResources hdr e in
  canvasRegions e' = []
  /\ currentStroke e' = None
  /\ Forall (fun o => o = defaultOscillator hdr) (fst (oscillatorPools e'))
  /\ Forall (fun o => o = defaultOscillator hdr) (snd (oscillatorPools e'))
  /\ length (fst (oscillatorPools e')) = length (fst (oscillatorPools e))
  /\ length (snd (oscillatorPools e')) = length (snd (oscillatorPools e))
  /\ activeOscillators e' = 0%Z
  /\ oscillatorStates e' = oscillatorStates e
  /\ freeOscillatorIndices e' = freeOscillatorIndices e
  /\ renderControl e' = renderControl e
  /\ releaseResources hdr e' = e'.
Proof.
  cbv zeta. unfold releaseResources. cbn.
  rewrite !length_map, !map_constant_twice.
  repeat split; try apply Forall_map_constant.
Qed.

(** ** Activating a voice *)

Lemma activateOscillator_backBuffer (hdr : Header) (index : Z)
  (params : AudioParams.t) (now : R) (e : PaintEngine) :
  indexInRange hdr index = true ->
  getBackBuffer (activateOscillator hdr index params now e)
  = updateAt (Z.to_nat index) (Oscillator.setParameters params)
      (getBackBuffer e).
Proof.
  intros Hr. unfold activateOscillator. rewrite Hr. cbn [negb].
  unfold getBackBuffer, setPool, getPool.
  cbn [backBufferIndex oscillatorPools set_oscillatorPools
       set_oscillatorStates].
  destruct (backBufferIndex e =? 0)%Z; reflexivity.
Qed.

(** X28, a voice starts from where the slot is.  In a state that calls
    lead to from the constructor, activating a slot in range writes the
    frequency and the clamped amplitude and pan targets to the slot's
    oscillator in the back buffer and keeps its current amplitude, pan and
    phase, so the voice moves to its targets by smoothing and does not
    jump; the slot's state takes the frequency, the amplitude and the pan
    as given, without clamping, and the time of the call; the free list
    and all other slots are left alone. *)
Theorem activation_keeps_current_level (hdr : Header) (calls : list Call)
  (index : Z) (params : AudioParams.t) (now : R) :
  (0 <= index < Z.of_nat (MAX_OSCILLATORS hdr))%Z ->
  let e := run hdr calls (PaintEngine_new hdr) in
  let e' := activateOscillator hdr index params now e in
  let osc := nth (Z.to_nat index) (getBackBuffer e) (defaultOscillator hdr) in
  let osc' := nth (Z.to_nat index) (getBackBuffer e') (defaultOscillator hdr) in
  Oscillator.frequency osc' = AudioParams.frequency params
  /\ Oscillator.targetAmplitude osc'
     = Juce.jlimit 0 1 (AudioParams.amplitude params)
  /\ Oscillator.targetPan osc' = Juce.jlimit 0 1 (AudioParams.pan params)
  /\ Oscillator.amplitude osc' = Oscillator.amplitude osc
  /\ Oscillator.pan osc' = Oscillator.pan osc
  /\ Oscillator.phase osc' = Oscillator.phase osc
  /\ EnhancedOscillatorState.targetFrequency (stateAt index e')
     = AudioParams.frequency params
  /\ EnhancedOscillatorState.targetAmplitude (stateAt index e')
     = AudioParams.amplitude params
  /\ EnhancedOscillatorState.targetPan (stateAt index e')
     = AudioParams.pan params
  /\ EnhancedOscillatorState.lastUsedTime (stateAt index e') = now
  /\ freeOscillatorIndices e' = freeOscillatorIndices e
  /\ (forall other : Z, (0 <= other)%Z -> other <> index ->
        stateAt other e' = stateAt other e
        /\ nth (Z.to_nat other) (getBackBuffer e') (defaultOscillator hdr)
           = nth (Z.to_nat other) (getBackBuffer e) (defaultOscillator hdr)).
Proof.
  intros Hin. cbv zeta.
  pose proof (engineInvariant_run hdr calls _ (engineInvariant_new hdr))
    as Hinv.
  set (e := run hdr calls (PaintEngine_new hdr)) in *.
  pose proof (proj2 (indexInRange_spec hdr index) Hin) as Hr.
  pose proof (getPool_length hdr (backBufferIndex e) e Hinv) as Hlen.
  fold (getBackBuffer e) in Hlen.
  pose proof Hinv as (Hstates & _).
  rewrite (activateOscillator_backBuffer hdr index params now e Hr).
  unfold stateAt.
  rewrite (activateOscillator_states hdr index params now e Hr).
  rewrite !nth_updateAt_same by lia.
  cbn [Oscillator.setParameters Oscillator.frequency Oscillator.targetAmplitude
       Oscillator.targetPan Oscillator.amplitude Oscillator.pan
       Oscillator.phase].
  do 10 (split; [reflexivity |]).
  split.
  - unfold activateOscillator. rewrite Hr. cbn [negb].
    rewrite setPool_free. reflexivity.
  - intros other Hpos Hne.
    assert (Hnat : Z.to_nat index <> Z.to_nat other) by lia.
    rewrite !nth_updateAt_other by exact Hnat. split; reflexivity.
Qed.

Lemma activation_keeps_current_level_witness :
  (0 <= 1 < Z.of_nat (MAX_OSCILLATORS studioHeader))%Z
  /\ Oscillator.frequency
       (nth (Z.to_nat 1)
          (getBackBuffer
             (activateOscillator studioHeader 1 studioParams 0
                (run studioHeader [] (PaintEngine_new studioHeader))))
          (defaultOscillator studioHeader))
     = AudioParams.frequency studioParams.
Proof.
  assert (Hin : (0 <= 1 < Z.of_nat (MAX_OSCILLATORS studioHeader))%Z)
    by (cbn; lia).
  split; [exact Hin |].
  exact (proj1 (activation_keeps_current_level studioHeader [] 1 studioParams 0
                  Hin)).
Defined.

(** ** The paint brush *)

Section BrushFacts.
Local Open Scope R_scope.

Lemma ln_2_pos : 0 < ln 2.
Proof. rewrite <- ln_1. apply ln_increasing; lra. Qed.

Lemma ln_le (a b : R) : 0 < a -> a <= b -> ln a <= ln b.
Proof.
  intros Ha [Hlt | ->]; [left; apply ln_increasing; assumption | lra].
Qed.

Lemma log2_ratio (a b : R) :
  0 < a -> 0 < b -> log2 (a / b) = (ln a - ln b) / ln 2.
Proof.
  intros Ha Hb. unfold log2. f_equal. unfold Rdiv.
  rewrite ln_mult by (try apply Rinv_0_lt_compat; lra).
  rewrite ln_Rinv by lra. reflexivity.
Qed.

End BrushFacts.

(** X29, the pitch of the paint brush.  The active brush slot is always
    one of 0..7.  In a state of the engine that calls lead to from the
    constructor and whose canvas has a height (on a canvas of no height
    the source divides by zero), [triggerPaintBrush] pushes nothing when
    the active voice has no sample; otherwise it pushes a pitch, a volume and a start
    command for the active slot, in this order.  The volume is the
    pressure clamped to [0, 1]; the pitch, in semitones from 440 Hz, lies
    between those of the two ends of the frequency range, is zero where
    the row maps to 440 Hz, and on the logarithmic scale grows linearly
    with the clamped height of the row: equal steps on the canvas are
    equal musical intervals. *)
Theorem paint_brush_pitch (hdr : Header) (calls : list Call) (slotIndex : Z)
  (canvasY pressure_ : R) :
  let e := run hdr calls (PaintEngine_new hdr) in
  let slot := setActivePaintBrush slotIndex in
  let height :=
    Juce.jlimit 0 1
      ((canvasY - canvasBottom e) / (canvasTop e - canvasBottom e))%R in
  canvasBottom e <> canvasTop e ->
  (0 <= slot <= 7)%Z
  /\ triggerPaintBrush e slot false canvasY pressure_ = []
  /\ exists semitones volume,
       triggerPaintBrush e slot true canvasY pressure_
       = [SetPitch slot semitones; SetVolume slot volume; StartPlayback slot]
       /\ volume = Juce.jlimit 0 1 pressure_
       /\ (0 <= volume <= 1)%R
       /\ (12 * log2 (minFrequency e / 440) <= semitones
           <= 12 * log2 (maxFrequency e / 440))%R
       /\ (canvasYToFrequency e canvasY = 440%R -> semitones = 0%R)
       /\ (useLogFrequencyScale e = true ->
           semitones
           = (12 * log2 (minFrequency e / 440)
              + height * (12 * log2 (maxFrequency e / minFrequency e)))%R).
Proof.
  cbv zeta. intros _.
  pose proof (frequencyRangeSound_run hdr calls _ (frequencyRangeSound_new hdr))
    as [Hmin Hmax].
  set (e := run hdr calls (PaintEngine_new hdr)) in *.
  pose proof (canvasYToFrequency_in_range e canvasY ltac:(lra)) as Hf.
  pose proof ln_2_pos as H2.
  split.
  { unfold setActivePaintBrush, jlimitZ.
    destruct (Z.ltb_spec slotIndex 0); [lia |].
    destruct (Z.ltb_spec 7 slotIndex); lia. }
  split; [reflexivity |].
  unfold triggerPaintBrush. cbv zeta.
  eexists. eexists. split; [reflexivity |].
  split; [reflexivity |].
  split; [apply jlimit_bounds; lra |].
  rewrite !log2_ratio by lra.
  refine (conj _ (conj _ _)).
  - assert (Hlow : (ln (minFrequency e)
                    <= ln (canvasYToFrequency e canvasY))%R)
      by (apply ln_le; lra).
    assert (Hhigh : (ln (canvasYToFrequency e canvasY)
                     <= ln (maxFrequency e))%R)
      by (apply ln_le; lra).
    assert (Hinv : (0 <= / ln 2)%R)
      by (left; apply Rinv_0_lt_compat; exact H2).
    set (f := canvasYToFrequency e canvasY) in *.
    assert (Hl : (0 <= (ln f - ln (minFrequency e)) * / ln 2)%R)
      by (apply Rmult_le_pos; lra).
    assert (Hh : (0 <= (ln (maxFrequency e) - ln f) * / ln 2)%R)
      by (apply Rmult_le_pos; lra).
    unfold Rdiv. split; lra.
  - intros ->. unfold Rdiv. ring.
  - intros Hlog. unfold canvasYToFrequency. rewrite Hlog. cbv zeta.
    rewrite ln_exp. field. lra.
Qed.

Lemma paint_brush_pitch_witness :
  canvasBottom (run studioHeader [] (PaintEngine_new studioHeader))
  <> canvasTop (run studioHeader [] (PaintEngine_new studioHeader))
  /\ (0 <= setActivePaintBrush 9 <= 7)%Z
  /\ triggerPaintBrush (run studioHeader [] (PaintEngine_new studioHeader))
       (setActivePaintBrush 9) false 0 1 = [].
Proof.
  assert (Hheight :
    canvasBottom (run studioHeader [] (PaintEngine_new studioHeader))
    <> canvasTop (run studioHeader [] (PaintEngine_new studioHeader)))
    by (cbn; lra).
  pose proof (paint_brush_pitch studioHeader [] 9 0 1 Hheight)
    as (Hslot & Hnone & _).
  split; [exact Hheight |]. split; [exact Hslot | exact Hnone].
Defined.

(** ** Blocks after a clear *)

Section ClearFacts.

Variable hdr : Header.







End ClearFacts.




(** * The claims *)

(** C1, counterexample.  [allocateOscillator] alone pops index 1 from the
    free list of a fresh two-slot engine and marks nothing: the index is
    then on neither side. *)
Lemma bare_allocate_breaks_partition :
  let e := runPoolOperations studioHeader [Allocate]
             (PaintEngine_new studioHeader) in
  onFreeList 1 e = false
  /\ slotInUse 1 e = false
  /\ ~ partitioned studioHeader e.
Proof.
  cbv zeta. split; [reflexivity |]. split; [reflexivity |].
  intros Hpart. specialize (Hpart 1%Z ltac:(simpl; lia)).
  discriminate Hpart.
Qed.

(** C1, the partition of the indices, for the calls the engine receives.
    From the freshly constructed engine, after any sequence of gesture
    updates (which allocate and activate in one step), influence updates,
    releases, passes of the sample loop, whole blocks, [prepareToPlay],
    [releaseResources], [clearCanvas] and the setters, every index below
    [MAX_OSCILLATORS] is either on the free list or in use, never both and
    never neither. *)
Theorem free_list_in_use_partition (hdr : Header) (calls : list Call) :
  let e := run hdr calls (PaintEngine_new hdr) in
  partitioned hdr e
  /\ NoDup (freeOscillatorIndices e)
  /\ Forall (fun i => (0 <= i < Z.of_nat (MAX_OSCILLATORS hdr))%Z)
       (freeOscillatorIndices e).
Proof.
  cbv zeta.
  pose proof (engineInvariant_run hdr calls _ (engineInvariant_new hdr)) as Hinv.
  split; [apply engineInvariant_partitioned; exact Hinv |].
  destruct Hinv as (_ & _ & _ & _ & Hnd & Hrange & _).
  split; [exact Hnd |]. apply Forall_forall. exact Hrange.
Qed.

(** C2, per-sample pan law.  The claim fails: the render loop weighs every
    slot with the constant 0.5 (the source marks the slot's own pan as still
    to be used).  A sustained slot panned hard left (pan and target pan 0)
    whose enveloped sample is 1 adds 1/2 to each bus, where the documented
    law adds 1 to the left bus and nothing to the right. *)
Theorem pan_law_ignores_slot_pan :
  let s := EnhancedOscillatorState.mk Sustain 1 440 1 0 0 true in
  let o := Oscillator.mk 440 1 1 0 0 (1 / 4) 0 in
  let o1 := Oscillator.smoothParameters (defaultSmoothingFactor studioHeader) o in
  let s1 :=
    EnhancedOscillatorState.updateEnvelope (envelopeStep studioHeader) 4 s in
  let envelopedSample :=
    (Oscillator.getSample o1 * EnhancedOscillatorState.envelopeValue s1)%R in
  let mix := snd (fst (processSlot studioHeader 4 0 true true 0 s o
                         (mkMixBus 0 0 0) [])) in
  Oscillator.pan o1 = 0%R
  /\ envelopedSample = 1%R
  /\ leftSample mix = (1 / 2)%R
  /\ rightSample mix = (1 / 2)%R
  /\ leftSample (documentedPanMix envelopedSample (Oscillator.pan o1)
                   (mkMixBus 0 0 0)) = 1%R
  /\ rightSample (documentedPanMix envelopedSample (Oscillator.pan o1)
                    (mkMixBus 0 0 0)) = 0%R.
Proof.
  cbv zeta.
  assert (Henv :
    (Oscillator.getSample
       (Oscillator.smoothParameters (defaultSmoothingFactor studioHeader)
          (Oscillator.mk 440 1 1 0 0 (1 / 4) 0))
     * EnhancedOscillatorState.envelopeValue
         (EnhancedOscillatorState.updateEnvelope (envelopeStep studioHeader) 4
            (EnhancedOscillatorState.mk Sustain 1 440 1 0 0 true)))%R = 1%R).
  { unfold Oscillator.getSample. cbn. rewrite sin_quarter_turn. lra. }
  rewrite processSlot_pans_at_centre by reflexivity.
  cbv zeta. rewrite Henv.
  cbn. repeat split; lra.
Qed.

(** C3, counterexample.  The released voice of slot 1 is rendered in one
    block of two samples.  The pass of sample 0 takes its envelope to
    Inactive; the pass of sample 1, inside the same block, clears [inUse]
    and pushes the index: at the end of that block the index is on the free
    list again. *)
Lemma reclaim_inside_the_block :
  let clock := fun _ : Z => 0%R in
  let afterSample0 :=
    fst (samplePass studioHeader true 0 (clock 0%Z) studioReleasedVoice) in
  let afterBlock :=
    fst (processBlock studioHeader 2 true clock studioReleasedVoice) in
  onFreeList 1 studioReleasedVoice = false
  /\ EnhancedOscillatorState.envelopePhase (stateAt 1 studioReleasedVoice)
     = Release
  /\ EnhancedOscillatorState.envelopePhase (stateAt 1 afterSample0) = Inactive
  /\ onFreeList 1 afterSample0 = false
  /\ slotInUse 1 afterBlock = false
  /\ onFreeList 1 afterBlock = true.
Proof.
  cbv zeta.
  destruct released_voice_decays as (Hactive & Hused & Hstep).
  destruct (decayed_slot_reclaimed_by_next_pass studioHeader true true 0 1 0 0
              studioReleasedVoice 1 studioReleasedVoice_invariant
              ltac:(simpl; lia) Hactive Hused Hstep)
    as (Hphase1 & _ & Hfree1 & Hused2 & Hfree2).
  split; [reflexivity |]. split; [reflexivity |].
  split; [exact Hphase1 |]. split; [exact Hfree1 |].
  destruct (processBlock_slot studioHeader 2 true (fun _ : Z => 0%R)
              studioReleasedVoice 1 eq_refl) as [Hs Hf].
  rewrite Hs, Hf, (studio_block_of_two studioReleasedVoice eq_refl).
  split; [exact Hused2 | exact Hfree2].
Qed.

(** C3, release and lazy reclaim, as the code has it.  In every state the
    engine can reach: [releaseOscillator] leaves the free list and every
    [inUse] flag as they are and puts the slot's envelope in Release; a
    pass of the sample loop pushes the indices of exactly the slots that
    are Inactive and still in use, and clears their [inUse]; so a voice
    whose envelope reaches Inactive during one pass keeps its index through
    that pass and gives it back during the very next pass, whether or not
    that pass belongs to the same block. *)
Theorem release_then_lazy_reclaim (hdr : Header) (calls : list Call) :
  let e := run hdr calls (PaintEngine_new hdr) in
  let N := Z.of_nat (MAX_OSCILLATORS hdr) in
  (forall index,
     freeOscillatorIndices (releaseOscillator hdr index e)
     = freeOscillatorIndices e
     /\ (forall i, slotInUse i (releaseOscillator hdr index e) = slotInUse i e)
     /\ ((0 <= index < N)%Z ->
         EnhancedOscillatorState.envelopePhase
           (stateAt index (releaseOscillator hdr index e)) = Release))
  /\ (forall stereo sample now i, (0 <= i < N)%Z ->
        let e1 := fst (samplePass hdr stereo sample now e) in
        onFreeList i e1
        = onFreeList i e
          || (EnvelopePhase_eqb
                (EnhancedOscillatorState.envelopePhase (stateAt i e)) Inactive
              && slotInUse i e)
        /\ slotInUse i e1
           = slotInUse i e
             && negb (EnvelopePhase_eqb
                        (EnhancedOscillatorState.envelopePhase (stateAt i e))
                        Inactive))
  /\ (forall stereo stereo' sample sample' now now' i, (0 <= i < N)%Z ->
        EnhancedOscillatorState.isActive (stateAt i e) = true ->
        slotInUse i e = true ->
        fst (envelopeStep hdr (sampleRate e)
               (EnhancedOscillatorState.envelopePhase (stateAt i e))
               (EnhancedOscillatorState.envelopeValue (stateAt i e)))
        = Inactive ->
        let e1 := fst (samplePass hdr stereo sample now e) in
        let e2 := fst (samplePass hdr stereo' sample' now' e1) in
        EnhancedOscillatorState.envelopePhase (stateAt i e1) = Inactive
        /\ slotInUse i e1 = true
        /\ onFreeList i e1 = false
        /\ slotInUse i e2 = false
        /\ onFreeList i e2 = true).
Proof.
  cbv zeta.
  pose proof (engineInvariant_run hdr calls _ (engineInvariant_new hdr)) as Hinv.
  generalize dependent (run hdr calls (PaintEngine_new hdr)). intros e Hinv.
  split; [| split].
  - intros index.
    destruct (releaseOscillator_effect hdr index e) as (Hf & Hu & _ & Hs).
    split; [exact Hf |]. split; [exact Hu |].
    intros Hi. rewrite Hs; [reflexivity | exact Hi |].
    destruct Hinv as (Hlen & _). lia.
  - intros stereo sample now i Hi.
    destruct (samplePass_slot hdr stereo sample now e i Hinv Hi) as [Hs Hf].
    unfold slotInUse. rewrite Hf, Hs, stateAfterPass_inUse, reclaimable_unfolded.
    split; [reflexivity |].
    destruct (EnhancedOscillatorState.inUse (stateAt i e)),
             (EnvelopePhase_eqb _ _); reflexivity.
  - intros stereo stereo' sample sample' now now' i Hi Hactive Hused Hstep.
    apply decayed_slot_reclaimed_by_next_pass; assumption.
Qed.

Lemma release_then_lazy_reclaim_witness :
  let e := run studioHeader
             [AllocateAndActivate studioParams 0; ReleaseOscillator 1]
             (PaintEngine_new studioHeader) in
  let e1 := fst (samplePass studioHeader true 0 0 e) in
  let e2 := fst (samplePass studioHeader true 1 0 e1) in
  (0 <= 1 < Z.of_nat (MAX_OSCILLATORS studioHeader))%Z
  /\ EnhancedOscillatorState.isActive (stateAt 1 e) = true
  /\ slotInUse 1 e = true
  /\ fst (envelopeStep studioHeader (sampleRate e)
            (EnhancedOscillatorState.envelopePhase (stateAt 1 e))
            (EnhancedOscillatorState.envelopeValue (stateAt 1 e))) = Inactive
  /\ onFreeList 1 e1 = false
  /\ onFreeList 1 e2 = true.
Proof.
  cbv zeta. fold studioReleasedVoice.
  assert (Hi : (0 <= 1 < Z.of_nat (MAX_OSCILLATORS studioHeader))%Z)
    by (simpl; lia).
  destruct released_voice_decays as (Hactive & Hused & Hstep).
  split; [exact Hi |]. split; [exact Hactive |]. split; [exact Hused |].
  split; [exact Hstep |].
  destruct (proj2 (proj2
              (release_then_lazy_reclaim studioHeader
                 [AllocateAndActivate studioParams 0; ReleaseOscillator 1]))
              true true 0%Z 1%Z 0%R 0%R 1%Z Hi Hactive Hused Hstep)
    as (_ & _ & Hfree1 & _ & Hfree2).
  split; [exact Hfree1 | exact Hfree2].
Defined.

(** C4, allocation policy.  [allocateOscillator] is a total function.  On a
    well-formed pool: with a non-empty free list it returns the index pushed
    last and pops it; with an empty free list it returns the lowest slot
    whose envelope is in Release or Inactive, if there is one, and otherwise
    the first slot of least [lastUsedTime]; and when the pool has at least
    one slot the index returned is a slot number. *)
Theorem allocation_policy (hdr : Header) (e : PaintEngine) :
  poolWellFormed hdr e ->
  let index := fst (allocateOscillator e) in
  let e' := snd (allocateOscillator e) in
  let free := freeOscillatorIndices e in
  let states := oscillatorStates e in
  let N := MAX_OSCILLATORS hdr in
  (forall rest i, free = rest ++ [i] ->
     index = i /\ freeOscillatorIndices e' = rest
     /\ oscillatorStates e' = states)
  /\ (forall j, free = [] -> (j < N)%nat ->
        releasing (nth j states EnhancedOscillatorState.initial) = true ->
        (forall k, (k < j)%nat ->
           releasing (nth k states EnhancedOscillatorState.initial) = false) ->
        index = Z.of_nat j /\ e' = e)
  /\ (free = [] -> (0 < N)%nat ->
      (forall k, (k < N)%nat ->
         releasing (nth k states EnhancedOscillatorState.initial) = false) ->
      e' = e
      /\ (forall k, (k < N)%nat ->
            (EnhancedOscillatorState.lastUsedTime (stateAt index e)
             <= EnhancedOscillatorState.lastUsedTime
                  (nth k states EnhancedOscillatorState.initial))%R)
      /\ (forall k, (Z.of_nat k < index)%Z ->
            (EnhancedOscillatorState.lastUsedTime (stateAt index e)
             < EnhancedOscillatorState.lastUsedTime
                 (nth k states EnhancedOscillatorState.initial))%R))
  /\ ((0 < N)%nat -> (0 <= index < Z.of_nat N)%Z).
Proof.
  intros (Hlen & Hrange & Hstamps). cbv zeta.
  assert (Hsteal :
    (0 < MAX_OSCILLATORS hdr)%nat ->
    (forall k, (k < MAX_OSCILLATORS hdr)%nat ->
       releasing (nth k (oscillatorStates e) EnhancedOscillatorState.initial)
       = false) ->
    exists j, (j < MAX_OSCILLATORS hdr)%nat
      /\ findBestOscillatorForReplacement e = Z.of_nat j
      /\ (forall k, (k < MAX_OSCILLATORS hdr)%nat ->
            (EnhancedOscillatorState.lastUsedTime
               (nth j (oscillatorStates e) EnhancedOscillatorState.initial)
             <= EnhancedOscillatorState.lastUsedTime
                  (nth k (oscillatorStates e) EnhancedOscillatorState.initial))%R)
      /\ (forall k, (k < j)%nat ->
            (EnhancedOscillatorState.lastUsedTime
               (nth j (oscillatorStates e) EnhancedOscillatorState.initial)
             < EnhancedOscillatorState.lastUsedTime
                 (nth k (oscillatorStates e) EnhancedOscillatorState.initial))%R)).
  { intros Hpos Hnone. unfold findBestOscillatorForReplacement.
    rewrite <- Hlen in *.
    destruct (findBestLoop_oldest (oscillatorStates e) 0 (-1) Juce.FLT_MAX Hnone)
      as [[_ Hall] | (j & Hj & Heq & _ & Hmin & Hstrict)].
    - exfalso. specialize (Hall 0%nat Hpos).
      assert (Hin : In (nth 0 (oscillatorStates e)
                          EnhancedOscillatorState.initial)
                       (oscillatorStates e)) by (apply nth_In; exact Hpos).
      rewrite Forall_forall in Hstamps. apply Hstamps in Hin. lra.
    - exists j. rewrite Heq. repeat split; auto. }
  split; [| split; [| split]].
  - intros rest i Hfree. unfold allocateOscillator. rewrite Hfree.
    destruct (rest ++ [i]) as [| a l] eqn:Heq;
      [destruct rest; discriminate |].
    rewrite <- Heq. cbn [fst snd].
    rewrite last_snoc, removelast_snoc. repeat split; reflexivity.
  - intros j Hfree Hj Hrel Hfirst. unfold allocateOscillator. rewrite Hfree.
    cbn [fst snd]. split; [| reflexivity].
    unfold findBestOscillatorForReplacement.
    rewrite (findBestLoop_first_releasing (oscillatorStates e) 0 (-1)
               Juce.FLT_MAX j); try assumption; lia.
  - intros Hfree Hpos Hnone. unfold allocateOscillator, stateAt.
    rewrite Hfree. cbn [fst snd]. split; [reflexivity |].
    destruct (Hsteal Hpos Hnone) as (j & Hj & Heq & Hmin & Hstrict).
    rewrite Heq, Nat2Z.id. split; [exact Hmin |].
    intros k Hk. apply Hstrict. lia.
  - intros Hpos. unfold allocateOscillator.
    destruct (freeOscillatorIndices e) as [| a l] eqn:Hfree.
    + cbn [fst].
      destruct (existsb releasing (oscillatorStates e)) eqn:Hex.
      * assert (Hfirst : exists j, (j < length (oscillatorStates e))%nat
                  /\ releasing (nth j (oscillatorStates e)
                                  EnhancedOscillatorState.initial) = true
                  /\ forall k, (k < j)%nat ->
                       releasing (nth k (oscillatorStates e)
                                    EnhancedOscillatorState.initial) = false).
        { clear - Hex. induction (oscillatorStates e) as [| s l IH];
            [discriminate |].
          simpl in Hex. destruct (releasing s) eqn:Hs.
          - exists 0%nat. simpl. repeat split; [lia | exact Hs |].
            intros k Hk. lia.
          - destruct (IH Hex) as (j & Hj & Hrel & Hbefore).
            exists (S j). simpl. repeat split; [lia | exact Hrel |].
            intros [| k] Hk; [exact Hs | apply Hbefore; lia]. }
        destruct Hfirst as (j & Hj & Hrel & Hbefore).
        unfold findBestOscillatorForReplacement.
        rewrite (findBestLoop_first_releasing (oscillatorStates e) 0 (-1)
                   Juce.FLT_MAX j Hj Hrel Hbefore). lia.
      * assert (Hnone : forall k, (k < MAX_OSCILLATORS hdr)%nat ->
                  releasing (nth k (oscillatorStates e)
                               EnhancedOscillatorState.initial) = false).
        { intros k Hk.
          destruct (releasing _) eqn:Hr; [| reflexivity].
          assert (Htrue : existsb releasing (oscillatorStates e) = true).
          { apply existsb_exists. eexists. split; [| exact Hr].
            apply nth_In. lia. }
          congruence. }
        destruct (Hsteal Hpos Hnone) as (j & Hj & Heq & _). rewrite Heq. lia.
    + cbn [fst]. rewrite Forall_forall in Hrange. apply Hrange.
      rewrite <- Hfree.
      destruct (exists_last (l := a :: l) ltac:(discriminate))
        as (l' & b & Heq).
      rewrite Hfree, Heq, last_snoc. apply in_or_app. right. left. reflexivity.
Qed.

Lemma allocation_policy_witness :
  (poolWellFormed studioHeader (PaintEngine_new studioHeader)
   /\ (0 < MAX_OSCILLATORS studioHeader)%nat
   /\ (0 <= fst (allocateOscillator (PaintEngine_new studioHeader)) < 2)%Z)
  /\ (poolWellFormed studioHeader studioFullPool
      /\ freeOscillatorIndices studioFullPool = []
      /\ (forall k, (k < MAX_OSCILLATORS studioHeader)%nat ->
            releasing (nth k (oscillatorStates studioFullPool)
                         EnhancedOscillatorState.initial) = false)
      /\ (forall k, (k < MAX_OSCILLATORS studioHeader)%nat ->
            (EnhancedOscillatorState.lastUsedTime
               (stateAt (fst (allocateOscillator studioFullPool))
                  studioFullPool)
             <= EnhancedOscillatorState.lastUsedTime
                  (nth k (oscillatorStates studioFullPool)
                     EnhancedOscillatorState.initial))%R)).
Proof.
  assert (Hwf : poolWellFormed studioHeader (PaintEngine_new studioHeader)).
  { split; [reflexivity |]. split.
    - repeat constructor; simpl; lia.
    - repeat constructor; simpl; apply FLT_MAX_positive. }
  assert (Hpos : (0 < MAX_OSCILLATORS studioHeader)%nat) by (simpl; lia).
  assert (Hfull : poolWellFormed studioHeader studioFullPool).
  { split; [reflexivity |]. split; [constructor |].
    pose proof FLT_MAX_large.
    repeat constructor; simpl; lra. }
  assert (Hfree : freeOscillatorIndices studioFullPool = []) by reflexivity.
  assert (Hnone : forall k, (k < MAX_OSCILLATORS studioHeader)%nat ->
            releasing (nth k (oscillatorStates studioFullPool)
                         EnhancedOscillatorState.initial) = false).
  { intros [| [| k]] Hk; [reflexivity | reflexivity | simpl in Hk; lia]. }
  split.
  - split; [exact Hwf |]. split; [exact Hpos |].
    exact (proj2 (proj2 (proj2
             (allocation_policy studioHeader (PaintEngine_new studioHeader)
                Hwf))) Hpos).
  - split; [exact Hfull |]. split; [exact Hfree |]. split; [exact Hnone |].
    exact (proj1 (proj2 (proj1 (proj2 (proj2
             (allocation_policy studioHeader studioFullPool Hfull)))
             Hfree Hpos Hnone))).
Defined.

(** C5, counterexample.  After [setFrequencyRange (1, 22000)] a gesture on
    the bottom row of the canvas is mapped to 1 Hz, and the allocating
    branch stores that value, unclamped, in the slot's state and in its
    oscillator. *)
Lemma frequency_below_audible_range :
  let e := setFrequencyRange 1 22000 (PaintEngine_new studioHeader) in
  let point := mkStrokePoint (mkPoint 0 (canvasBottom e)) 1 Juce.white in
  let e' := updateOscillatorsIncremental studioHeader point [] 0 e in
  canvasYToFrequency e (canvasBottom e) = 1%R
  /\ EnhancedOscillatorState.targetFrequency (stateAt 1 e') = 1%R
  /\ Oscillator.frequency
       (nth 1 (getBackBuffer e') (defaultOscillator studioHeader)) = 1%R
  /\ ~ documentedFrequencyRange
         (EnhancedOscillatorState.targetFrequency (stateAt 1 e')).
Proof.
  cbv zeta.
  assert (Hmin : minFrequency (setFrequencyRange 1 22000
                                 (PaintEngine_new studioHeader)) = 1%R)
    by (cbn; apply jlimit_inside; lra).
  assert (Hf : canvasYToFrequency
                 (setFrequencyRange 1 22000 (PaintEngine_new studioHeader))
                 (canvasBottom (setFrequencyRange 1 22000
                                  (PaintEngine_new studioHeader))) = 1%R).
  { rewrite canvasYToFrequency_bottom; rewrite Hmin; [reflexivity | lra]. }
  assert (Hs : EnhancedOscillatorState.targetFrequency
                 (stateAt 1
                    (updateOscillatorsIncremental studioHeader
                       (mkStrokePoint
                          (mkPoint 0
                             (canvasBottom
                                (setFrequencyRange 1 22000
                                   (PaintEngine_new studioHeader))))
                          1 Juce.white) [] 0
                       (setFrequencyRange 1 22000
                          (PaintEngine_new studioHeader)))) = 1%R).
  { unfold updateOscillatorsIncremental, strokePointToAudioParams.
    cbn [position x y pressure color orb].
    rewrite Hf. reflexivity. }
  split; [exact Hf |]. split; [exact Hs |]. split.
  - unfold updateOscillatorsIncremental, strokePointToAudioParams.
    cbn [position x y pressure color orb].
    rewrite Hf. reflexivity.
  - rewrite Hs. unfold documentedFrequencyRange. lra.
Qed.

(** C5, frequency range safety, as the code has it.  In what follows no
    division is by zero: the influence radius, the region size and the
    sample rate are not zero and the canvas has a width and a height (on
    a canvas of no height [canvasYToFrequency] divides by zero, and the
    source then has a NaN that no [jlimit] clamps).
    - After [setFrequencyRange] with any arguments the range is inside
      [1, 22000] and at least one hertz wide, and every frequency of the
      canvas mapping lies in the range.
    - In every state that well-posed calls lead to from the constructor
      the canvas has a width and a height and the range is as above; every
      target frequency and oscillator frequency that
      [updateOscillatorWithInfluence] writes lies in [20, 20000];
      [activateOscillator] stores the frequency it is given as it is, in
      the slot's state and in its oscillator, and for a painted point that
      frequency lies in the range, hence in [1, 22000].
    - For a positive sample rate and a frequency in [1, 22000] the phase
      increment that [updatePhase] computes is the frequency over the
      sample rate, a positive number of at most 22000 over the sample
      rate. *)
Theorem assigned_frequency_ranges :
  (forall (e : PaintEngine) (minHz maxHz y : R),
     let e' := setFrequencyRange minHz maxHz e in
     (1 <= minFrequency e' <= 20000)%R
     /\ (minFrequency e' + 1 <= maxFrequency e' <= 22000)%R
     /\ (canvasBottom e' <> canvasTop e' ->
         (minFrequency e' <= canvasYToFrequency e' y <= maxFrequency e')%R))
  /\ (forall (hdr : Header) (calls : list Call) (index : Z)
        (newPoint : StrokePoint) (params : AudioParams.t) (now : R)
        (d : Oscillator.t),
        wellPosedHeader hdr ->
        Forall wellPosedCall calls ->
        let e := run hdr calls (PaintEngine_new hdr) in
        let e' := updateOscillatorWithInfluence hdr index newPoint params now e in
        let painted := strokePointToAudioParams hdr e newPoint in
        let activated := activateOscillator hdr index painted now e in
        properCanvas e
        /\ frequencyRangeSound e
        /\ (stateAt index e' = stateAt index e
            \/ documentedFrequencyRange
                 (EnhancedOscillatorState.targetFrequency (stateAt index e')))
        /\ (nth (Z.to_nat index) (getBackBuffer e') d
            = nth (Z.to_nat index) (getBackBuffer e) d
            \/ documentedFrequencyRange
                 (Oscillator.frequency
                    (nth (Z.to_nat index) (getBackBuffer e') d)))
        /\ (minFrequency e <= AudioParams.frequency painted
            <= maxFrequency e)%R
        /\ ((0 <= index < Z.of_nat (MAX_OSCILLATORS hdr))%Z ->
            EnhancedOscillatorState.targetFrequency (stateAt index activated)
            = AudioParams.frequency painted
            /\ Oscillator.frequency
                 (nth (Z.to_nat index) (getBackBuffer activated) d)
               = AudioParams.frequency painted))
  /\ (forall (sr : R) (o : Oscillator.t),
        (0 < sr)%R ->
        (1 <= Oscillator.frequency o <= 22000)%R ->
        Oscillator.phaseIncrement (Oscillator.updatePhase sr o)
        = (Oscillator.frequency o / sr)%R
        /\ (0 < Oscillator.phaseIncrement (Oscillator.updatePhase sr o)
            <= 22000 / sr)%R).
Proof.
  refine (conj _ (conj _ _)).
  - intros e minHz maxHz y e'.
    pose proof (setFrequencyRange_bounds minHz maxHz e) as Hb.
    cbv zeta in Hb. fold e' in Hb.
    repeat split; try lra; apply canvasYToFrequency_in_range; lra.
  - intros hdr calls index newPoint params now d _ Hcalls. cbv zeta.
    pose proof (engineInvariant_run hdr calls _ (engineInvariant_new hdr))
      as Hinv.
    pose proof (frequencyRangeSound_run hdr calls _
                  (frequencyRangeSound_new hdr)) as Hrange.
    pose proof (properCanvas_run hdr calls _ Hcalls (properCanvas_new hdr))
      as Hcanvas.
    generalize dependent (run hdr calls (PaintEngine_new hdr)).
    intros e Hinv Hrange Hcanvas.
    refine (conj Hcanvas (conj Hrange (conj _ (conj _ (conj _ _))))).
    + destruct (updateOscillatorWithInfluence_state hdr index newPoint params
                  now e) as [Hsame | (_ & _ & Hnew)];
        [left; exact Hsame | right].
      rewrite Hnew. cbn.
      apply jlimit_bounds. lra.
    + destruct (updateOscillatorWithInfluence_oscillator hdr index newPoint
                  params now e d) as [Hsame | Hnew];
        [left; exact Hsame | right].
      rewrite Hnew. cbn.
      apply jlimit_bounds. lra.
    + destruct Hrange as [Hmin Hmax].
      unfold strokePointToAudioParams. cbn [AudioParams.frequency].
      apply canvasYToFrequency_in_range. lra.
    + intros Hin.
      pose proof (proj2 (indexInRange_spec hdr index) Hin) as Hr.
      pose proof (getPool_length hdr (backBufferIndex e) e Hinv) as Hlen.
      fold (getBackBuffer e) in Hlen.
      pose proof Hinv as (Hstates & _).
      rewrite (activateOscillator_backBuffer hdr index _ now e Hr).
      unfold stateAt.
      rewrite (activateOscillator_states hdr index _ now e Hr).
      rewrite (nth_updateAt_same _ _ _ d) by lia.
      rewrite (nth_updateAt_same _ _ _ EnhancedOscillatorState.initial) by lia.
      split; reflexivity.
  - intros sr o Hsr Hf. cbn [Oscillator.updatePhase Oscillator.phaseIncrement].
    split; [reflexivity |].
    assert (Hinv : (0 < / sr)%R) by (apply Rinv_0_lt_compat; exact Hsr).
    unfold Rdiv. split; nra.
Qed.

Lemma assigned_frequency_ranges_witness :
  wellPosedHeader studioHeader
  /\ Forall wellPosedCall
       [SetCanvasRegion 0 10 0 5; SetFrequencyRange 1 22000;
        AllocateAndActivate studioParams 0]
  /\ properCanvas
       (run studioHeader
          [SetCanvasRegion 0 10 0 5; SetFrequencyRange 1 22000;
           AllocateAndActivate studioParams 0]
          (PaintEngine_new studioHeader))
  /\ (0 < 4)%R
  /\ (1 <= Oscillator.frequency (Oscillator.mk 440 1 1 0 0 0 0) <= 22000)%R
  /\ Oscillator.phaseIncrement
       (Oscillator.updatePhase 4 (Oscillator.mk 440 1 1 0 0 0 0))
     = (Oscillator.frequency (Oscillator.mk 440 1 1 0 0 0 0) / 4)%R.
Proof.
  assert (Hheader : wellPosedHeader studioHeader)
    by (unfold wellPosedHeader; cbn; repeat split; lra).
  assert (Hcalls : Forall wellPosedCall
                     [SetCanvasRegion 0 10 0 5; SetFrequencyRange 1 22000;
                      AllocateAndActivate studioParams 0])
    by (repeat constructor; cbn; lra).
  assert (Hsr : (0 < 4)%R) by lra.
  assert (Hf : (1 <= Oscillator.frequency (Oscillator.mk 440 1 1 0 0 0 0)
                <= 22000)%R) by (cbn; lra).
  destruct assigned_frequency_ranges as (_ & Hruns & Hphase).
  split; [exact Hheader |]. split; [exact Hcalls |].
  split; [exact (proj1 (Hruns studioHeader _ 1%Z
                          (mkStrokePoint (mkPoint 1 1) 1 Juce.white)
                          studioParams 0%R (defaultOscillator studioHeader)
                          Hheader Hcalls)) |].
  split; [exact Hsr |]. split; [exact Hf |].
  exact (proj1 (Hphase 4%R (Oscillator.mk 440 1 1 0 0 0 0) Hsr Hf)).
Defined.



(** C7, coordinate-mapping round trip.  For every engine (so for both
    values of [useLogFrequencyScale]), after [setFrequencyRange] with any
    arguments, and on a canvas of positive height, mapping a row of the
    canvas to its frequency and back returns the row.  Floats are read as
    reals, so the equality is exact. *)
Theorem canvas_round_trip_after_setFrequencyRange
  (e : PaintEngine) (minHz maxHz y : R) :
  let e' := setFrequencyRange minHz maxHz e in
  (canvasBottom e' < canvasTop e')%R ->
  (canvasBottom e' <= y <= canvasTop e')%R ->
  frequencyToCanvasY e' (canvasYToFrequency e' y) = y.
Proof.
  intros e' Hcanvas Hy.
  pose proof (setFrequencyRange_bounds minHz maxHz e) as Hb.
  cbv zeta in Hb. fold e' in Hb.
  apply canvas_round_trip; [lra | assumption | assumption].
Qed.

Lemma canvas_round_trip_after_setFrequencyRange_witness :
  let e' := setFrequencyRange 20 20000 (PaintEngine_new studioHeader) in
  (canvasBottom e' < canvasTop e')%R
  /\ (canvasBottom e' <= 0 <= canvasTop e')%R
  /\ frequencyToCanvasY e' (canvasYToFrequency e' 0) = 0%R.
Proof.
  cbv zeta.
  assert (Hc : (canvasBottom (setFrequencyRange 20 20000
                                (PaintEngine_new studioHeader))
                < canvasTop (setFrequencyRange 20 20000
                               (PaintEngine_new studioHeader)))%R)
    by (cbn; lra).
  assert (Hy : (canvasBottom (setFrequencyRange 20 20000
                                (PaintEngine_new studioHeader)) <= 0
                <= canvasTop (setFrequencyRange 20 20000
                               (PaintEngine_new studioHeader)))%R)
    by (cbn; lra).
  split; [exact Hc |]. split; [exact Hy |].
  exact (canvas_round_trip_after_setFrequencyRange
           (PaintEngine_new studioHeader) 20 20000 0 Hc Hy).
Defined.




(** C9, influence blending.  The claim measures the distance to the slot's
    estimated position, whose X it takes to be the left edge of the canvas
    (the source's own comment: "assume oscillator is at time=0").  The code
    uses [position.x] itself as the horizontal offset, that is, it measures
    from X = 0.  On the default canvas, whose left edge is -100, a point
    placed exactly on a slot's estimated position is at documented distance
    0 and at computed distance 100. *)
Theorem distance_measured_from_origin (hdr : Header) (index : Z) :
  let e := PaintEngine_new hdr in
  let oscY :=
    frequencyToCanvasY e
      (EnhancedOscillatorState.targetFrequency (stateAt index e)) in
  let onTheSlot := mkPoint (canvasLeft e) oscY in
  canvasLeft e = (-100)%R
  /\ documentedDistance e index onTheSlot = 0%R
  /\ calculateDistance e index onTheSlot = 100%R.
Proof.
  cbv zeta. split; [reflexivity |]. split.
  - unfold documentedDistance. cbn [x y].
    match goal with
    | |- sqrt ?a = _ => replace a with (0 * 0)%R by ring
    end.
    apply sqrt_square. lra.
  - unfold calculateDistance, stateAt. cbn [x y].
    change (canvasLeft (PaintEngine_new hdr)) with (-100)%R.
    match goal with
    | |- sqrt ?a = _ => replace a with (100 * 100)%R by ring
    end.
    apply sqrt_square. lra.
Qed.

(** C10, region key injectivity.  The claim fails: with a negative row the
    sign extension of [regionY] overwrites the column, so the grid cells
    (0, -1) and (1, -1), both inside the default canvas, share the key -1,
    and [getOrCreateRegion] hands the region of the first cell to a point of
    the second. *)
Theorem region_keys_collide :
  (0, -1)%Z <> (1, -1)%Z
  /\ getRegionKey 0 (-1) = (-1)%Z
  /\ getRegionKey 1 (-1) = (-1)%Z
  /\ (let e := PaintEngine_new studioHeader in
      let first := getOrCreateRegion studioHeader 5 (-5) e in
      let second := getOrCreateRegion studioHeader 15 (-5) (snd first) in
      Juce.floorZ (5 / REGION_SIZE studioHeader) = 0%Z
      /\ Juce.floorZ (15 / REGION_SIZE studioHeader) = 1%Z
      /\ fst second = fst first
      /\ findRegion (fst second) (canvasRegions (snd second))
         = Some (CanvasRegion_new 0 (-1))
      /\ length (canvasRegions (snd second)) = 1%nat).
Proof.
  split; [discriminate |].
  split; [reflexivity |].
  split; [reflexivity |].
  assert (H5 : Juce.floorZ (5 / REGION_SIZE studioHeader) = 0%Z)
    by (apply floorZ_spec; simpl; lra).
  assert (H15 : Juce.floorZ (15 / REGION_SIZE studioHeader) = 1%Z)
    by (apply floorZ_spec; simpl; lra).
  assert (Hm5 : Juce.floorZ (-5 / REGION_SIZE studioHeader) = (-1)%Z)
    by (apply floorZ_spec; simpl; lra).
  cbv zeta. split; [exact H5 |]. split; [exact H15 |].
  unfold getOrCreateRegion.
  rewrite H5, H15, Hm5.
  change (canvasRegions (PaintEngine_new studioHeader)) with
    (@nil (Z * CanvasRegion)).
  cbn. repeat split.
Qed.
